(** * Heart-rate monitor: the signal-processing and BPM stabilisation engine

    A shallow embedding of the [heartRateMonitor] module (the variant with
    the signal-quality gate, the time-windowed raw-BPM consistency filter and
    a stability count of 3), of the brightness reading, the choice of the
    camera, the graph and the starting and stopping around it, and of the
    simpler engine of [src/main.js], followed by the properties proved about
    them.

    JavaScript numbers are IEEE 754 binary64 values; they are embedded as
    Rocq's primitive floats, which are the same format with the same
    correctly rounded [+], [-], [*], [/], [sqrt] and the same comparisons
    (every comparison with NaN is false).  Arrays are lists, array lengths
    are natural numbers, [null] is [None]. *)

From Stdlib Require Import String Ascii.
From Stdlib Require Import List Bool Arith ZArith Lia Floats Uint63.
Import ListNotations.

#[local] Set Warnings "-inexact-float".
#[local] Open Scope float_scope.

(** ** Numbers *)

Definition number := float.
Bind Scope float_scope with number.

(** [isNaN(x)]. *)
Definition isNaN (x : number) : bool := PrimFloat.is_nan x.

(** JavaScript truthiness of a number: every number but [0], [-0] and NaN. *)
Definition truthy (x : number) : bool := negb (x =? 0) && negb (isNaN x).

(** An array length, as the number JavaScript computes with. *)
Definition num_of_nat (n : nat) : number :=
  PrimFloat.of_uint63 (Uint63.of_Z (Z.of_nat n)).

(** Two-argument steps of the variadic [Math.min] and [Math.max]: NaN is
    contagious and [-0] counts as smaller than [+0]. *)
Definition min2 (a b : number) : number :=
  if isNaN a || isNaN b then nan
  else if b <? a then b
  else if (a =? b) && PrimFloat.is_zero b && PrimFloat.get_sign b then b
  else a.

Definition max2 (a b : number) : number :=
  if isNaN a || isNaN b then nan
  else if a <? b then b
  else if (a =? b) && PrimFloat.is_zero b && negb (PrimFloat.get_sign b) then b
  else a.

(** [Math.min(...arr)] and [Math.max(...arr)]; with no argument they are
    [Infinity] and [-Infinity]. *)
Definition Math_min (arr : list number) : number := fold_left min2 arr infinity.
Definition Math_max (arr : list number) : number := fold_left max2 arr neg_infinity.

(** The integer [z] as a number (exact for [|z| <= 2^53]). *)
Definition num_of_Z (z : Z) : number :=
  let a := PrimFloat.of_uint63 (Uint63.of_Z (Z.abs z)) in
  if (z <? 0)%Z then - a else a.

(** [Math.round(x)]: a non-finite or integral [x] is returned as it is;
    otherwise the integer nearest to [x], a tie going towards [+Infinity],
    which is [floor (x + 1/2)] computed exactly; a result that is zero keeps
    the sign of [x]. For [x = (-1)^s * m * 2^e] with [e < 0],
    [floor (x + 1/2) = floor ((+-2m + 2^(-e)) / 2^(1-e))]. *)
Definition Math_round (x : number) : number :=
  match Prim2SF x with
  | S754_finite s m e =>
      if (0 <=? e)%Z then x
      else
        let z := ((2 * SpecFloat.cond_Zopp s (Zpos m) + 2 ^ (- e)) / 2 ^ (1 - e))%Z in
        if (z =? 0)%Z then (if s then neg_zero else zero) else num_of_Z z
  | _ => x
  end.

(** [Math.round(v)] where [v] is a number or [null] ([null] converts to [0]). *)
Definition Math_round_opt (v : option number) : number :=
  match v with
  | Some x => Math_round x
  | None => 0
  end.

(** [Math.pow(base)] as the source calls it, with ONE argument: the missing
    exponent is [undefined], which converts to NaN, and exponentiation by NaN
    is NaN whatever the base. *)
Definition Math_pow_1 (base : number) : number := nan.

(** ** Constants *)

Definition MAX_SAMPLES : nat := 60 * 5.
Definition MIN_SAMPLES_FOR_ANALYSIS : nat := MAX_SAMPLES / 3.
Definition MIN_SIGNAL_RANGE : number := 0.0015.
Definition MAX_SIGNAL_STD_DEV_RATIO : number := 0.35.
Definition MIN_CROSSINGS_FOR_RAW_BPM : nat := 4.
Definition RAW_BPM_VALIDITY_WINDOW_MS : number := 2000.
Definition RAW_BPM_CONSISTENCY_THRESHOLD : number := 10.
Definition MIN_CONSISTENT_RAW_BPMS_FOR_CANDIDATE : nat := 3.
Definition STABLE_BPM_CANDIDATE_BUFFER_SIZE : nat := 5.
Definition REQUIRED_STABILITY_COUNT : nat := 3.
Definition BPM_STABILITY_TOLERANCE : number := 3.

(** ** Data model *)

(** A brightness sample [{ value, time }]. *)
Record Sample := mkSample { value : number; time : number }.

(** An entry [{ bpm, time, range }] of [recentValidRawBpms]. *)
Record RawBpm := mkRawBpm { bpm : number; rb_time : number; rb_range : number }.

(** The result [{ average, min, max, range, crossings }] of [analyzeData]. *)
Record DataStats := mkDataStats {
  average : number;
  min : number;
  max : number;
  range : number;
  crossings : list Sample
}.

(** The result [{ good, status }] of [analyzeSignalQuality]. *)
Record Signal := mkSignal { good : bool; status : string }.

(** The module-level state. [currentStabilityCounter] only ever holds a
    small count of ticks, on which doubles are exact; it is kept as [nat]. *)
Record State := mkState {
  SAMPLE_BUFFER : list Sample;
  recentValidRawBpms : list RawBpm;
  stableBpmCandidateBuffer : list number;
  currentStableBpmCandidate : option number;
  currentStabilityCounter : nat;
  lockedBpm : option number;
  lastSignalQualityStatus : string
}.

(** The state at module load. *)
Definition initialState : State := mkState [] [] [] None 0 None EmptyString.

(** What [setBpmDisplay] is called with during a tick: a number
    ([lockedBpm]), a rounded candidate followed by a question mark
    ([Math.round(c) + "?"]), or a status string. *)
Inductive DisplayValue :=
| DNumber (n : number)
| DTentative (n : number)
| DStatus (s : string).

(** What one tick reads from the outside: whether the video element can be
    sampled, the brightness of the frame and [Date.now()]. *)
Record Frame := mkFrame {
  videoReady : bool;
  currentBrightness : number;
  currentTime : number
}.

Definition set_SAMPLE_BUFFER (v : list Sample) (s : State) : State :=
  mkState v (recentValidRawBpms s) (stableBpmCandidateBuffer s)
    (currentStableBpmCandidate s) (currentStabilityCounter s) (lockedBpm s)
    (lastSignalQualityStatus s).

Definition set_recentValidRawBpms (v : list RawBpm) (s : State) : State :=
  mkState (SAMPLE_BUFFER s) v (stableBpmCandidateBuffer s)
    (currentStableBpmCandidate s) (currentStabilityCounter s) (lockedBpm s)
    (lastSignalQualityStatus s).

Definition set_stableBpmCandidateBuffer (v : list number) (s : State) : State :=
  mkState (SAMPLE_BUFFER s) (recentValidRawBpms s) v
    (currentStableBpmCandidate s) (currentStabilityCounter s) (lockedBpm s)
    (lastSignalQualityStatus s).

Definition set_candidate (c : option number) (n : nat) (s : State) : State :=
  mkState (SAMPLE_BUFFER s) (recentValidRawBpms s) (stableBpmCandidateBuffer s)
    c n (lockedBpm s) (lastSignalQualityStatus s).

Definition set_lockedBpm (v : option number) (s : State) : State :=
  mkState (SAMPLE_BUFFER s) (recentValidRawBpms s) (stableBpmCandidateBuffer s)
    (currentStableBpmCandidate s) (currentStabilityCounter s) v
    (lastSignalQualityStatus s).

Definition set_lastSignalQualityStatus (v : string) (s : State) : State :=
  mkState (SAMPLE_BUFFER s) (recentValidRawBpms s) (stableBpmCandidateBuffer s)
    (currentStableBpmCandidate s) (currentStabilityCounter s) (lockedBpm s) v.

(** ** Helpers *)

(** [calculateStdDev]: the reducer adds [Math.pow(val - mean)] to the
    accumulator, starting from [0]. *)
Definition calculateStdDev (arr : list number) (mean : number) : number :=
  match arr with
  | [] => 0
  | _ :: _ =>
      let variance :=
        fold_left (fun acc val => acc + Math_pow_1 (val - mean)) arr 0
        / num_of_nat (length arr) in
      PrimFloat.sqrt variance
  end.

(** [Array.prototype.sort] with the comparator [(a, b) => a - b]: the sort
    is stable, and [x] goes behind [y] exactly when the comparator is
    positive (a NaN comparator result counts as [0]). *)
Fixpoint insert_sorted (x : number) (l : list number) : list number :=
  match l with
  | [] => [x]
  | y :: l' => if 0 <? x - y then y :: insert_sorted x l' else x :: l
  end.

Definition sort_numbers (l : list number) : list number :=
  fold_right insert_sorted [] l.

(** [calculateMedian]. Every entry of the arrays it is given is a number, so
    the [typeof] test keeps all and the filter drops the NaNs. An index read
    [sortedArr[i]] is always in range here. *)
Definition calculateMedian (arr : list number) : option number :=
  match arr with
  | [] => None
  | _ :: _ =>
      let sortedArr := sort_numbers (filter (fun val => negb (isNaN val)) arr) in
      let len := length sortedArr in
      if Nat.eqb len 0 then None
      else
        let mid := Nat.div len 2 in
        if Nat.eqb (Nat.modulo len 2) 0 then
          if Nat.eqb mid 0 || Nat.ltb len 2 then
            match sortedArr with
            | x :: _ => if truthy x then Some x else None
            | [] => None
            end
          else Some ((nth (mid - 1) sortedArr nan + nth mid sortedArr nan) / 2)
        else Some (nth mid sortedArr nan)
  end.

(** [resetMeasurementState(clearLocked)]. *)
Definition resetMeasurementState (clearLocked : bool) (s : State) : State :=
  mkState (SAMPLE_BUFFER s) [] [] None 0
    (if clearLocked then None else lockedBpm s) EmptyString.

(** ** Statistics *)

(** The loop of [getAverageCrossings], from index [1] on: an upward
    crossing of the average is recorded, then the current sample becomes the
    previous one. *)
Fixpoint crossingsFrom (average : number) (previousSample : Sample)
    (rest : list Sample) : list Sample :=
  match rest with
  | [] => []
  | currentSample :: rest' =>
      let later := crossingsFrom average currentSample rest' in
      if (average <? value currentSample) && (value previousSample <=? average)
      then currentSample :: later
      else later
  end.

Definition getAverageCrossings (samples : list Sample) (average : number)
    : list Sample :=
  if Nat.ltb (length samples) 2 then []
  else
    match samples with
    | previousSample :: rest => crossingsFrom average previousSample rest
    | [] => []
    end.

(** [analyzeData]. *)
Definition analyzeData (samples : list Sample) : DataStats :=
  match samples with
  | [] => mkDataStats 0 0 0 0 []
  | first :: _ =>
      let average :=
        fold_left (fun a c => a + c) (map value samples) 0
        / num_of_nat (length samples) in
      let '(min, max) :=
        fold_left
          (fun '(min, max) sample =>
             let max := if max <? value sample then value sample else max in
             let min := if value sample <? min then value sample else min in
             (min, max))
          samples (value first, value first) in
      let range := max - min in
      let crossings := getAverageCrossings samples average in
      mkDataStats average min max range crossings
  end.

(** ** Signal quality gate *)

Definition analyzeSignalQuality (samples : list Sample) (dataStats : DataStats)
    : Signal :=
  if Nat.ltb (length samples) MIN_SAMPLES_FOR_ANALYSIS then
    mkSignal false "Analyzing..."
  else if range dataStats <? MIN_SIGNAL_RANGE then
    mkSignal false "Low Signal (Place finger firmly)"
  else
    let sampleValues := map value samples in
    let stdDev := calculateStdDev sampleValues (average dataStats) in
    if (0 <? range dataStats)
       && (MAX_SIGNAL_STD_DEV_RATIO <? stdDev / range dataStats) then
      mkSignal false "Noisy Signal (Hold still)"
    else if Nat.ltb (length (crossings dataStats)) MIN_CROSSINGS_FOR_RAW_BPM then
      mkSignal false "Detecting Pulse..."
    else mkSignal true "Good Signal".

(** ** Raw BPM estimator *)

(** The loop that fills [timeDifferences]. *)
Fixpoint timeDifferences (crossingSamples : list Sample) : list number :=
  match crossingSamples with
  | a :: ((b :: _) as rest) => (time b - time a) :: timeDifferences rest
  | _ => []
  end.

(** [calculateBpm]. A [null] median would make [medianInterval <= 0] true
    ([null] converts to [0]). *)
Definition calculateBpm (crossingSamples : list Sample) : option number :=
  if Nat.ltb (length crossingSamples) 2 then None
  else
    let diffs := timeDifferences crossingSamples in
    if Nat.eqb (length diffs) 0 then None
    else
      let physiologicallyPlausibleIntervals :=
        filter (fun dt => (270 <? dt) && (dt <? 2000)) diffs in
      if Nat.ltb (length physiologicallyPlausibleIntervals) 1 then None
      else
        match calculateMedian physiologicallyPlausibleIntervals with
        | None => None
        | Some medianInterval =>
            if (medianInterval <=? 0) || isNaN medianInterval then None
            else Some (60000 / medianInterval)
        end.

(** ** One tick *)

(** [buffer.push(x); if (buffer.length > capacity) buffer.shift();]. *)
Definition pushBounded {A : Type} (capacity : nat) (buffer : list A) (x : A)
    : list A :=
  let pushed := buffer ++ [x] in
  if Nat.ltb capacity (length pushed) then tl pushed else pushed.

(** The test [rawBpm !== null && rawBpm >= 30 && rawBpm <= 220]. *)
Definition rawBpmAccepted (rawBpm : option number) : bool :=
  match rawBpm with
  | Some r => (30 <=? r) && (r <=? 220)
  | None => false
  end.

(** The consistency filter: the block of [processFrame] that follows
    [calculateBpm]. *)
Definition updateCandidates (rawBpm : option number) (now range : number)
    (s : State) : State :=
  match rawBpm with
  | Some r =>
      if (30 <=? r) && (r <=? 220) then
        let pushed := recentValidRawBpms s ++ [mkRawBpm r now range] in
        let recent :=
          filter (fun rb => now - rb_time rb <? RAW_BPM_VALIDITY_WINDOW_MS)
            pushed in
        let s1 := set_recentValidRawBpms recent s in
        if Nat.leb MIN_CONSISTENT_RAW_BPMS_FOR_CANDIDATE (length recent) then
          let recentBpmsOnly := map bpm recent in
          let minRecent := Math_min recentBpmsOnly in
          let maxRecent := Math_max recentBpmsOnly in
          if maxRecent - minRecent <=? RAW_BPM_CONSISTENCY_THRESHOLD then
            match calculateMedian recentBpmsOnly with
            | Some candidateMedianBpm =>
                if truthy candidateMedianBpm then
                  set_stableBpmCandidateBuffer
                    (pushBounded STABLE_BPM_CANDIDATE_BUFFER_SIZE
                       (stableBpmCandidateBuffer s1) candidateMedianBpm)
                    s1
                else s1
            | None => s1
            end
          else s1
        else s1
      else s
  | None => s
  end.

(** The update of the stable candidate and its counter by the median of the
    candidate buffer. *)
Definition updateStableCandidate (medianOfCandidates : number) (s : State)
    : State :=
  match currentStableBpmCandidate s with
  | None => set_candidate (Some medianOfCandidates) 1 s
  | Some c =>
      if PrimFloat.abs (medianOfCandidates - c) <=? BPM_STABILITY_TOLERANCE
      then
        set_candidate (Some (c * 0.7 + medianOfCandidates * 0.3))
          (currentStabilityCounter s + 1) s
      else set_candidate (Some medianOfCandidates) 1 s
  end.

(** The stabilizer: the last block of [processFrame], "Attempt to lock BPM
    based on stable candidate medians". It returns the new state and the
    argument of the call of [setBpmDisplay], if there is one. *)
Definition lockBpm (s : State) : State * option DisplayValue :=
  if Nat.leb REQUIRED_STABILITY_COUNT (length (stableBpmCandidateBuffer s)) then
    match calculateMedian (stableBpmCandidateBuffer s) with
    | Some medianOfCandidates =>
        if truthy medianOfCandidates then
          let s1 := updateStableCandidate medianOfCandidates s in
          if Nat.leb REQUIRED_STABILITY_COUNT (currentStabilityCounter s1) then
            let locked := Math_round_opt (currentStableBpmCandidate s1) in
            (set_lockedBpm (Some locked) s1, Some (DNumber locked))
          else
            match lockedBpm s1 with
            | Some l => (s1, Some (DNumber l))
            | None =>
                match currentStableBpmCandidate s1 with
                | Some c => (s1, Some (DTentative (Math_round c)))
                | None => (s1, Some (DStatus "Calculating..."))
                end
            end
        else (s, None)
    | None => (s, None)
    end
  else
    match lockedBpm s with
    | Some l => (s, Some (DNumber l))
    | None => (s, Some (DStatus "Detecting..."))
    end.

(** What [processFrame] does when the signal is not good. *)
Definition badSignal (signal : Signal) (s : State)
    : State * option DisplayValue :=
  let changed := negb (String.eqb (status signal) (lastSignalQualityStatus s)) in
  let s1 := if changed then set_lastSignalQualityStatus (status signal) s else s in
  let shown := if changed then Some (DStatus (status signal)) else None in
  match lockedBpm s1 with
  | Some _ => (s1, shown)
  | None => (resetMeasurementState false s1, shown)
  end.

(** [processFrame]. Drawing the graph reads the state and changes none of
    it; it is left out. *)
Definition processFrame (s : State) (f : Frame) : State * option DisplayValue :=
  if negb (videoReady f) then (s, None)
  else
    let s0 :=
      set_SAMPLE_BUFFER
        (pushBounded MAX_SAMPLES (SAMPLE_BUFFER s)
           (mkSample (currentBrightness f) (currentTime f)))
        s in
    let dataStats := analyzeData (SAMPLE_BUFFER s0) in
    let signal := analyzeSignalQuality (SAMPLE_BUFFER s0) dataStats in
    if negb (good signal) then badSignal signal s0
    else
      let s1 := set_lastSignalQualityStatus (status signal) s0 in
      let rawBpm := calculateBpm (crossings dataStats) in
      lockBpm (updateCandidates rawBpm (currentTime f) (range dataStats) s1).

(** The state and the displayed values after a run of ticks. *)
Definition run (s : State) (frames : list Frame) : State :=
  fold_left (fun st f => fst (processFrame st f)) frames s.

(** ** The crossing detector of the simpler module

    [src/main.js] holds an older, simpler [heartRateMonitor]; its
    [getAverageCrossings] tests the opposite direction. *)
Module MainJs.

Fixpoint crossingsFrom (average : number) (previousSample : Sample)
    (rest : list Sample) : list Sample :=
  match rest with
  | [] => []
  | currentSample :: rest' =>
      let later := crossingsFrom average currentSample rest' in
      if ((value currentSample <? average)
          && (average <=? value previousSample))%float
      then currentSample :: later
      else later
  end.

Definition getAverageCrossings (samples : list Sample) (average : number)
    : list Sample :=
  if Nat.ltb (length samples) 2 then []
  else
    match samples with
    | previousSample :: rest => crossingsFrom average previousSample rest
    | [] => []
    end.

End MainJs.

#[local] Close Scope float_scope.

(** ** The brightness of a frame *)

(** [pixelData[i]] of the [Uint8ClampedArray] of a canvas, as the number
    the arithmetic sees: the byte at an index in range, and [undefined],
    which adds as NaN, out of range. *)
Definition pixelAt (pixelData : list Byte.byte) (i : nat) : number :=
  match nth_error pixelData i with
  | Some b => num_of_nat (Byte.to_nat b)
  | None => nan
  end.

(** [averageBrightness], given the pixel data that [getImageData] returns:
    four bytes per pixel, red, green, blue and alpha. The loop visits the
    indices [0, 4, 8, ...] below the length. *)
Definition averageBrightness (pixelData : list Byte.byte) : number :=
  let sum :=
    fold_left
      (fun sum i => (sum + pixelAt pixelData i + pixelAt pixelData (i + 1))%float)
      (map (fun k => 4 * k) (seq 0 ((length pixelData + 3) / 4)))
      0%float in
  let avg := (sum / (num_of_nat (length pixelData) * 0.5))%float in
  (avg / 255)%float.

(** ** Choosing the camera *)

Module Camera.

(** A [MediaDeviceInfo]. *)
Record MediaDeviceInfo := mkDevice {
  deviceId : string;
  kind : string;
  label : string
}.

(** What [navigator.mediaDevices.enumerateDevices] comes to: it is missing,
    its promise is rejected, or it resolves to the devices. *)
Inductive Enumeration :=
| EnumerateUnsupported
| EnumerateRejected
| Enumerated (devices : list MediaDeviceInfo).

(** [String.prototype.toLowerCase] on ASCII strings: the letters [A-Z] are
    mapped to [a-z], every other character is kept. *)
Definition lowerChar (c : ascii) : ascii :=
  let n := nat_of_ascii c in
  if Nat.leb 65 n && Nat.leb n 90 then ascii_of_nat (n + 32) else c.

Fixpoint toLowerCase (s : string) : string :=
  match s with
  | EmptyString => EmptyString
  | String c s' => String (lowerChar c) (toLowerCase s')
  end.

(** [s.includes(searchString)]. *)
Fixpoint includes (s searchString : string) : bool :=
  String.prefix searchString s
  || match s with
     | EmptyString => false
     | String _ s' => includes s' searchString
     end.

(** [getCamera]: the first camera whose label mentions "back", else the
    first camera; [null] when there is none or the devices cannot be
    listed. *)
Definition getCamera (enumeration : Enumeration) : option MediaDeviceInfo :=
  match enumeration with
  | EnumerateUnsupported => None
  | EnumerateRejected => None
  | Enumerated devices =>
      let cameras :=
        filter (fun device => String.eqb (kind device) "videoinput") devices in
      if Nat.eqb (length cameras) 0 then None
      else
        match
          find (fun camera =>
                  negb (String.eqb (label camera) EmptyString)
                  && includes (toLowerCase (label camera)) "back")
            cameras
        with
        | Some backCamera => Some backCamera
        | None => nth_error cameras 0
        end
  end.

(** The constraints that [startCameraStream] asks [getUserMedia] for:
    [{ video: { deviceId: { exact: id } } }], then
    [{ video: { facingMode: ["environment", "user"], width: { ideal: 300 },
    height: { ideal: 300 } } }], then [{ video: true }]. *)
Inductive Constraints :=
| ExactDevice (id : string)
| FacingModeIdeal
| AnyVideo.

(** The error a rejected [getUserMedia] carries. *)
Record MediaError := mkError { name : string; message : string }.

(** A line break. *)
Definition newline : string := String (ascii_of_nat 10) EmptyString.

(** The text of the alert after the last failed attempt. *)
Definition alertMessage (lastError : MediaError) : string :=
  (("Failed to access camera!" ++ newline)
   ++ (if String.eqb (name lastError) EmptyString then EmptyString
       else "Name: " ++ name lastError ++ newline)
   ++ (if String.eqb (message lastError) EmptyString then EmptyString
       else "Message: " ++ message lastError ++ newline))%string.

Section Streams.
Variable MediaStream : Type.

(** [tryGetUserMedia], which but for its log lines is [getUserMedia]: the
    stream, or the error thrown. *)
Variable tryGetUserMedia : Constraints -> MediaStream + MediaError.

(** [startCameraStream]: the stream, or else the alert shown (the BPM
    display is then set to "Camera Error"). *)
Definition startCameraStream (camera : option MediaDeviceInfo)
    : MediaStream + string :=
  let attempt1 :=
    match camera with
    | Some c =>
        if negb (String.eqb (deviceId c) EmptyString)
        then Some (tryGetUserMedia (ExactDevice (deviceId c)))
        else None
    | None => None
    end in
  match attempt1 with
  | Some (inl stream) => inl stream
  | _ =>
      match tryGetUserMedia FacingModeIdeal with
      | inl stream => inl stream
      | inr _ =>
          match tryGetUserMedia AnyVideo with
          | inl stream => inl stream
          | inr lastError => inr (alertMessage lastError)
          end
      end
  end.

End Streams.

End Camera.

(** ** The simpler monitor

    The rest of the engine of [src/main.js]: a buffer of the last 10 raw
    BPMs, a stable candidate confirmed 5 times, and full resets while the
    signal is too short or too flat. *)

Module MainJsMonitor.

Definition RAW_BPM_BUFFER_SIZE : nat := 10.
Definition REQUIRED_STABILITY_COUNT : nat := 5.
Definition BPM_STABILITY_TOLERANCE : number := 3%float.
Definition MIN_SAMPLES_FOR_RELIABLE_BPM : nat := MAX_SAMPLES / 3.
Definition MIN_CROSSINGS_FOR_CALCULATION : nat := 4.
Definition MIN_SIGNAL_RANGE_FOR_CALCULATION : number := 0.001%float.

Record State := mkState {
  SAMPLE_BUFFER : list Sample;
  rawBpmBuffer : list number;
  stableBpmCandidate : option number;
  stabilityCounter : nat;
  lastDisplayedBpm : option number
}.

Definition initialState : State := mkState [] [] None 0 None.

(** [resetBpmStability(clearLastLockedBpm)]. *)
Definition resetBpmStability (clearLastLockedBpm : bool) (s : State) : State :=
  mkState (SAMPLE_BUFFER s) [] None 0
    (if clearLastLockedBpm then None else lastDisplayedBpm s).

(** [analyzeData], with the crossings of this module. *)
Definition analyzeData (samples : list Sample) : DataStats :=
  match samples with
  | [] => mkDataStats 0 0 0 0 []
  | first :: _ =>
      let average :=
        (fold_left (fun a c => a + c) (map value samples) 0
         / num_of_nat (length samples))%float in
      let '(min, max) :=
        fold_left
          (fun '(min, max) sample =>
             let max := if (max <? value sample)%float then value sample else max in
             let min := if (value sample <? min)%float then value sample else min in
             (min, max))
          samples (value first, value first) in
      let range := (max - min)%float in
      let crossings := MainJs.getAverageCrossings samples average in
      mkDataStats average min max range crossings
  end.

(** [calculateBpm]: the median of all the differences of consecutive event
    times, none being filtered out. The times are those of [Date.now()], so
    no difference is NaN and the comparator of the sort is consistent. *)
Definition calculateBpm (samples : list Sample) : option number :=
  if Nat.ltb (length samples) 2 then None
  else
    let diffs := timeDifferences samples in
    if Nat.eqb (length diffs) 0 then None
    else
      let sortedIntervals := sort_numbers diffs in
      let mid := Nat.div (length sortedIntervals) 2 in
      let medianInterval :=
        if Nat.eqb (Nat.modulo (length sortedIntervals) 2) 0
        then ((nth (mid - 1) sortedIntervals nan + nth mid sortedIntervals nan) / 2)%float
        else nth mid sortedIntervals nan in
      if (medianInterval =? 0)%float || isNaN medianInterval then None
      else Some (60000 / medianInterval)%float.

(** The test [currentRawBpm === null || isNaN(currentRawBpm) ||
    currentRawBpm < 30 || currentRawBpm > 240]. *)
Definition rawBpmRejected (currentRawBpm : option number) : bool :=
  match currentRawBpm with
  | None => true
  | Some r => isNaN r || (r <? 30)%float || (240 <? r)%float
  end.

(** The update of the stable candidate and its counter by the median of
    the raw BPM buffer. *)
Definition updateStableCandidate (medianBpm : number) (s : State) : State :=
  match stableBpmCandidate s with
  | None =>
      mkState (SAMPLE_BUFFER s) (rawBpmBuffer s) (Some medianBpm) 1
        (lastDisplayedBpm s)
  | Some c =>
      if (PrimFloat.abs (medianBpm - c) <=? BPM_STABILITY_TOLERANCE)%float
      then
        mkState (SAMPLE_BUFFER s) (rawBpmBuffer s)
          (Some (c * 0.7 + medianBpm * 0.3)%float) (stabilityCounter s + 1)
          (lastDisplayedBpm s)
      else
        mkState (SAMPLE_BUFFER s) (rawBpmBuffer s) (Some medianBpm) 1
          (lastDisplayedBpm s)
  end.

(** [processFrame], given the sample [{ value, time }] of the frame. It
    returns the new state and the value passed to [setBpmDisplay]. *)
Definition processFrame (s : State) (sample : Sample) : State * DisplayValue :=
  let s0 :=
    mkState (pushBounded MAX_SAMPLES (SAMPLE_BUFFER s) sample) (rawBpmBuffer s)
      (stableBpmCandidate s) (stabilityCounter s) (lastDisplayedBpm s) in
  let dataStats := analyzeData (SAMPLE_BUFFER s0) in
  if Nat.ltb (length (SAMPLE_BUFFER s0)) MIN_SAMPLES_FOR_RELIABLE_BPM then
    (resetBpmStability true s0, DStatus "Analyzing...")
  else if (range dataStats <? MIN_SIGNAL_RANGE_FOR_CALCULATION)%float then
    (resetBpmStability true s0, DStatus "Low Signal")
  else if Nat.ltb (length (crossings dataStats)) MIN_CROSSINGS_FOR_CALCULATION
  then
    let s1 := resetBpmStability false s0 in
    (s1,
     match lastDisplayedBpm s1 with
     | Some l => DNumber (Math_round l)
     | None => DStatus "Detecting..."
     end)
  else
    let currentRawBpm := calculateBpm (crossings dataStats) in
    let badReading :=
      (s0,
       match lastDisplayedBpm s0 with
       | Some l => DNumber (Math_round l)
       | None =>
           match stableBpmCandidate s0 with
           | Some c => DNumber (Math_round c)
           | None => DStatus "Hold Still"
           end
       end) in
    match currentRawBpm with
    | None => badReading
    | Some r =>
        if rawBpmRejected currentRawBpm then badReading
        else
          let s1 :=
            mkState (SAMPLE_BUFFER s0)
              (pushBounded RAW_BPM_BUFFER_SIZE (rawBpmBuffer s0) r)
              (stableBpmCandidate s0) (stabilityCounter s0)
              (lastDisplayedBpm s0) in
          if Nat.ltb (length (rawBpmBuffer s1)) (RAW_BPM_BUFFER_SIZE / 2) then
            (s1,
             match lastDisplayedBpm s1 with
             | Some l => DNumber (Math_round l)
             | None => DStatus "Calculating..."
             end)
          else
            match calculateMedian (rawBpmBuffer s1) with
            | None =>
                (s1,
                 match lastDisplayedBpm s1 with
                 | Some l => DNumber (Math_round l)
                 | None => DStatus "Error"
                 end)
            | Some medianBpm =>
                let s2 := updateStableCandidate medianBpm s1 in
                if Nat.leb REQUIRED_STABILITY_COUNT (stabilityCounter s2) then
                  let s3 :=
                    mkState (SAMPLE_BUFFER s2) (rawBpmBuffer s2)
                      (stableBpmCandidate s2) (stabilityCounter s2)
                      (stableBpmCandidate s2) in
                  (s3, DNumber (Math_round_opt (lastDisplayedBpm s3)))
                else
                  match lastDisplayedBpm s2 with
                  | Some l => (s2, DNumber (Math_round l))
                  | None =>
                      (s2, DNumber (Math_round_opt (stableBpmCandidate s2)))
                  end
            end
    end.

(** The state after a run of ticks. *)
Definition run (s : State) (samples : list Sample) : State :=
  fold_left (fun st sample => fst (processFrame st sample)) samples s.

(** [getCamera]: the first camera whose label mentions "back", else the
    last camera ([undefined] when there is none). *)
Definition getCamera (devices : list Camera.MediaDeviceInfo)
    : option Camera.MediaDeviceInfo :=
  let cameras :=
    filter (fun device => String.eqb (Camera.kind device) "videoinput") devices in
  match
    find (fun camera =>
            Camera.includes (Camera.toLowerCase (Camera.label camera)) "back")
      cameras
  with
  | Some backCamera => Some backCamera
  | None => nth_error cameras (length cameras - 1)
  end.

End MainJsMonitor.

(** ** The graph *)

(** The size of the graph canvas. *)
Record Canvas := mkCanvas { width : number; height : number }.

(** The path commands that [drawGraph] issues between [beginPath] and
    [stroke]. *)
Inductive PathCommand :=
| MoveTo (x y : number)
| LineTo (x y : number).

(** [drawGraph], given the canvas, the line width that the context holds
    once [GRAPH_WIDTH] is assigned to it, the sample buffer and its
    statistics: the path that is stroked. Nothing is drawn for fewer than
    two samples. *)
Definition drawGraph (canvas : Canvas) (lineWidth : number)
    (samples : list Sample) (dataStats : DataStats) : list PathCommand :=
  let xScaling := (width canvas / num_of_nat MAX_SAMPLES)%float in
  let xOffset :=
    ((num_of_nat MAX_SAMPLES - num_of_nat (length samples)) * xScaling)%float in
  if Nat.ltb (length samples) 2 then []
  else
    let maxHeight := (height canvas - lineWidth * 2)%float in
    map
      (fun '(i, sample) =>
         let x := (xScaling * num_of_nat i + xOffset)%float in
         let y :=
           if (1e-9 <? range dataStats)%float
           then
             (maxHeight
              * (1 - (value sample - min dataStats) / range dataStats)
              + lineWidth)%float
           else (height canvas / 2)%float in
         let y :=
           Math_max
             [lineWidth; Math_min [y; (height canvas - lineWidth)%float]] in
         if Nat.eqb i 0 then MoveTo x y else LineTo x y)
      (combine (seq 0 (length samples)) samples).

(** ** Starting and stopping

    [startMonitoring] and [stopMonitoring] are asynchronous; they are
    modelled run to completion, one call at a time, with what the camera
    and the video element answer given from the outside. *)

(** How a start ends: no camera stream could be opened; the stream was
    opened but the video element refused to play; monitoring started. *)
Inductive StartOutcome :=
| CameraFailed
| VideoFailed
| Started.

(** The engine state with the flag [MONITORING]. *)
Record Monitor := mkMonitor { engine : State; MONITORING : bool }.

(** The module as loaded. *)
Definition loaded : Monitor := mkMonitor initialState false.

(** [resetBuffer]. *)
Definition resetBuffer (s : State) : State := set_SAMPLE_BUFFER [] s.

(** [stopMonitoring]; it returns what it displays. *)
Definition stopMonitoring (m : Monitor) : Monitor * list string :=
  (mkMonitor (resetMeasurementState true (engine m)) false, [EmptyString]).

(** [startMonitoring]; it returns what is displayed on the way. *)
Definition startMonitoring (outcome : StartOutcome) (m : Monitor)
    : Monitor * list string :=
  let m0 :=
    mkMonitor (resetMeasurementState true (resetBuffer (engine m)))
      (MONITORING m) in
  match outcome with
  | CameraFailed => (m0, ["Starting..."; "Camera Error"]%string)
  | VideoFailed =>
      let '(m1, shown) := stopMonitoring m0 in
      (m1, "Starting..."%string :: "Video Error"%string :: shown)
  | Started => (mkMonitor (engine m0) true, ["Starting..."%string])
  end.

(** [toggleMonitoring]. *)
Definition toggleMonitoring (outcome : StartOutcome) (m : Monitor)
    : Monitor * list string :=
  if MONITORING m then stopMonitoring m else startMonitoring outcome m.

(** One turn of [monitorLoop], on the frame it finds. *)
Definition monitorLoop (m : Monitor) (f : Frame)
    : Monitor * option DisplayValue :=
  if negb (MONITORING m) then (m, None)
  else
    let '(s, shown) := processFrame (engine m) f in
    (mkMonitor s (MONITORING m), shown).

#[local] Open Scope float_scope.

(** * Definitions used by the statements *)

#[local] Close Scope float_scope.

(** The sample a ready frame contributes. *)
Definition sampleOf (f : Frame) : Sample :=
  mkSample (currentBrightness f) (currentTime f).

(** [samples[i]]. *)
Definition sampleAt (samples : list Sample) (i : nat) : Sample :=
  nth i samples (mkSample 0 0).

(** Index [i] is an upward crossing of [average]: [samples[i]] is strictly
    above it while [samples[i - 1]] is at or below it. *)
Definition isUpwardCrossing (average : number) (samples : list Sample)
    (i : nat) : bool :=
  ((average <? value (sampleAt samples i))
   && (value (sampleAt samples (i - 1)) <=? average))%float.

(** Index [i] is a downward crossing of [average]: [samples[i]] is strictly
    below it while [samples[i - 1]] is at or above it. *)
Definition isDownwardCrossing (average : number) (samples : list Sample)
    (i : nat) : bool :=
  ((value (sampleAt samples i) <? average)
   && (average <=? value (sampleAt samples (i - 1))))%float.

(** The third rule of the gate, as [analyzeSignalQuality] tests it. *)
Definition noiseRatioExceeded (samples : list Sample) (dataStats : DataStats)
    : bool :=
  ((0 <? range dataStats)
   && (MAX_SIGNAL_STD_DEV_RATIO
       <? calculateStdDev (map value samples) (average dataStats)
          / range dataStats))%float.

(** The verdict of the gate on the tick that reads frame [f] in state [s]:
    the gate sees the buffer with the new sample pushed. *)
Definition tickSignal (s : State) (f : Frame) : Signal :=
  let buffer := pushBounded MAX_SAMPLES (SAMPLE_BUFFER s) (sampleOf f) in
  analyzeSignalQuality buffer (analyzeData buffer).

(** The inter-event differences that [calculateBpm] keeps. *)
Definition plausibleIntervals (crossingSamples : list Sample) : list number :=
  filter (fun dt => ((270 <? dt) && (dt <? 2000))%float)
    (timeDifferences crossingSamples).

(** Crossings 271 ms apart: the estimate, about 221.4 BPM, leaves the
    range the caller accepts. *)
Definition fastEvents : list Sample := [mkSample 0.6 1000; mkSample 0.6 1271].

(** Number of binary digits of a mantissa. *)
Definition dig (m : positive) : Z := Zpos (digits2_pos m).

(** The value of the finite float [m * 2^e], scaled by [2^1074] so that it is
    an integer for every exponent of the format. *)
Definition scaled (m : positive) (e : Z) : Z :=
  (Zpos m * 2 ^ (e + 1074))%Z.

(** A positive normal number. *)
Definition posnormal (x : float) : Prop :=
  exists (m : positive) (e : Z),
    Prim2SF x = S754_finite false m e /\ dig m = 53%Z.

(** The value of a finite float, scaled by [2^1074]. *)
Definition sc (x : float) : Z :=
  match Prim2SF x with
  | S754_finite _ m e => scaled m e
  | _ => 0
  end.

(** The test [x >= 30 && x <= 220] that admits a raw BPM. *)
Definition bpmInRange (x : number) : bool := ((30 <=? x) && (x <=? 220))%float.

(** The range the smoothed stable candidate stays in. *)
Definition candidateInRange (c : number) : bool := ((29 <=? c) && (c <=? 221))%float.

(** A rounded BPM: a whole number between 29 and 221. *)
Definition isIntegerBpm (n : number) : Prop :=
  exists z : Z, (29 <= z <= 221)%Z /\ n = num_of_Z z.

(** The states of a monitoring session: monitoring starts from the reset
    state, and every tick runs [processFrame]. *)
Inductive reachable : State -> Prop :=
| reachable_start : reachable initialState
| reachable_tick (s : State) (f : Frame) :
    reachable s -> reachable (fst (processFrame s f)).

Definition optionAll {A : Type} (P : A -> Prop) (o : option A) : Prop :=
  match o with
  | Some a => P a
  | None => True
  end.

(** What holds of every reachable state: the raw BPMs of the window and the
    candidate medians lie in [30, 220], the candidate buffer holds at most
    five of them, the stable candidate lies in [29, 221] and a locked BPM is
    a whole number. *)
Record wf_state (s : State) : Prop := {
  wf_recent :
    Forall (fun rb => bpmInRange (bpm rb) = true) (recentValidRawBpms s);
  wf_candidates :
    Forall (fun x => bpmInRange x = true) (stableBpmCandidateBuffer s);
  wf_candidates_length :
    length (stableBpmCandidateBuffer s) <= STABLE_BPM_CANDIDATE_BUFFER_SIZE;
  wf_stable :
    optionAll (fun c => candidateInRange c = true) (currentStableBpmCandidate s);
  wf_locked : optionAll isIntegerBpm (lockedBpm s)
}.

(** The window after the push and the eviction of a tick that accepts [r]. *)
Definition agedWindow (r now rng : number) (s : State) : list RawBpm :=
  filter (fun rb => (now - rb_time rb <? RAW_BPM_VALIDITY_WINDOW_MS)%float)
    (recentValidRawBpms s ++ [mkRawBpm r now rng]).

(** What the stabilizer does once the stable candidate is updated: lock
    and display when the counter has reached [REQUIRED_STABILITY_COUNT],
    otherwise display the existing lock or the tentative candidate. *)
Definition lockOutcome (s1 : State) : State * option DisplayValue :=
  if Nat.leb REQUIRED_STABILITY_COUNT (currentStabilityCounter s1) then
    let locked := Math_round_opt (currentStableBpmCandidate s1) in
    (set_lockedBpm (Some locked) s1, Some (DNumber locked))
  else
    match lockedBpm s1 with
    | Some l => (s1, Some (DNumber l))
    | None =>
        match currentStableBpmCandidate s1 with
        | Some c => (s1, Some (DTentative (Math_round c)))
        | None => (s1, Some (DStatus "Calculating..."))
        end
    end.

(** The statistics of the buffer, the raw BPM estimate of a tick, and the
    state in which a good tick enters the stabilizer: sample pushed, status
    stored, consistency filter run. *)
Definition tickStats (s : State) (f : Frame) : DataStats :=
  analyzeData (pushBounded MAX_SAMPLES (SAMPLE_BUFFER s) (sampleOf f)).

Definition tickRawBpm (s : State) (f : Frame) : option number :=
  calculateBpm (crossings (tickStats s f)).

Definition beforeLock (s : State) (f : Frame) : State :=
  updateCandidates (tickRawBpm s f) (currentTime f) (range (tickStats s f))
    (set_lastSignalQualityStatus (status (tickSignal s f))
       (set_SAMPLE_BUFFER
          (pushBounded MAX_SAMPLES (SAMPLE_BUFFER s) (sampleOf f)) s)).

(** A clean square wave of period 50 ticks, one tick every 16 ms: 75 beats
    per minute. *)
Definition pulseFrame (i : nat) : Frame :=
  mkFrame true (if Nat.ltb (Nat.modulo i 50) 25 then 0.502 else 0.5)
    (num_of_nat (1000 + 16 * i)).

Definition pulse (n : nat) : list Frame := map pulseFrame (seq 0 n).

(** A racing signal: a square wave of period 17 ticks, 272 ms, that is
    about 220.6 beats per minute, just above what the caller accepts. *)
Definition racingFrame (i : nat) : Frame :=
  mkFrame true (if Nat.ltb (Nat.modulo i 17) 8 then 0.502 else 0.5)
    (num_of_nat (1000 + 16 * i)).

(** The state after 208 ticks of the steady pulse (75 BPM is locked)
    followed by 150 ticks of the racing signal. *)
Definition racingState : State :=
  run initialState (pulse 208 ++ map racingFrame (seq 208 150)).

(** The status strings a tick may display. *)
Definition tickStatusStrings : list string :=
  [ "Analyzing..."; "Low Signal (Place finger firmly)";
    "Noisy Signal (Hold still)"; "Detecting Pulse..."; "Calculating...";
    "Detecting..." ]%string.

(** What is allowed on the display after a tick that leaves the state [s']:
    the locked BPM, a whole number; or, with nothing locked, the rounded
    stable candidate, a whole number shown as tentative; or one of the six
    status strings. *)
Definition displayAllowed (s' : State) (shown : DisplayValue) : Prop :=
  match shown with
  | DNumber n => lockedBpm s' = Some n /\ isIntegerBpm n
  | DTentative n =>
      lockedBpm s' = None
      /\ (exists c, currentStableBpmCandidate s' = Some c /\ n = Math_round c)
      /\ isIntegerBpm n
  | DStatus str => In str tickStatusStrings
  end.

(** The standard deviation that the third rule of the gate speaks of: the
    square root of the mean squared deviation, which [calculateStdDev] would
    be with [Math.pow(val - mean, 2)]. *)
Definition standardDeviation (arr : list number) (mean : number) : number :=
  match arr with
  | [] => 0
  | _ :: _ =>
      PrimFloat.sqrt
        (fold_left (fun acc val => acc + (val - mean) * (val - mean)) arr 0
         / num_of_nat (length arr))%float
  end.

(** A flickering signal: brightness alternating between 0 and 1 tick by
    tick, 120 samples. *)
Definition flickerBuffer : list Sample :=
  map (fun i => mkSample (if Nat.even i then 0 else 1)
                  (num_of_nat (1000 + 16 * i)))
    (seq 0 120).

(** What the ticks of a run display, in order. *)
Fixpoint displays (s : State) (frames : list Frame)
    : list (option DisplayValue) :=
  match frames with
  | [] => []
  | f :: frames' =>
      snd (processFrame s f) :: displays (fst (processFrame s f)) frames'
  end.

(** A stream of frames of constant brightness. *)
Definition constantFrames (v : number) (times : list number) : list Frame :=
  map (fun t => mkFrame true v t) times.


(** The bookkeeping of the stabilizer: a stable candidate exists exactly
    while its counter is positive, and only once the candidate buffer holds
    [REQUIRED_STABILITY_COUNT] medians; a lock implies a stable candidate;
    and while nothing is locked, the stored status is either empty or
    "Good Signal". *)
Record booked (s : State) : Prop := {
  booked_counter :
    currentStableBpmCandidate s = None <-> currentStabilityCounter s = 0;
  booked_buffer :
    currentStableBpmCandidate s <> None ->
    REQUIRED_STABILITY_COUNT <= length (stableBpmCandidateBuffer s);
  booked_lock : lockedBpm s <> None -> currentStableBpmCandidate s <> None;
  booked_status :
    lockedBpm s = None ->
    lastSignalQualityStatus s = EmptyString
    \/ lastSignalQualityStatus s = "Good Signal"%string
}.

(** How far the pipeline can have got after [t] ticks: a good signal needs
    100 samples, a candidate median 3 observations, the stabilizer 3
    candidate medians, and a lock a counter of 3. *)
Record within (t : nat) (s : State) : Prop := {
  within_samples : length (SAMPLE_BUFFER s) <= t;
  within_recent : length (recentValidRawBpms s) <= t - 99;
  within_candidates : length (stableBpmCandidateBuffer s) <= t - 101;
  within_counter : currentStabilityCounter s <= t - 103;
  within_lock : t < 106 -> lockedBpm s = None
}.

(** A square wave of period 18 ticks, one tick every 16 ms: about 208 beats
    per minute. *)
Definition quickFrame (i : nat) : Frame :=
  mkFrame true (if Nat.ltb (Nat.modulo i 18) 9 then 0.5 else 0.502)%float
    (num_of_nat (1000 + 16 * i)).

(** The place of a number on the line, as an integer that the comparisons
    of the numbers follow: the value of a finite number scaled by [2^1074],
    [0] for both zeros, and beyond every finite value for the infinities. *)
Definition ordSF (f : spec_float) : Z :=
  match f with
  | S754_zero _ => 0
  | S754_infinity s => cond_Zopp s (2 ^ 2200)
  | S754_nan => 0
  | S754_finite s m e => cond_Zopp s (scaled m e)
  end.

Definition ord (x : float) : Z := ordSF (Prim2SF x).

(** The test [lo <= x && x <= hi]. *)
Definition inRange (lo hi x : number) : bool := ((lo <=? x) && (x <=? hi))%float.

(** The sum of the red and green bytes of the pixels, as a natural
    number. *)
Definition redGreenSum (pixelData : list Byte.byte) : nat :=
  list_sum
    (map (fun k =>
            Byte.to_nat (nth (4 * k) pixelData Byte.x00)
            + Byte.to_nat (nth (4 * k + 1) pixelData Byte.x00))
       (seq 0 (length pixelData / 4))).

(** A whole number between [lo] and [hi]. *)
Definition isWholeBetween (lo hi : Z) (n : number) : Prop :=
  exists z : Z, (lo <= z <= hi)%Z /\ n = num_of_Z z.

(** The states of a monitoring session of the simpler monitor. *)
Inductive MainJs_reachable : MainJsMonitor.State -> Prop :=
| MainJs_reachable_start : MainJs_reachable MainJsMonitor.initialState
| MainJs_reachable_tick (s : MainJsMonitor.State) (sample : Sample) :
    MainJs_reachable s ->
    MainJs_reachable (fst (MainJsMonitor.processFrame s sample)).

(** What holds of every state of the simpler monitor: at most 300 samples,
    at most 10 raw BPMs, all within [30, 240], and a stable candidate and a
    locked BPM within [29, 241]. *)
Record MainJs_wf (s : MainJsMonitor.State) : Prop := {
  MainJs_wf_samples :
    length (MainJsMonitor.SAMPLE_BUFFER s) <= MAX_SAMPLES;
  MainJs_wf_raw :
    Forall (fun r => inRange 30 240 r = true) (MainJsMonitor.rawBpmBuffer s);
  MainJs_wf_raw_length :
    length (MainJsMonitor.rawBpmBuffer s) <= MainJsMonitor.RAW_BPM_BUFFER_SIZE;
  MainJs_wf_candidate :
    optionAll (fun c => inRange 29 241 c = true)
      (MainJsMonitor.stableBpmCandidate s);
  MainJs_wf_locked :
    optionAll (fun c => inRange 29 241 c = true)
      (MainJsMonitor.lastDisplayedBpm s)
}.

(** What the simpler monitor may display: a whole number of BPM, or one of
    five status strings. *)
Definition MainJs_displayAllowed (shown : DisplayValue) : Prop :=
  match shown with
  | DNumber n => isWholeBetween 29 241 n
  | DTentative _ => False
  | DStatus str =>
      In str
        [ "Analyzing..."; "Low Signal"; "Detecting..."; "Hold Still";
          "Calculating..." ]%string
  end.

(** How far the simpler monitor can have got after [t] ticks: a raw BPM
    needs 100 samples, a median 5 raw BPMs, and a lock a counter of 5. *)
Record MainJs_within (t : nat) (s : MainJsMonitor.State) : Prop := {
  MainJs_within_samples : length (MainJsMonitor.SAMPLE_BUFFER s) <= t;
  MainJs_within_raw : length (MainJsMonitor.rawBpmBuffer s) <= t - 99;
  MainJs_within_counter : MainJsMonitor.stabilityCounter s <= t - 103;
  MainJs_within_lock : t < 108 -> MainJsMonitor.lastDisplayedBpm s = None
}.

(** The samples of a square wave of period 18 ticks, one tick every 16 ms:
    about 208 beats per minute. *)
Definition quickSample (i : nat) : Sample :=
  mkSample (if Nat.ltb (Nat.modulo i 18) 9 then 0.502 else 0.5)%float
    (num_of_nat (1000 + 16 * i)).

(** A device the monitor can film with. *)
Definition isCamera (device : Camera.MediaDeviceInfo) : bool :=
  String.eqb (Camera.kind device) "videoinput".

(** A camera whose label, in lower case, contains "back". *)
Definition mentionsBack (camera : Camera.MediaDeviceInfo) : bool :=
  Camera.includes (Camera.toLowerCase (Camera.label camera)) "back".

(** The constraints that [startCameraStream] tries, in order: the exact
    device when a camera with a device id is given, then the facing mode
    with the ideal size, then any video. *)
Definition attempts (camera : option Camera.MediaDeviceInfo)
    : list Camera.Constraints :=
  match camera with
  | Some c =>
      if String.eqb (Camera.deviceId c) EmptyString then []
      else [Camera.ExactDevice (Camera.deviceId c)]
  | None => []
  end ++ [Camera.FacingModeIdeal; Camera.AnyVideo].

(** The first stream among the answers to a list of constraints, with the
    error of the last attempt when all fail. *)
Fixpoint firstStream {MediaStream : Type}
    (tryGetUserMedia : Camera.Constraints -> MediaStream + Camera.MediaError)
    (constraints : list Camera.Constraints) (lastError : option Camera.MediaError)
    : MediaStream + option Camera.MediaError :=
  match constraints with
  | [] => inr lastError
  | k :: rest =>
      match tryGetUserMedia k with
      | inl stream => inl stream
      | inr error => firstStream tryGetUserMedia rest (Some error)
      end
  end.

(** The ordinate of a path command. *)
Definition ordinate (c : PathCommand) : number :=
  match c with
  | MoveTo _ y => y
  | LineTo _ y => y
  end.

Definition isLineTo (c : PathCommand) : bool :=
  match c with
  | MoveTo _ _ => false
  | LineTo _ _ => true
  end.

(** What happens to the module: the user toggles the monitoring, or an
    animation frame runs [monitorLoop]. *)
Inductive Event :=
| Toggle (outcome : StartOutcome)
| AnimationFrame (f : Frame).

Definition step (m : Monitor) (ev : Event) : Monitor :=
  match ev with
  | Toggle outcome => fst (toggleMonitoring outcome m)
  | AnimationFrame f => fst (monitorLoop m f)
  end.

Definition runEvents (events : list Event) : Monitor :=
  fold_left step events loaded.

(** The frames of the current session: those that arrived since the last
    start, when that start succeeded and no stop followed. *)
Definition sessionStep (session : option (list Frame)) (ev : Event)
    : option (list Frame) :=
  match session with
  | Some frames =>
      match ev with
      | Toggle _ => None
      | AnimationFrame f => Some (frames ++ [f])
      end
  | None =>
      match ev with
      | Toggle Started => Some []
      | _ => None
      end
  end.

Definition session (events : list Event) : option (list Frame) :=
  fold_left sessionStep events None.

(** The measurement state is cleared. *)
Definition cleared (s : State) : Prop :=
  recentValidRawBpms s = []
  /\ stableBpmCandidateBuffer s = []
  /\ currentStableBpmCandidate s = None
  /\ currentStabilityCounter s = 0
  /\ lockedBpm s = None.

(** * Properties *)

(** ** The sample buffer *)

Section BoundedBuffer.
Context {A : Type}.
Variable capacity : nat.

Lemma skipn_S_tl (n : nat) (l : list A) : skipn (S n) l = skipn n (tl l).
Proof. destruct l; [ now rewrite !skipn_nil | reflexivity ]. Qed.

Lemma pushBounded_skipn (buffer : list A) (x : A) :
  length buffer <= capacity ->
  pushBounded capacity buffer x
  = skipn (length buffer + 1 - capacity) (buffer ++ [x]).
Proof.
  intros Hle. unfold pushBounded. rewrite length_app. cbn [length].
  destruct (Nat.ltb_spec capacity (length buffer + 1)) as [Hfull | Hroom].
  - replace (length buffer + 1 - capacity) with 1 by lia. reflexivity.
  - replace (length buffer + 1 - capacity) with 0 by lia. reflexivity.
Qed.

Lemma pushBounded_length (buffer : list A) (x : A) :
  length buffer <= capacity ->
  length (pushBounded capacity buffer x) <= capacity.
Proof.
  intros Hle. rewrite pushBounded_skipn by assumption.
  rewrite length_skipn, length_app. cbn [length]. lia.
Qed.

Lemma pushBounded_full (buffer : list A) (x : A) :
  length buffer = capacity ->
  pushBounded capacity buffer x = tl (buffer ++ [x]).
Proof.
  intros Hfull. unfold pushBounded. rewrite length_app. cbn [length].
  destruct (Nat.ltb_spec capacity (length buffer + 1)); [ reflexivity | lia ].
Qed.

Lemma pushBounded_room (buffer : list A) (x : A) :
  length buffer < capacity ->
  pushBounded capacity buffer x = buffer ++ [x].
Proof.
  intros Hroom. unfold pushBounded. rewrite length_app. cbn [length].
  destruct (Nat.ltb_spec capacity (length buffer + 1)); [ lia | reflexivity ].
Qed.

(** Pushing a whole sequence keeps the most recent [capacity] elements. *)
Lemma fold_pushBounded (pushes buffer : list A) :
  length buffer <= capacity ->
  fold_left (pushBounded capacity) pushes buffer
  = skipn (length buffer + length pushes - capacity) (buffer ++ pushes).
Proof.
  revert buffer. induction pushes as [| x pushes IH]; intros buffer Hle.
  - cbn [fold_left length]. rewrite app_nil_r.
    replace (length buffer + 0 - capacity) with 0 by lia. reflexivity.
  - cbn [fold_left length].
    rewrite IH by now apply pushBounded_length.
    destruct (Nat.eq_dec (length buffer) capacity) as [Hfull | Hroom].
    + rewrite pushBounded_full by assumption.
      assert (Hlen : length (tl (buffer ++ [x])) = capacity).
      { destruct buffer; cbn [app tl length] in *;
          [ now subst | rewrite length_app; cbn [length]; lia ]. }
      rewrite Hlen.
      replace (tl (buffer ++ [x]) ++ pushes) with (tl (buffer ++ x :: pushes)).
      * rewrite <- skipn_S_tl. f_equal. lia.
      * destruct buffer; cbn [app tl]; [ | rewrite <- app_assoc ]; reflexivity.
    + rewrite pushBounded_room by lia.
      rewrite length_app, <- app_assoc. cbn [length app]. f_equal. lia.
Qed.
End BoundedBuffer.

Lemma updateCandidates_SAMPLE_BUFFER rawBpm now rng s :
  SAMPLE_BUFFER (updateCandidates rawBpm now rng s) = SAMPLE_BUFFER s.
Proof.
  unfold updateCandidates.
  repeat match goal with
         | |- context [match ?c with _ => _ end] => destruct c
         end; reflexivity.
Qed.

Lemma updateStableCandidate_SAMPLE_BUFFER m s :
  SAMPLE_BUFFER (updateStableCandidate m s) = SAMPLE_BUFFER s.
Proof.
  unfold updateStableCandidate.
  repeat match goal with
         | |- context [match ?c with _ => _ end] => destruct c
         end; reflexivity.
Qed.

Lemma lockBpm_SAMPLE_BUFFER s :
  SAMPLE_BUFFER (fst (lockBpm s)) = SAMPLE_BUFFER s.
Proof.
  unfold lockBpm.
  repeat match goal with
         | |- context [match ?c with _ => _ end] => destruct c
         end; cbn [fst set_lockedBpm SAMPLE_BUFFER];
    try reflexivity; apply updateStableCandidate_SAMPLE_BUFFER.
Qed.

Lemma badSignal_SAMPLE_BUFFER signal s :
  SAMPLE_BUFFER (fst (badSignal signal s)) = SAMPLE_BUFFER s.
Proof.
  unfold badSignal.
  repeat match goal with
         | |- context [match ?c with _ => _ end] => destruct c
         end; reflexivity.
Qed.

(** A tick pushes its sample when the video can be sampled, and leaves the
    buffer alone otherwise. *)
Lemma processFrame_SAMPLE_BUFFER s f :
  SAMPLE_BUFFER (fst (processFrame s f))
  = if videoReady f
    then pushBounded MAX_SAMPLES (SAMPLE_BUFFER s) (sampleOf f)
    else SAMPLE_BUFFER s.
Proof.
  unfold processFrame. destruct (videoReady f); cbn [negb]; [ | reflexivity ].
  match goal with
  | |- context [if negb (good ?sg) then _ else _] => destruct (good sg)
  end; cbn [negb].
  - rewrite lockBpm_SAMPLE_BUFFER, updateCandidates_SAMPLE_BUFFER. reflexivity.
  - rewrite badSignal_SAMPLE_BUFFER. reflexivity.
Qed.

Lemma run_SAMPLE_BUFFER frames : forall s,
  SAMPLE_BUFFER (run s frames)
  = fold_left (pushBounded MAX_SAMPLES)
      (map sampleOf (filter videoReady frames)) (SAMPLE_BUFFER s).
Proof.
  induction frames as [| f frames IH]; intros s; [ reflexivity | ].
  change (run s (f :: frames)) with (run (fst (processFrame s f)) frames).
  rewrite IH, processFrame_SAMPLE_BUFFER. cbn [filter].
  destruct (videoReady f); reflexivity.
Qed.

(** C8. Whatever the frames fed since the start of monitoring, the sample
    buffer never holds more than [MAX_SAMPLES] = 300 samples and is exactly
    the most recent 300 pushed samples, in insertion order (all of them while
    fewer were pushed); a push onto a full buffer removes the oldest sample
    and nothing else; and after 301 pushes the buffer has length 300 and
    starts with the second pushed sample. *)
Theorem sample_buffer_keeps_most_recent :
  forall frames : list Frame,
    let pushed := map sampleOf (filter videoReady frames) in
    let buffer := SAMPLE_BUFFER (run initialState frames) in
    MAX_SAMPLES = 300
    /\ length buffer <= MAX_SAMPLES
    /\ buffer = skipn (length pushed - MAX_SAMPLES) pushed
    /\ (forall f : Frame,
          videoReady f = true ->
          length buffer = MAX_SAMPLES ->
          SAMPLE_BUFFER (fst (processFrame (run initialState frames) f))
          = tl buffer ++ [sampleOf f])
    /\ (length pushed = 301 ->
        length buffer = 300 /\ hd_error buffer = nth_error pushed 1).
Proof.
  intros frames pushed buffer.
  assert (Hbuf : buffer = skipn (length pushed - MAX_SAMPLES) pushed).
  { unfold buffer. rewrite run_SAMPLE_BUFFER. fold pushed.
    rewrite fold_pushBounded by (cbn; lia). reflexivity. }
  assert (Hlen : length buffer <= MAX_SAMPLES).
  { rewrite Hbuf, length_skipn. lia. }
  split; [ reflexivity | ].
  split; [ exact Hlen | ].
  split; [ exact Hbuf | ].
  split.
  - intros f Hready Hfull.
    rewrite processFrame_SAMPLE_BUFFER, Hready.
    fold buffer. rewrite pushBounded_full by assumption.
    destruct buffer; [ discriminate Hfull | reflexivity ].
  - intros H301. rewrite Hbuf, H301.
    change (301 - MAX_SAMPLES) with 1.
    split.
    + rewrite length_skipn. lia.
    + destruct pushed as [| p0 [| p1 rest]]; try discriminate H301.
      reflexivity.
Qed.

(** ** The crossing detector *)

Lemma filter_map_swap {A B : Type} (p : B -> bool) (g : A -> B) (l : list A) :
  filter p (map g l) = map g (filter (fun x => p (g x)) l).
Proof.
  induction l as [| a l IH]; [ reflexivity | ].
  cbn [map filter]. destruct (p (g a)); cbn [map]; now rewrite IH.
Qed.

Lemma crossingsFrom_indices average rest : forall previousSample,
  crossingsFrom average previousSample rest
  = map (sampleAt (previousSample :: rest))
      (filter (isUpwardCrossing average (previousSample :: rest))
         (seq 1 (length rest))).
Proof.
  induction rest as [| cur rest IH]; intros prev; [ reflexivity | ].
  cbn [crossingsFrom length]. rewrite IH.
  change (seq 1 (S (length rest))) with (1 :: seq 2 (length rest)).
  rewrite <- (seq_shift (length rest) 1). cbn [filter].
  rewrite filter_map_swap.
  assert (Htail :
    map (sampleAt (prev :: cur :: rest))
      (map S
         (filter (fun i => isUpwardCrossing average (prev :: cur :: rest) (S i))
            (seq 1 (length rest))))
    = map (sampleAt (cur :: rest))
        (filter (isUpwardCrossing average (cur :: rest)) (seq 1 (length rest)))).
  { rewrite map_map. f_equal. apply filter_ext_in. intros i Hi.
    apply in_seq in Hi. unfold isUpwardCrossing, sampleAt.
    replace (S i - 1) with (S (i - 1)) by lia. reflexivity. }
  change (isUpwardCrossing average (prev :: cur :: rest) 1)
    with ((average <? value cur)%float && (value prev <=? average)%float).
  destruct ((average <? value cur)%float && (value prev <=? average)%float);
    cbn [map]; rewrite Htail; reflexivity.
Qed.

(** C5. Scanning the samples in order from the second one, the crossing
    detector records exactly the samples [samples[i]], [1 <= i], whose value
    is strictly greater than the average while the value of [samples[i - 1]]
    is less than or equal to it, in buffer order; a buffer of fewer than two
    samples has no crossing. *)
Theorem getAverageCrossings_upward :
  forall (samples : list Sample) (average : number),
    getAverageCrossings samples average
    = map (sampleAt samples)
        (filter (isUpwardCrossing average samples)
           (seq 1 (length samples - 1))).
Proof.
  intros samples average. unfold getAverageCrossings.
  destruct samples as [| prev rest]; [ reflexivity | ].
  destruct rest as [| cur rest]; [ reflexivity | ].
  change (Nat.ltb (length (prev :: cur :: rest)) 2) with false.
  cbv iota. rewrite crossingsFrom_indices. reflexivity.
Qed.

Lemma MainJs_crossingsFrom_indices average rest : forall previousSample,
  MainJs.crossingsFrom average previousSample rest
  = map (sampleAt (previousSample :: rest))
      (filter (isDownwardCrossing average (previousSample :: rest))
         (seq 1 (length rest))).
Proof.
  induction rest as [| cur rest IH]; intros prev; [ reflexivity | ].
  cbn [MainJs.crossingsFrom length]. rewrite IH.
  change (seq 1 (S (length rest))) with (1 :: seq 2 (length rest)).
  rewrite <- (seq_shift (length rest) 1). cbn [filter].
  rewrite filter_map_swap.
  assert (Htail :
    map (sampleAt (prev :: cur :: rest))
      (map S
         (filter (fun i => isDownwardCrossing average (prev :: cur :: rest) (S i))
            (seq 1 (length rest))))
    = map (sampleAt (cur :: rest))
        (filter (isDownwardCrossing average (cur :: rest)) (seq 1 (length rest)))).
  { rewrite map_map. f_equal. apply filter_ext_in. intros i Hi.
    apply in_seq in Hi. unfold isDownwardCrossing, sampleAt.
    replace (S i - 1) with (S (i - 1)) by lia. reflexivity. }
  change (isDownwardCrossing average (prev :: cur :: rest) 1)
    with ((value cur <? average)%float && (average <=? value prev)%float).
  destruct ((value cur <? average)%float && (average <=? value prev)%float);
    cbn [map]; rewrite Htail; reflexivity.
Qed.

(** The detector of [src/main.js] records exactly the downward crossings,
    so the two detectors disagree: on a step up from 0.4 to 0.6 around the
    average 0.5 the canonical detector records the second sample and this
    one nothing, and the other way round on a step down. *)
Theorem MainJs_getAverageCrossings_downward :
  (forall (samples : list Sample) (average : number),
      MainJs.getAverageCrossings samples average
      = map (sampleAt samples)
          (filter (isDownwardCrossing average samples)
             (seq 1 (length samples - 1))))
  /\ getAverageCrossings [mkSample 0.4 0; mkSample 0.6 16] 0.5
     = [mkSample 0.6 16]
  /\ MainJs.getAverageCrossings [mkSample 0.4 0; mkSample 0.6 16] 0.5 = []
  /\ getAverageCrossings [mkSample 0.6 0; mkSample 0.4 16] 0.5 = []
  /\ MainJs.getAverageCrossings [mkSample 0.6 0; mkSample 0.4 16] 0.5
     = [mkSample 0.4 16].
Proof.
  split; [ | repeat split; reflexivity ].
  intros samples average. unfold MainJs.getAverageCrossings.
  destruct samples as [| prev rest]; [ reflexivity | ].
  destruct rest as [| cur rest]; [ reflexivity | ].
  change (Nat.ltb (length (prev :: cur :: rest)) 2) with false.
  cbv iota. rewrite MainJs_crossingsFrom_indices. reflexivity.
Qed.

(** ** The signal-quality gate *)

(** NaN divided by anything is NaN. *)
Lemma div_nan_l (y : number) : (nan / y)%float = nan.
Proof.
  apply Prim2SF_inj. rewrite FloatAxioms.div_spec.
  change (Prim2SF nan) with S754_nan. reflexivity.
Qed.

(** [0 / y] is [0], [-0] or NaN. *)
Lemma div_zero_l_cases (y : number) :
  (0 / y)%float = 0%float \/ (0 / y)%float = (-0)%float \/ (0 / y)%float = nan.
Proof.
  assert (H : Prim2SF (0 / y)%float = S754_zero false
              \/ Prim2SF (0 / y)%float = S754_zero true
              \/ Prim2SF (0 / y)%float = S754_nan).
  { rewrite FloatAxioms.div_spec. change (Prim2SF 0%float) with (S754_zero false).
    destruct (Prim2SF y) as [[|] | [|] | | [|] m e]; cbn; auto. }
  destruct H as [H | [H | H]]; [ left | right; left | right; right ];
    apply Prim2SF_inj; rewrite H; reflexivity.
Qed.

(** Once the accumulator of [calculateStdDev] is NaN it stays NaN. *)
Lemma stdDev_accumulator_nan (mean : number) (arr : list number) :
  fold_left (fun acc val => (acc + Math_pow_1 (val - mean))%float) arr nan = nan.
Proof. induction arr as [| val arr IH]; [ reflexivity | exact IH ]. Qed.

Lemma calculateStdDev_cons (val : number) (rest : list number) (mean : number) :
  calculateStdDev (val :: rest) mean = nan.
Proof.
  unfold calculateStdDev. cbn [fold_left].
  change (0 + Math_pow_1 (val - mean))%float with nan.
  rewrite stdDev_accumulator_nan, div_nan_l. reflexivity.
Qed.

Lemma noiseRatioExceeded_false samples dataStats :
  noiseRatioExceeded samples dataStats = false.
Proof.
  unfold noiseRatioExceeded. apply andb_false_intro2.
  destruct samples as [| s samples].
  - cbn [map calculateStdDev].
    destruct (div_zero_l_cases (range dataStats)) as [H | [H | H]];
      rewrite H; reflexivity.
  - cbn [map]. rewrite calculateStdDev_cons, div_nan_l. reflexivity.
Qed.

(** The gate, rule by rule. *)
Lemma analyzeSignalQuality_rules samples dataStats :
  analyzeSignalQuality samples dataStats
  = if Nat.ltb (length samples) MIN_SAMPLES_FOR_ANALYSIS then
      mkSignal false "Analyzing..."
    else if (range dataStats <? MIN_SIGNAL_RANGE)%float then
      mkSignal false "Low Signal (Place finger firmly)"
    else if noiseRatioExceeded samples dataStats then
      mkSignal false "Noisy Signal (Hold still)"
    else if Nat.ltb (length (crossings dataStats)) MIN_CROSSINGS_FOR_RAW_BPM then
      mkSignal false "Detecting Pulse..."
    else mkSignal true "Good Signal".
Proof. reflexivity. Qed.

(** C10. [calculateStdDev] returns NaN on every non-empty list: each term
    [Math.pow(val - mean)] it accumulates is NaN. Consequently the
    noise-ratio comparison of the gate is false for every buffer and every
    statistics record, and the gate never answers
    "Noisy Signal (Hold still)". *)
Theorem calculateStdDev_NaN_gate_never_noisy :
  (forall base : number, Math_pow_1 base = nan)
  /\ (forall (arr : list number) (mean : number),
        arr <> [] ->
        calculateStdDev arr mean = nan
        /\ isNaN (calculateStdDev arr mean) = true)
  /\ (forall (samples : list Sample) (dataStats : DataStats),
        noiseRatioExceeded samples dataStats = false
        /\ status (analyzeSignalQuality samples dataStats)
           <> "Noisy Signal (Hold still)"%string).
Proof.
  split; [ reflexivity | ].
  split.
  - intros [| val rest] mean Hne; [ contradiction | ].
    rewrite calculateStdDev_cons. split; reflexivity.
  - intros samples dataStats.
    split; [ apply noiseRatioExceeded_false | ].
    rewrite analyzeSignalQuality_rules, noiseRatioExceeded_false.
    repeat match goal with
           | |- context [if ?c then _ else _] => destruct c
           end; cbn [status]; discriminate.
Qed.

(** C6. The gate is a total function that answers exactly one of its five
    verdicts, good only for "Good Signal", and its rules are tried in order,
    the first that matches deciding: too few samples; then a range below
    [MIN_SIGNAL_RANGE]; then the noise-ratio test; then too few crossings. In
    particular, with enough samples, a range below its threshold gives
    "Low Signal (Place finger firmly)" whatever the crossings, so also when
    there are fewer than [MIN_CROSSINGS_FOR_RAW_BPM] of them, and never
    "Detecting Pulse...". *)
Theorem analyzeSignalQuality_first_match_wins :
  forall (samples : list Sample) (dataStats : DataStats),
    let verdict := analyzeSignalQuality samples dataStats in
    let enough := MIN_SAMPLES_FOR_ANALYSIS <= length samples in
    let lowRange := (range dataStats <? MIN_SIGNAL_RANGE)%float in
    let fewCrossings :=
      length (crossings dataStats) < MIN_CROSSINGS_FOR_RAW_BPM in
    In verdict
      [ mkSignal false "Analyzing...";
        mkSignal false "Low Signal (Place finger firmly)";
        mkSignal false "Noisy Signal (Hold still)";
        mkSignal false "Detecting Pulse...";
        mkSignal true "Good Signal" ]
    /\ (length samples < MIN_SAMPLES_FOR_ANALYSIS ->
        verdict = mkSignal false "Analyzing...")
    /\ (enough -> lowRange = true ->
        verdict = mkSignal false "Low Signal (Place finger firmly)")
    /\ (enough -> lowRange = false ->
        noiseRatioExceeded samples dataStats = true ->
        verdict = mkSignal false "Noisy Signal (Hold still)")
    /\ (enough -> lowRange = false ->
        noiseRatioExceeded samples dataStats = false -> fewCrossings ->
        verdict = mkSignal false "Detecting Pulse...")
    /\ (enough -> lowRange = false ->
        noiseRatioExceeded samples dataStats = false -> ~ fewCrossings ->
        verdict = mkSignal true "Good Signal")
    /\ (enough -> lowRange = true -> fewCrossings ->
        status verdict = "Low Signal (Place finger firmly)"%string
        /\ status verdict <> "Detecting Pulse..."%string).
Proof.
  intros samples dataStats verdict enough lowRange fewCrossings.
  subst verdict enough lowRange fewCrossings.
  rewrite analyzeSignalQuality_rules.
  destruct (Nat.ltb_spec (length samples) MIN_SAMPLES_FOR_ANALYSIS) as [Hs | Hs];
    [ | destruct (range dataStats <? MIN_SIGNAL_RANGE)%float;
        [ | destruct (noiseRatioExceeded samples dataStats);
            [ | destruct (Nat.ltb_spec (length (crossings dataStats))
                            MIN_CROSSINGS_FOR_RAW_BPM) as [Hc | Hc] ] ] ];
    (split; [ cbn [In]; tauto | ]);
    repeat split; intros; cbn [status];
    solve [ reflexivity | discriminate | lia | contradiction ].
Qed.

(** ** Ticks with a bad signal *)

Lemma processFrame_bad s f :
  videoReady f = true ->
  good (tickSignal s f) = false ->
  processFrame s f
  = badSignal (tickSignal s f)
      (set_SAMPLE_BUFFER
         (pushBounded MAX_SAMPLES (SAMPLE_BUFFER s) (sampleOf f)) s).
Proof.
  intros Hready Hbad. unfold processFrame. rewrite Hready. cbn [negb].
  unfold tickSignal in Hbad. cbn zeta in Hbad.
  cbn [SAMPLE_BUFFER set_SAMPLE_BUFFER]. unfold sampleOf in Hbad.
  rewrite Hbad. reflexivity.
Qed.

Lemma processFrame_good s f :
  videoReady f = true ->
  good (tickSignal s f) = true ->
  processFrame s f
  = let buffer := pushBounded MAX_SAMPLES (SAMPLE_BUFFER s) (sampleOf f) in
    let dataStats := analyzeData buffer in
    lockBpm
      (updateCandidates (calculateBpm (crossings dataStats)) (currentTime f)
         (range dataStats)
         (set_lastSignalQualityStatus (status (tickSignal s f))
            (set_SAMPLE_BUFFER buffer s))).
Proof.
  intros Hready Hgood. unfold processFrame. rewrite Hready. cbn [negb].
  unfold tickSignal in Hgood. cbn zeta in Hgood.
  cbn [SAMPLE_BUFFER set_SAMPLE_BUFFER]. unfold sampleOf in Hgood.
  rewrite Hgood. reflexivity.
Qed.

(** C7. On a tick whose verdict is not good, nothing is estimated: the only
    value that can be displayed is the verdict's status string, and the
    measurement state is either left as it was, when a BPM is locked (the
    raw-BPM window, the candidate buffer, the stable candidate, its counter
    and the lock are all unchanged), or partially reset, when none is locked
    (window and candidate buffer emptied, no stable candidate, counter 0, and
    the lock stays null). *)
Theorem bad_signal_keeps_lock_or_resets :
  forall (s : State) (f : Frame),
    videoReady f = true ->
    good (tickSignal s f) = false ->
    let s' := fst (processFrame s f) in
    let shown := snd (processFrame s f) in
    (shown = None \/ shown = Some (DStatus (status (tickSignal s f))))
    /\ (lockedBpm s <> None ->
        recentValidRawBpms s' = recentValidRawBpms s
        /\ stableBpmCandidateBuffer s' = stableBpmCandidateBuffer s
        /\ currentStableBpmCandidate s' = currentStableBpmCandidate s
        /\ currentStabilityCounter s' = currentStabilityCounter s
        /\ lockedBpm s' = lockedBpm s)
    /\ (lockedBpm s = None ->
        recentValidRawBpms s' = []
        /\ stableBpmCandidateBuffer s' = []
        /\ currentStableBpmCandidate s' = None
        /\ currentStabilityCounter s' = 0
        /\ lockedBpm s' = None).
Proof.
  intros s f Hready Hbad s' shown. subst s' shown.
  rewrite (processFrame_bad s f Hready Hbad). unfold badSignal.
  destruct (negb (status (tickSignal s f)
                  =? lastSignalQualityStatus
                       (set_SAMPLE_BUFFER
                          (pushBounded MAX_SAMPLES (SAMPLE_BUFFER s) (sampleOf f))
                          s))%string);
    cbn [lockedBpm set_lastSignalQualityStatus set_SAMPLE_BUFFER];
    destruct (lockedBpm s) as [l |] eqn:Hlock; cbn;
    (split; [ auto | ]); rewrite ?Hlock;
    (split; [ intros Hl | intros Hl ]);
    try discriminate; try contradiction; repeat split; reflexivity.
Qed.

(** The tick on the first frame after the start is a bad-signal tick (the
    buffer holds one sample). *)
Lemma bad_signal_keeps_lock_or_resets_witness :
  videoReady (mkFrame true 0.5 1000) = true
  /\ good (tickSignal initialState (mkFrame true 0.5 1000)) = false
  /\ lockedBpm (fst (processFrame initialState (mkFrame true 0.5 1000))) = None.
Proof.
  split; [ reflexivity | ]. split; [ reflexivity | ].
  apply (bad_signal_keeps_lock_or_resets initialState (mkFrame true 0.5 1000));
    reflexivity.
Defined.

(** ** The raw BPM estimator *)

Lemma timeDifferences_consecutive (events : list Sample) :
  timeDifferences events
  = map (fun i => (time (sampleAt events (S i)) - time (sampleAt events i))%float)
      (seq 0 (length events - 1)).
Proof.
  induction events as [| a [| b rest] IH]; [ reflexivity | reflexivity | ].
  change (timeDifferences (a :: b :: rest))
    with ((time b - time a)%float :: timeDifferences (b :: rest)).
  rewrite IH.
  change (length (a :: b :: rest) - 1) with (S (length rest)).
  change (length (b :: rest) - 1) with (length rest - 0).
  rewrite Nat.sub_0_r. cbn [seq map]. f_equal.
  rewrite <- seq_shift, map_map. reflexivity.
Qed.

Lemma timeDifferences_length (events : list Sample) :
  length (timeDifferences events) = length events - 1.
Proof. rewrite timeDifferences_consecutive, length_map, length_seq. reflexivity. Qed.

Lemma calculateBpm_cases (crossingSamples : list Sample) :
  calculateBpm crossingSamples
  = if Nat.ltb (length crossingSamples) 2 then None
    else
      match plausibleIntervals crossingSamples with
      | [] => None
      | _ :: _ =>
          match calculateMedian (plausibleIntervals crossingSamples) with
          | None => None
          | Some medianInterval =>
              if ((medianInterval <=? 0) || isNaN medianInterval)%float then None
              else Some (60000 / medianInterval)%float
          end
      end.
Proof.
  unfold calculateBpm.
  destruct (Nat.ltb_spec (length crossingSamples) 2) as [Hlt | Hge];
    [ reflexivity | ].
  destruct (Nat.eqb_spec (length (timeDifferences crossingSamples)) 0) as [H0 | _].
  - rewrite timeDifferences_length in H0. lia.
  - fold (plausibleIntervals crossingSamples).
    destruct (plausibleIntervals crossingSamples); reflexivity.
Qed.

Section ConstantList.
Variable x : number.
Hypothesis x_number : isNaN x = false.
Hypothesis x_ties : (0 <? x - x)%float = false.
Hypothesis x_mean : ((x + x) / 2)%float = x.

Lemma filter_repeat {A : Type} (p : A -> bool) (a : A) (n : nat) :
  p a = true -> filter p (repeat a n) = repeat a n.
Proof.
  intros Hp. induction n as [| n IH]; [ reflexivity | ].
  cbn [repeat filter]. now rewrite Hp, IH.
Qed.

Lemma nth_repeat_lt {A : Type} (a d : A) (n i : nat) :
  i < n -> nth i (repeat a n) d = a.
Proof.
  revert i. induction n as [| n IH]; intros i Hi; [ lia | ].
  destruct i as [| i]; [ reflexivity | ]. cbn [repeat nth]. apply IH. lia.
Qed.

Lemma sort_numbers_repeat (n : nat) : sort_numbers (repeat x n) = repeat x n.
Proof.
  induction n as [| n IH]; [ reflexivity | ].
  unfold sort_numbers in *. cbn [repeat fold_right]. rewrite IH.
  destruct n as [| n]; [ reflexivity | ].
  cbn [repeat insert_sorted]. now rewrite x_ties.
Qed.

(** The median of a non-empty constant list is the constant. *)
Lemma calculateMedian_repeat (n : nat) :
  calculateMedian (repeat x (S n)) = Some x.
Proof.
  unfold calculateMedian.
  change (match repeat x (S n) with [] => ?a | _ :: _ => ?b end) with b.
  rewrite filter_repeat by (now rewrite x_number).
  rewrite sort_numbers_repeat, repeat_length.
  change (Nat.eqb (S n) 0) with false. cbv iota.
  pose proof (Nat.div_mod_eq (S n) 2) as Hdm.
  pose proof (Nat.mod_upper_bound (S n) 2 ltac:(lia)) as Hmod.
  destruct (Nat.eqb_spec (S n mod 2) 0) as [Heven | Hodd].
  - destruct (Nat.eqb_spec (S n / 2) 0) as [H0 | Hpos]; [ lia | ].
    destruct (Nat.ltb_spec (S n) 2) as [H2 | _]; [ lia | ].
    cbn [orb]. rewrite !nth_repeat_lt by lia. now rewrite x_mean.
  - rewrite nth_repeat_lt by lia. reflexivity.
Qed.
End ConstantList.

Lemma Forall_eq_repeat {A : Type} (a : A) (l : list A) :
  Forall (fun b => b = a) l -> l = repeat a (length l).
Proof.
  induction 1 as [| b l Hb _ IH]; [ reflexivity | ].
  cbn [length repeat]. now rewrite Hb, <- IH.
Qed.

(** C4. The estimator answers [null] for fewer than two events; otherwise
    it takes the differences of consecutive event times, keeps those
    strictly between 270 and 2000, answers [null] when none is left or when
    their median is non-positive or not a number, and otherwise answers
    60000 divided by that median. Events spaced exactly 833 ms apart give an
    estimate within 0.5 of 72. An estimate outside [30, 220] is still
    returned by the estimator (271 ms apart gives more than 220); it is the
    caller's consistency filter that drops it, leaving the state as it is. *)
Theorem calculateBpm_median_interval :
  (forall events : list Sample,
      length events < 2 -> calculateBpm events = None)
  /\ (forall events : list Sample,
        timeDifferences events
        = map (fun i =>
                 (time (sampleAt events (S i)) - time (sampleAt events i))%float)
            (seq 0 (length events - 1)))
  /\ (forall (events : list Sample) (dt : number),
        In dt (plausibleIntervals events)
        <-> In dt (timeDifferences events)
            /\ (270 <? dt)%float = true /\ (dt <? 2000)%float = true)
  /\ (forall events : list Sample,
        plausibleIntervals events = [] -> calculateBpm events = None)
  /\ (forall events : list Sample,
        2 <= length events ->
        plausibleIntervals events <> [] ->
        calculateBpm events
        = match calculateMedian (plausibleIntervals events) with
          | None => None
          | Some medianInterval =>
              if ((medianInterval <=? 0) || isNaN medianInterval)%float
              then None
              else Some (60000 / medianInterval)%float
          end)
  /\ (forall events : list Sample,
        2 <= length events ->
        Forall (fun dt => dt = 833%float) (timeDifferences events) ->
        calculateBpm events = Some (60000 / 833)%float
        /\ (PrimFloat.abs (60000 / 833 - 72) <? 0.5)%float = true)
  /\ (exists bpm : number,
        calculateBpm fastEvents = Some bpm /\ (220 <? bpm)%float = true)
  /\ (forall (rawBpm : option number) (now rng : number) (s : State),
        rawBpmAccepted rawBpm = false ->
        updateCandidates rawBpm now rng s = s).
Proof.
  split.
  { intros events Hlt. rewrite calculateBpm_cases.
    destruct (Nat.ltb_spec (length events) 2); [ reflexivity | lia ]. }
  split; [ exact timeDifferences_consecutive | ].
  split.
  { intros events dt. unfold plausibleIntervals. rewrite filter_In.
    rewrite andb_true_iff. tauto. }
  split.
  { intros events Hnone. rewrite calculateBpm_cases, Hnone.
    destruct (Nat.ltb (length events) 2); reflexivity. }
  split.
  { intros events Hlen Hsome. rewrite calculateBpm_cases.
    destruct (Nat.ltb_spec (length events) 2); [ lia | ].
    destruct (plausibleIntervals events); [ contradiction | reflexivity ]. }
  split.
  { intros events Hlen Hall. split; [ | reflexivity ].
    apply Forall_eq_repeat in Hall.
    rewrite timeDifferences_length in Hall.
    assert (Hkept : plausibleIntervals events = repeat 833%float (S (length events - 2))).
    { unfold plausibleIntervals. rewrite Hall.
      rewrite filter_repeat by reflexivity. f_equal. lia. }
    rewrite calculateBpm_cases, Hkept.
    destruct (Nat.ltb_spec (length events) 2); [ lia | ].
    rewrite calculateMedian_repeat by reflexivity. reflexivity. }
  split.
  { eexists. split; [ vm_compute; reflexivity | reflexivity ]. }
  intros [r |] now rng s Hrej; [ | reflexivity ].
  unfold updateCandidates. cbn [rawBpmAccepted] in Hrej. now rewrite Hrej.
Qed.

(** ** Rounding in binary64

    The consistency filter and the stabilizer only ever hold BPM values
    between 29 and 221. Showing it needs a few facts on the rounding of [+],
    [*] and [/ 2], derived here from the specification of the primitive
    floats: a finite float [m * 2^e] is followed through its value scaled by
    [2^1074], which is an integer. *)

Section Binary64.
Local Open Scope Z_scope.

Lemma dig_bounds (m : positive) : 2 ^ (dig m - 1) <= Zpos m < 2 ^ dig m.
Proof.
  unfold dig. induction m as [m IH | m IH |]; cbn [digits2_pos].
  - rewrite Pos2Z.inj_succ.
    replace (Z.succ (Zpos (digits2_pos m)) - 1) with (Z.succ (Zpos (digits2_pos m) - 1)) by lia.
    rewrite !Z.pow_succ_r by lia. lia.
  - rewrite Pos2Z.inj_succ.
    replace (Z.succ (Zpos (digits2_pos m)) - 1) with (Z.succ (Zpos (digits2_pos m) - 1)) by lia.
    rewrite !Z.pow_succ_r by lia. lia.
  - cbn. lia.
Qed.

Lemma dig_pos (m : positive) : 1 <= dig m.
Proof. unfold dig. lia. Qed.

(** [dig] is determined by the binade. *)
Lemma dig_unique (m : positive) (d : Z) :
  2 ^ (d - 1) <= Zpos m < 2 ^ d -> dig m = d.
Proof.
  intros [Hlo Hhi]. pose proof (dig_bounds m) as [Hlo' Hhi']. pose proof (dig_pos m).
  assert (Hd : 1 <= d).
  { destruct (Z.le_gt_cases 1 d) as [|Hd]; [assumption|].
    assert (2 ^ d <= 2 ^ 0).
    { destruct (Z.le_gt_cases 0 d);
        [ apply Z.pow_le_mono_r; lia | rewrite Z.pow_neg_r by lia; cbn; lia ]. }
    cbn in *. lia. }
  destruct (Z.lt_trichotomy (dig m) d) as [Hlt | [Heq | Hgt]]; [ | assumption | ].
  - assert (2 ^ dig m <= 2 ^ (d - 1)) by (apply Z.pow_le_mono_r; lia). lia.
  - assert (2 ^ d <= 2 ^ (dig m - 1)) by (apply Z.pow_le_mono_r; lia). lia.
Qed.

Lemma valid_inv (s : bool) (m : positive) (e : Z) :
  valid_binary (S754_finite s m e) = true ->
  -1074 <= e <= 971 /\ dig m <= 53 /\ (dig m = 53 \/ e = -1074).
Proof.
  unfold SpecFloat.valid_binary, bounded, canonical_mantissa, fexp, SpecFloat.emin, prec, emax.
  fold (dig m). rewrite andb_true_iff, Z.eqb_eq, Z.leb_le. lia.
Qed.

Lemma valid_intro (s : bool) (m : positive) (e : Z) :
  dig m = 53 -> -1074 <= e <= 971 -> valid_binary (S754_finite s m e) = true.
Proof.
  unfold SpecFloat.valid_binary, bounded, canonical_mantissa, fexp, SpecFloat.emin, prec, emax.
  fold (dig m). rewrite andb_true_iff, Z.eqb_eq, Z.leb_le. lia.
Qed.

Lemma scaled_exp_lt (m1 m2 : positive) (e1 e2 : Z) :
  dig m1 <= 53 -> dig m2 = 53 -> -1074 <= e1 -> e1 < e2 ->
  scaled m1 e1 < scaled m2 e2.
Proof.
  intros Hd1 Hd2 He1 Hlt. unfold scaled.
  pose proof (dig_bounds m1) as [_ Hm1]. pose proof (dig_bounds m2) as [Hm2 _].
  rewrite Hd2 in Hm2.
  assert (Hm1' : Zpos m1 < 2 ^ 53).
  { eapply Z.lt_le_trans; [ exact Hm1 | apply Z.pow_le_mono_r; lia ]. }
  replace (e2 + 1074) with ((e1 + 1074) + (e2 - e1)) by lia.
  rewrite (Z.pow_add_r 2 (e1 + 1074) (e2 - e1)) by lia.
  assert (Hk : 2 ^ 1 <= 2 ^ (e2 - e1)) by (apply Z.pow_le_mono_r; lia).
  assert (Hg : 0 < 2 ^ (e1 + 1074)) by (apply Z.pow_pos_nonneg; lia).
  change (2 ^ 1) with 2 in Hk. change (53 - 1) with 52 in Hm2.
  assert (Hlt' : Zpos m1 < Zpos m2 * 2 ^ (e2 - e1)).
  { eapply Z.lt_le_trans; [ exact Hm1' | ].
    change (2 ^ 53) with (2 ^ 52 * 2).
    apply Z.mul_le_mono_nonneg; lia. }
  replace (Zpos m2 * (2 ^ (e1 + 1074) * 2 ^ (e2 - e1)))
    with (Zpos m2 * 2 ^ (e2 - e1) * 2 ^ (e1 + 1074)) by ring.
  apply Z.mul_lt_mono_pos_r; assumption.
Qed.

Lemma SFleb_scaled (m1 m2 : positive) (e1 e2 : Z) :
  valid_binary (S754_finite false m1 e1) = true ->
  valid_binary (S754_finite false m2 e2) = true ->
  (SFleb (S754_finite false m1 e1) (S754_finite false m2 e2) = true
   <-> scaled m1 e1 <= scaled m2 e2).
Proof.
  intros H1 H2. apply valid_inv in H1, H2.
  destruct H1 as (He1 & Hd1 & Hn1), H2 as (He2 & Hd2 & Hn2).
  unfold SFleb, SFcompare.
  destruct (Z.compare_spec e1 e2) as [Heq | Hlt | Hgt].
  - subst e2. unfold scaled.
    assert (Hg : 0 < 2 ^ (e1 + 1074)) by (apply Z.pow_pos_nonneg; lia).
    change (Pos.compare_cont Eq m1 m2) with (Pos.compare m1 m2).
    destruct (Pos.compare_spec m1 m2) as [Hm | Hm | Hm]; split; intros H;
      try reflexivity; try discriminate; try nia.
  - split; [ intros _ | reflexivity ].
    apply Z.lt_le_incl, scaled_exp_lt; lia.
  - split; [ discriminate | intros H ].
    assert (scaled m2 e2 < scaled m1 e1) by (apply scaled_exp_lt; lia). lia.
Qed.

Lemma iter_pos_iter {A : Type} (f : A -> A) (p : positive) :
  forall x, iter_pos f p x = Pos.iter f x p.
Proof.
  induction p as [p IH | p IH |]; intros x; cbn [iter_pos Pos.iter].
  - rewrite !IH, !Pos.iter_swap. reflexivity.
  - rewrite !IH. reflexivity.
  - reflexivity.
Qed.

Lemma odd_mod2 (m : Z) : Z.odd m = negb (m mod 2 =? 0).
Proof. rewrite Zmod_odd. destruct (Z.odd m); reflexivity. Qed.

Lemma shr_1_spec (mrs : shr_record) :
  0 <= shr_m mrs ->
  shr_m (shr_1 mrs) = shr_m mrs / 2
  /\ shr_r (shr_1 mrs) = Z.odd (shr_m mrs)
  /\ shr_s (shr_1 mrs) = shr_r mrs || shr_s mrs.
Proof.
  destruct mrs as [m r s]. cbn [shr_m shr_r shr_s]. intros Hm.
  rewrite <- Z.div2_div.
  destruct m as [| [p | p |] | p]; cbn; try lia; auto.
Qed.

Lemma mod_pow2_succ (m k : Z) :
  0 <= k ->
  (m mod 2 ^ (k + 1) =? 0) = (m mod 2 ^ k =? 0) && negb (Z.odd (m / 2 ^ k)).
Proof.
  intros Hk. rewrite Z.pow_add_r by lia. change (2 ^ 1) with 2.
  assert (Hg : 0 < 2 ^ k) by (apply Z.pow_pos_nonneg; lia).
  rewrite Z.rem_mul_r by lia. rewrite odd_mod2, negb_involutive.
  pose proof (Z.mod_pos_bound m (2 ^ k) Hg).
  pose proof (Z.mod_pos_bound (m / 2 ^ k) 2 ltac:(lia)).
  destruct (Z.eqb_spec (m mod 2 ^ k) 0), (Z.eqb_spec ((m / 2 ^ k) mod 2) 0);
    cbn; rewrite ?Z.eqb_eq, ?Z.eqb_neq; nia.
Qed.

Lemma shr_iter (m0 : Z) (p : positive) :
  0 <= m0 ->
  let mrs := Pos.iter shr_1 (Build_shr_record m0 false false) p in
  shr_m mrs = m0 / 2 ^ Zpos p
  /\ shr_r mrs || shr_s mrs = negb (m0 mod 2 ^ Zpos p =? 0).
Proof.
  intros Hm0. induction p as [| p IH] using Pos.peano_ind.
  - cbn [Pos.iter]. destruct (shr_1_spec (Build_shr_record m0 false false) Hm0)
      as (H1 & H2 & H3). cbn [shr_m shr_r shr_s] in *.
    rewrite H1, H2, H3. change (2 ^ 1) with 2. rewrite orb_false_r.
    split; [ reflexivity | apply odd_mod2 ].
  - rewrite Pos.iter_succ. cbn zeta in IH. destruct IH as (IHm & IHrs).
    set (mrs := Pos.iter shr_1 (Build_shr_record m0 false false) p) in *.
    assert (Hg : 0 < 2 ^ Zpos p) by (apply Z.pow_pos_nonneg; lia).
    assert (Hnn : 0 <= shr_m mrs) by (rewrite IHm; apply Z.div_pos; lia).
    destruct (shr_1_spec mrs Hnn) as (H1 & H2 & H3).
    cbn zeta. rewrite H1, H2, H3, IHm, IHrs.
    rewrite Pos2Z.inj_succ. unfold Z.succ.
    split.
    + rewrite Z.pow_add_r by lia. change (2 ^ 1) with 2.
      rewrite Z.div_div by lia. reflexivity.
    + rewrite mod_pow2_succ by lia.
      destruct (m0 mod 2 ^ Z.pos p =? 0), (Z.odd (m0 / 2 ^ Z.pos p)); reflexivity.
Qed.

(** Shifting right from an exact location: the mantissa is divided and the
    round/sticky bits tell whether anything was lost. *)
Lemma shr_exact (m0 e n : Z) :
  0 <= m0 ->
  exists mrs,
    shr (Build_shr_record m0 false false) e n = (mrs, e + Z.max n 0)
    /\ shr_m mrs = m0 / 2 ^ Z.max n 0
    /\ shr_r mrs || shr_s mrs = negb (m0 mod 2 ^ Z.max n 0 =? 0).
Proof.
  intros Hm0. destruct n as [| p | p]; cbn [shr].
  - exists (Build_shr_record m0 false false). cbn.
    rewrite Z.add_0_r, Z.div_1_r, Z.mod_1_r. auto.
  - rewrite iter_pos_iter. eexists. split; [ reflexivity | ].
    rewrite Z.max_l by lia. apply shr_iter. assumption.
  - exists (Build_shr_record m0 false false). cbn.
    rewrite Z.add_0_r, Z.div_1_r, Z.mod_1_r. auto.
Qed.

Lemma rne_bounds (mrs : shr_record) :
  let m2 := round_nearest_even (shr_m mrs) (loc_of_shr_record mrs) in
  shr_m mrs <= m2 <= shr_m mrs + 1
  /\ (shr_r mrs || shr_s mrs = false -> m2 = shr_m mrs).
Proof.
  destruct mrs as [m [|] [|]]; cbn; try destruct (Z.even m); split; try lia;
    intros; try discriminate; reflexivity.
Qed.

(** Rounding [mx * 2^ex], [mx] of at least 53 digits, to binary64: the
    result is a normal number or overflows; its scaled value is the scaled
    mantissa [mx / 2^n] or the next one, and it is exact when no bit is
    lost. *)
Lemma binary_round_aux_exact (mx : positive) (ex : Z) :
  53 <= dig mx -> -1074 <= ex ->
  let n := dig mx - 53 in
  let q := Zpos mx / 2 ^ n in
  exists (mr : positive) (er : Z),
    binary_round_aux prec emax false (Zpos mx) ex loc_Exact
    = (if er <=? 971 then S754_finite false mr er else S754_infinity false)
    /\ dig mr = 53
    /\ -1074 <= er
    /\ (scaled mr er = q * 2 ^ (ex + n + 1074)
        \/ (scaled mr er = (q + 1) * 2 ^ (ex + n + 1074)
            /\ Zpos mx mod 2 ^ n <> 0)).
Proof.
  intros Hd He n q.
  assert (Hn : 0 <= n) by (unfold n; lia).
  pose proof (dig_bounds mx) as [Hlo Hhi].
  assert (Hg : 0 < 2 ^ n) by (apply Z.pow_pos_nonneg; lia).
  assert (Hq : 2 ^ 52 <= q < 2 ^ 53).
  { unfold q. split.
    - apply Z.div_le_lower_bound; [ lia | ].
      rewrite <- Z.pow_add_r by lia.
      replace (n + 52) with (dig mx - 1) by (unfold n; lia). exact Hlo.
    - apply Z.div_lt_upper_bound; [ lia | ].
      rewrite <- Z.pow_add_r by lia.
      replace (n + 53) with (dig mx) by (unfold n; lia). exact Hhi. }
  unfold binary_round_aux, shr_fexp.
  cbn [shr_record_of_loc Zdigits2]. fold (dig mx).
  replace (fexp prec emax (dig mx + ex) - ex) with n
    by (unfold fexp, SpecFloat.emin, prec, emax, n; lia).
  destruct (shr_exact (Zpos mx) ex n ltac:(lia)) as (mrs1 & Hs1 & Hm1 & Hrs1).
  rewrite Z.max_l in Hs1, Hm1, Hrs1 by lia. rewrite Hs1.
  pose proof (rne_bounds mrs1) as [Hb Hex]. cbn zeta in Hb, Hex.
  set (m2 := round_nearest_even (shr_m mrs1) (loc_of_shr_record mrs1)) in *.
  rewrite Hm1 in Hb, Hex. fold q in Hb, Hex.
  assert (Hm2 : m2 = q \/ (m2 = q + 1 /\ Zpos mx mod 2 ^ n <> 0)).
  { destruct (Z.eqb_spec (Zpos mx mod 2 ^ n) 0) as [H0 | H0].
    - left. apply Hex. rewrite Hrs1. reflexivity.
    - destruct (Z.eq_dec m2 q); [ left; assumption | right; split; [ lia | assumption ] ]. }
  destruct m2 as [| p2 | p2] eqn:Ep2; [ lia | | lia ].
  cbn [Zdigits2]. fold (dig p2).
  assert (Hcase : Zpos p2 < 2 ^ 53 \/ Zpos p2 = 2 ^ 53) by lia.
  destruct Hcase as [Hsmall | Hbig].
  - assert (Hdp : dig p2 = 53) by (apply dig_unique; change (53 - 1) with 52; lia).
    rewrite Hdp.
    replace (fexp prec emax (53 + (ex + n)) - (ex + n)) with 0
      by (unfold fexp, SpecFloat.emin, prec, emax; lia).
    cbn [shr shr_m]. exists p2, (ex + n).
    change (emax - prec) with 971.
    split; [ reflexivity | ]. split; [ exact Hdp | ]. split; [ lia | ].
    unfold scaled.
    destruct Hm2 as [-> | [-> Hrem]];
      [ left | right; split; [ | assumption ] ]; reflexivity.
  - assert (Hdp : dig p2 = 54) by (apply dig_unique; rewrite Hbig; cbn; lia).
    rewrite Hdp.
    replace (fexp prec emax (54 + (ex + n)) - (ex + n)) with 1
      by (unfold fexp, SpecFloat.emin, prec, emax; lia).
    cbn [shr iter_pos]. rewrite Hbig. cbn [shr_1 shr_m Z.pow Z.pow_pos Pos.iter Z.mul Pos.mul].
    eexists _, (ex + n + 1). change (emax - prec) with 971.
    split; [ reflexivity | ]. split; [ reflexivity | ]. split; [ lia | ].
    assert (Hq1 : q + 1 = 2 ^ 53) by lia.
    right. split; [ | destruct Hm2 as [Hm2 | [_ Hm2]]; [ lia | exact Hm2 ] ].
    rewrite Hq1. unfold scaled.
    replace (ex + n + 1 + 1074) with (1 + (ex + n + 1074)) by lia.
    rewrite (Z.pow_add_r 2 1 (ex + n + 1074)) by lia.
    rewrite Z.mul_assoc. reflexivity.
Qed.

(** A float of the format is, on the grid of spacing [2^k], either a grid
    point or below [2^52] grid steps. *)
Lemma grid_dichotomy (m : positive) (e k : Z) :
  dig m <= 53 -> -1074 <= e -> -1074 <= k ->
  (exists t, scaled m e = t * 2 ^ (k + 1074))
  \/ scaled m e < 2 ^ 52 * 2 ^ (k + 1074).
Proof.
  intros Hd He Hk. unfold scaled.
  destruct (Z.le_gt_cases k e) as [Hke | Hek].
  - left. exists (Zpos m * 2 ^ (e - k)).
    rewrite <- Z.mul_assoc, <- Z.pow_add_r by lia. f_equal. f_equal. lia.
  - right. pose proof (dig_bounds m) as [_ Hm].
    assert (Hm' : Zpos m < 2 ^ 53).
    { eapply Z.lt_le_trans; [ exact Hm | apply Z.pow_le_mono_r; lia ]. }
    assert (Hg : 0 < 2 ^ (e + 1074)) by (apply Z.pow_pos_nonneg; lia).
    assert (Hp : 2 ^ 53 * 2 ^ (e + 1074) <= 2 ^ 52 * 2 ^ (k + 1074)).
    { change (2 ^ 53) with (2 ^ 52 * 2 ^ 1).
      rewrite <- Z.mul_assoc, <- Z.pow_add_r by lia.
      apply Z.mul_le_mono_nonneg_l; [ lia | apply Z.pow_le_mono_r; lia ]. }
    eapply Z.lt_le_trans; [ | exact Hp ].
    apply Z.mul_lt_mono_pos_r; assumption.
Qed.

(** Rounding keeps a value between two floats of the format between them. *)
Lemma round_between (mx : positive) (ex : Z) (mL : positive) (eL : Z)
    (mB : positive) (eB : Z) :
  53 <= dig mx -> -1074 <= ex ->
  valid_binary (S754_finite false mL eL) = true ->
  valid_binary (S754_finite false mB eB) = true ->
  scaled mL eL <= Zpos mx * 2 ^ (ex + 1074) <= scaled mB eB ->
  exists (mr : positive) (er : Z),
    binary_round_aux prec emax false (Zpos mx) ex loc_Exact
    = S754_finite false mr er
    /\ valid_binary (S754_finite false mr er) = true
    /\ dig mr = 53
    /\ scaled mL eL <= scaled mr er <= scaled mB eB.
Proof.
  intros Hd He HvL HvB [HL HB].
  apply valid_inv in HvL, HvB.
  destruct HvL as (HeL & HdL & _), HvB as (HeB & HdB & _).
  destruct (binary_round_aux_exact mx ex Hd He) as (mr & er & Hr & Hdr & Her & Hval).
  cbn zeta in Hval.
  set (n := dig mx - 53) in *. set (q := Zpos mx / 2 ^ n) in *.
  set (g := 2 ^ (ex + n + 1074)) in *.
  assert (Hn : 0 <= n) by (unfold n; lia).
  assert (H2n : 0 < 2 ^ n) by (apply Z.pow_pos_nonneg; lia).
  assert (Hu : 0 < 2 ^ (ex + 1074)) by (apply Z.pow_pos_nonneg; lia).
  assert (Hg : g = 2 ^ n * 2 ^ (ex + 1074)).
  { unfold g. rewrite <- Z.pow_add_r by lia. f_equal. lia. }
  assert (Hgpos : 0 < g) by (rewrite Hg; apply Z.mul_pos_pos; assumption).
  pose proof (Z.div_mod (Zpos mx) (2 ^ n) ltac:(lia)) as Hdm. fold q in Hdm.
  pose proof (Z.mod_pos_bound (Zpos mx) (2 ^ n) H2n) as Hrem.
  set (r := Zpos mx mod 2 ^ n) in *.
  assert (HX : Zpos mx * 2 ^ (ex + 1074) = q * g + r * 2 ^ (ex + 1074)).
  { rewrite Hg, Hdm at 1. ring. }
  assert (Hrg : r * 2 ^ (ex + 1074) < g).
  { rewrite Hg. apply Z.mul_lt_mono_pos_r; lia. }
  pose proof (dig_bounds mx) as [Hlo Hhi].
  assert (Hq : 2 ^ 52 <= q).
  { unfold q. apply Z.div_le_lower_bound; [ lia | ].
    rewrite <- Z.pow_add_r by lia.
    replace (n + 52) with (dig mx - 1) by (unfold n; lia). exact Hlo. }
  assert (Hqg : 2 ^ 52 * g <= q * g) by (apply Z.mul_le_mono_nonneg_r; lia).
  (* lower bound: the float below is at most the floor *)
  assert (Hlow : scaled mL eL <= q * g).
  { pose proof (grid_dichotomy mL eL (ex + n) HdL ltac:(lia) ltac:(lia)) as HgL.
    change (2 ^ (ex + n + 1074)) with g in HgL.
    destruct HgL as [[t Ht] | Hsmall]; [ | lia ].
    rewrite Ht in *. assert (t < q + 1) by nia. nia. }
  (* upper bound: the float above is at least the ceiling *)
  assert (Hup : scaled mr er <= scaled mB eB).
  { destruct Hval as [Hv | [Hv Hne]]; rewrite Hv; [ lia | ].
    assert (Hrpos : 0 < r * 2 ^ (ex + 1074)) by (apply Z.mul_pos_pos; lia).
    pose proof (grid_dichotomy mB eB (ex + n) HdB ltac:(lia) ltac:(lia)) as HgB.
    change (2 ^ (ex + n + 1074)) with g in HgB.
    destruct HgB as [[t Ht] | Hsmall]; [ | lia ].
    rewrite Ht in *. assert (q < t) by nia. nia. }
  assert (Hge : scaled mL eL <= scaled mr er).
  { destruct Hval as [Hv | [Hv _]]; rewrite Hv; nia. }
  assert (Her' : er <= 971).
  { destruct (Z.le_gt_cases er eB) as [Hle | Hgt]; [ lia | ].
    assert (scaled mB eB < scaled mr er) by (apply scaled_exp_lt; lia). lia. }
  exists mr, er.
  destruct (Z.leb_spec er 971); [ | lia ].
  split; [ exact Hr | ].
  split; [ apply valid_intro; lia | ].
  split; [ exact Hdr | ]. split; assumption.
Qed.

(** ** From primitive floats to their specification *)

Lemma leb_finite_inv (lo hi x : float) (ml : positive) (el : Z)
    (mh : positive) (eh : Z) :
  Prim2SF lo = S754_finite false ml el ->
  Prim2SF hi = S754_finite false mh eh ->
  (lo <=? x)%float = true -> (x <=? hi)%float = true ->
  exists (m : positive) (e : Z),
    Prim2SF x = S754_finite false m e
    /\ valid_binary (S754_finite false m e) = true
    /\ scaled ml el <= scaled m e <= scaled mh eh.
Proof.
  intros Hlo Hhi Hl Hh.
  rewrite FloatAxioms.leb_spec in Hl, Hh. rewrite Hlo in Hl. rewrite Hhi in Hh.
  pose proof (Prim2SF_valid x) as Hvx.
  pose proof (Prim2SF_valid lo) as Hvl. rewrite Hlo in Hvl.
  pose proof (Prim2SF_valid hi) as Hvh. rewrite Hhi in Hvh.
  destruct (Prim2SF x) as [s | [|] | | [|] m e];
    try (cbn in Hl; discriminate Hl); try (cbn in Hh; discriminate Hh).
  exists m, e. split; [ reflexivity | ]. split; [ exact Hvx | ].
  split; apply SFleb_scaled; assumption.
Qed.

Lemma leb_finite_intro (x y : float) (mx : positive) (ex : Z)
    (my : positive) (ey : Z) :
  Prim2SF x = S754_finite false mx ex ->
  Prim2SF y = S754_finite false my ey ->
  scaled mx ex <= scaled my ey ->
  (x <=? y)%float = true.
Proof.
  intros Hx Hy Hle. rewrite FloatAxioms.leb_spec, Hx, Hy.
  pose proof (Prim2SF_valid x) as Hvx. rewrite Hx in Hvx.
  pose proof (Prim2SF_valid y) as Hvy. rewrite Hy in Hvy.
  apply SFleb_scaled; assumption.
Qed.

(** The exponent of a float is bounded below by its size. *)
Lemma scaled_exponent (m : positive) (e k : Z) :
  dig m <= 53 -> -1074 <= e -> 0 <= k ->
  2 ^ (53 + k) <= scaled m e -> k - 1074 < e.
Proof.
  intros Hd He Hk Hbig. unfold scaled in Hbig.
  pose proof (dig_bounds m) as [_ Hm].
  assert (Hm' : Zpos m < 2 ^ 53).
  { eapply Z.lt_le_trans; [ exact Hm | apply Z.pow_le_mono_r; lia ]. }
  destruct (Z.lt_ge_cases (k - 1074) e) as [| Hle]; [ assumption | exfalso ].
  assert (Hg : 0 < 2 ^ (e + 1074)) by (apply Z.pow_pos_nonneg; lia).
  assert (Hp : 2 ^ (e + 1074) <= 2 ^ k) by (apply Z.pow_le_mono_r; lia).
  rewrite Z.pow_add_r in Hbig by lia. nia.
Qed.

Lemma dig_ge_53 (m : positive) : 2 ^ 52 <= Zpos m -> 53 <= dig m.
Proof.
  intros Hm. pose proof (dig_bounds m) as [_ Hhi].
  destruct (Z.le_gt_cases 53 (dig m)) as [| Hlt]; [ assumption | exfalso ].
  pose proof (dig_pos m).
  assert (2 ^ dig m <= 2 ^ 52) by (apply Z.pow_le_mono_r; lia). lia.
Qed.

Lemma dig_53_ge (m : positive) : dig m = 53 -> 2 ^ 52 <= Zpos m.
Proof. intros Hd. pose proof (dig_bounds m) as [Hlo _]. now rewrite Hd in Hlo. Qed.

Lemma pos_iter_xO (m d : positive) : Zpos (Pos.iter xO m d) = Zpos m * 2 ^ Zpos d.
Proof.
  induction d as [| d IH] using Pos.peano_ind.
  - cbn [Pos.iter]. rewrite Pos2Z.inj_xO. change (2 ^ 1) with 2. ring.
  - rewrite Pos.iter_succ, Pos2Z.inj_xO, IH, Pos2Z.inj_succ, Z.pow_succ_r by lia.
    ring.
Qed.

Lemma shl_align_le (m : positive) (e e' : Z) :
  e' <= e ->
  Zpos (fst (shl_align m e e')) = Zpos m * 2 ^ (e - e').
Proof.
  intros Hle. unfold shl_align. destruct (e' - e) as [| d | d] eqn:E.
  - replace (e - e') with 0 by lia. cbn [fst]. change (2 ^ 0) with 1. ring.
  - lia.
  - cbn [fst]. rewrite pos_iter_xO. f_equal. f_equal. lia.
Qed.

Lemma shl_align_ge (m : positive) (e e' : Z) :
  e <= e' -> shl_align m e e' = (m, e).
Proof.
  intros Hle. unfold shl_align. destruct (e' - e) eqn:E; try reflexivity. lia.
Qed.

(** The sum of two positive normal numbers, before rounding. *)
Lemma SFadd_finite (mx my : positive) (ex ey : Z) :
  dig mx = 53 -> dig my = 53 -> -1074 <= ex -> -1074 <= ey ->
  exists M : positive,
    SF64add (S754_finite false mx ex) (S754_finite false my ey)
    = binary_round_aux prec emax false (Zpos M) (Z.min ex ey) loc_Exact
    /\ 53 <= dig M
    /\ Zpos M * 2 ^ (Z.min ex ey + 1074) = scaled mx ex + scaled my ey.
Proof.
  intros Hdx Hdy Hex Hey. unfold SF64add, SFadd. cbn zeta.
  set (ez := Z.min ex ey).
  pose proof (shl_align_le mx ex ez ltac:(unfold ez; lia)) as Ha.
  pose proof (shl_align_le my ey ez ltac:(unfold ez; lia)) as Hb.
  set (a := fst (shl_align mx ex ez)) in *.
  set (b := fst (shl_align my ey ez)) in *.
  cbn [cond_Zopp]. change (Zpos a + Zpos b) with (Zpos (a + b)).
  cbn [binary_normalize]. unfold binary_round.
  assert (Hpa : 1 <= 2 ^ (ex - ez)).
  { change 1 with (2 ^ 0). apply Z.pow_le_mono_r; unfold ez; lia. }
  assert (HM : 53 <= dig (a + b)).
  { apply dig_ge_53. rewrite Pos2Z.inj_add, Ha.
    pose proof (dig_53_ge mx Hdx). nia. }
  fold (dig (a + b)).
  rewrite shl_align_ge
    by (unfold fexp, SpecFloat.emin, prec, emax; lia).
  exists (a + b)%positive. split; [ reflexivity | ]. split; [ exact HM | ].
  rewrite Pos2Z.inj_add, Ha, Hb. unfold scaled.
  rewrite Z.mul_add_distr_r, <- !Z.mul_assoc, <- !Z.pow_add_r by (unfold ez; lia).
  f_equal; f_equal; f_equal; lia.
Qed.

Lemma SFmul_finite (mx my : positive) (ex ey : Z) :
  dig mx = 53 -> dig my = 53 ->
  SF64mul (S754_finite false mx ex) (S754_finite false my ey)
  = binary_round_aux prec emax false (Zpos (mx * my)) (ex + ey) loc_Exact
  /\ 53 <= dig (mx * my).
Proof.
  intros Hdx Hdy. split; [ reflexivity | ].
  apply dig_ge_53. rewrite Pos2Z.inj_mul.
  pose proof (dig_53_ge mx Hdx). pose proof (dig_53_ge my Hdy).
  assert (2 ^ 52 * 1 <= 2 ^ 52 * 2 ^ 52) by (cbn; lia). nia.
Qed.

Lemma div_eucl_div_mod (a b : Z) : Z.div_eucl a b = (a / b, a mod b).
Proof. unfold Z.div, Z.modulo. destruct (Z.div_eucl a b). reflexivity. Qed.

Lemma SFdiv_core_binary_two (mx : positive) (ex : Z) :
  dig mx = 53 -> -1072 <= ex ->
  SFdiv_core_binary prec emax (Zpos mx) ex (Zpos 4503599627370496) (-51)
  = (Zpos mx~0, ex - 2, loc_Exact).
Proof.
  intros Hd He. unfold SFdiv_core_binary. cbn [Zdigits2]. fold (dig mx).
  rewrite Hd. change (Zpos (digits2_pos 4503599627370496)) with 53.
  replace (Z.min (fexp prec emax (53 + ex - (53 + -51))) (ex - -51)) with (ex - 2)
    by (unfold fexp, SpecFloat.emin, prec, emax; lia).
  replace (ex - -51 - (ex - 2)) with 53 by lia.
  cbv zeta iota. rewrite Z.shiftl_mul_pow2 by lia.
  rewrite div_eucl_div_mod.
  replace (Zpos mx * 2 ^ 53) with (Zpos mx~0 * Zpos 4503599627370496)
    by (rewrite Pos2Z.inj_xO; change (Zpos 4503599627370496) with (2 ^ 52);
        change (2 ^ 53) with (2 * 2 ^ 52); ring).
  rewrite Z.div_mul, Z.mod_mul by lia. reflexivity.
Qed.

Lemma posnormal_rep (x : float) :
  posnormal x ->
  exists (m : positive) (e : Z),
    Prim2SF x = S754_finite false m e
    /\ valid_binary (S754_finite false m e) = true
    /\ dig m = 53 /\ sc x = scaled m e /\ -1074 <= e.
Proof.
  intros (m & e & Hx & Hd). exists m, e.
  pose proof (Prim2SF_valid x) as Hv. rewrite Hx in Hv.
  pose proof (valid_inv _ _ _ Hv) as (He & _).
  unfold sc. rewrite Hx. repeat split; try assumption; lia.
Qed.

Lemma posnormal_sc_ge (x : float) : posnormal x -> 2 ^ 52 <= sc x.
Proof.
  intros Hx. destruct (posnormal_rep x Hx) as (m & e & _ & _ & Hd & Hs & He).
  rewrite Hs. unfold scaled. pose proof (dig_53_ge m Hd).
  assert (1 <= 2 ^ (e + 1074)) by (change 1 with (2 ^ 0); apply Z.pow_le_mono_r; lia).
  nia.
Qed.

Lemma leb_sc (x y : float) :
  posnormal x -> posnormal y -> sc x <= sc y -> (x <=? y)%float = true.
Proof.
  intros Hx Hy Hle.
  destruct (posnormal_rep x Hx) as (mx & ex & Hrx & _ & _ & Hsx & _).
  destruct (posnormal_rep y Hy) as (my & ey & Hry & _ & _ & Hsy & _).
  rewrite Hsx, Hsy in Hle. eapply leb_finite_intro; eassumption.
Qed.

(** A number between two positive normal numbers is one, with its value
    between theirs. *)
Lemma between_posnormal (lo hi x : float) :
  posnormal lo -> posnormal hi ->
  (lo <=? x)%float = true -> (x <=? hi)%float = true ->
  posnormal x /\ sc lo <= sc x <= sc hi.
Proof.
  intros Hlo Hhi Hl Hh. pose proof (posnormal_sc_ge lo Hlo) as Hbig.
  destruct (posnormal_rep lo Hlo) as (ml & el & Hrl & _ & _ & Hsl & _).
  destruct (posnormal_rep hi Hhi) as (mh & eh & Hrh & _ & _ & Hsh & _).
  destruct (leb_finite_inv lo hi x ml el mh eh Hrl Hrh Hl Hh)
    as (m & e & Hx & Hv & Hb).
  assert (Hs : sc x = scaled m e) by (unfold sc; now rewrite Hx).
  rewrite Hsl, Hsh, Hs. split; [ | exact Hb ].
  exists m, e. split; [ exact Hx | ].
  destruct (valid_inv _ _ _ Hv) as (He & Hd & [Hn | Hsub]); [ exact Hn | ].
  subst e. unfold scaled in Hb. change (2 ^ (-1074 + 1074)) with 1 in Hb.
  pose proof (dig_bounds m) as [_ Hm]. pose proof (dig_pos m).
  destruct (Z.eq_dec (dig m) 53) as [| Hne]; [ assumption | exfalso ].
  assert (2 ^ dig m <= 2 ^ 52) by (apply Z.pow_le_mono_r; lia).
  rewrite Hsl in Hbig. unfold scaled in Hbig. lia.
Qed.

Lemma round_posnormal (z : float) (mx : positive) (ex : Z) (lo hi : float) :
  Prim2SF z = binary_round_aux prec emax false (Zpos mx) ex loc_Exact ->
  53 <= dig mx -> -1074 <= ex ->
  posnormal lo -> posnormal hi ->
  sc lo <= Zpos mx * 2 ^ (ex + 1074) <= sc hi ->
  posnormal z /\ sc lo <= sc z <= sc hi.
Proof.
  intros Hz Hd He Hlo Hhi Hb.
  destruct (posnormal_rep lo Hlo) as (ml & el & _ & Hvl & _ & Hsl & _).
  destruct (posnormal_rep hi Hhi) as (mh & eh & _ & Hvh & _ & Hsh & _).
  rewrite Hsl, Hsh in *.
  destruct (round_between mx ex ml el mh eh Hd He Hvl Hvh Hb)
    as (mr & er & Hr & Hv & Hdr & Hbr).
  rewrite Hr in Hz.
  split; [ exists mr, er; split; assumption | ].
  unfold sc. rewrite Hz. exact Hbr.
Qed.

(** Addition of positive normal numbers. *)
Lemma add_sc (x y lo hi : float) :
  posnormal x -> posnormal y -> posnormal lo -> posnormal hi ->
  sc lo <= sc x + sc y <= sc hi ->
  posnormal (x + y)%float /\ sc lo <= sc (x + y)%float <= sc hi.
Proof.
  intros Hx Hy Hlo Hhi Hb.
  destruct (posnormal_rep x Hx) as (mx & ex & Hrx & _ & Hdx & Hsx & Hex).
  destruct (posnormal_rep y Hy) as (my & ey & Hry & _ & Hdy & Hsy & Hey).
  destruct (SFadd_finite mx my ex ey Hdx Hdy Hex Hey) as (M & Hadd & HdM & HM).
  apply (round_posnormal _ M (Z.min ex ey)); try assumption; try lia.
  rewrite FloatAxioms.add_spec, Hrx, Hry. exact Hadd.
Qed.

(** Multiplication of positive normal numbers whose product is not tiny. *)
Lemma mul_sc (x y lo hi : float) :
  posnormal x -> posnormal y -> posnormal lo -> posnormal hi ->
  2 ^ 106 <= sc lo ->
  sc lo * 2 ^ 1074 <= sc x * sc y <= sc hi * 2 ^ 1074 ->
  posnormal (x * y)%float /\ sc lo <= sc (x * y)%float <= sc hi.
Proof.
  intros Hx Hy Hlo Hhi Hbig Hb.
  destruct (posnormal_rep x Hx) as (mx & ex & Hrx & _ & Hdx & Hsx & Hex).
  destruct (posnormal_rep y Hy) as (my & ey & Hry & _ & Hdy & Hsy & Hey).
  destruct (SFmul_finite mx my ex ey Hdx Hdy) as (Hmul & HdM).
  rewrite Hsx, Hsy in Hb. unfold scaled in Hb.
  pose proof (dig_bounds mx) as [_ Hmx]. rewrite Hdx in Hmx.
  pose proof (dig_bounds my) as [_ Hmy]. rewrite Hdy in Hmy.
  assert (Hprod : Zpos mx * 2 ^ (ex + 1074) * (Zpos my * 2 ^ (ey + 1074))
                  = Zpos mx * Zpos my * 2 ^ (ex + ey + 2148)).
  { replace (ex + ey + 2148) with ((ex + 1074) + (ey + 1074)) by lia.
    rewrite (Z.pow_add_r 2 (ex + 1074) (ey + 1074)) by lia. ring. }
  rewrite Hprod in Hb.
  assert (Hexp : -1074 < ex + ey).
  { destruct (Z.lt_ge_cases (-1074) (ex + ey)) as [| Hle]; [ assumption | exfalso ].
    assert (Hp : 2 ^ (ex + ey + 2148) <= 2 ^ 1074) by (apply Z.pow_le_mono_r; lia).
    assert (Hg : 0 < 2 ^ (ex + ey + 2148)) by (apply Z.pow_pos_nonneg; lia).
    assert (Hmm : Zpos mx * Zpos my < 2 ^ 53 * 2 ^ 53)
      by (apply Z.mul_lt_mono_nonneg; lia).
    change (2 ^ 53 * 2 ^ 53) with (2 ^ 106) in Hmm.
    assert (0 < 2 ^ 1074) by (apply Z.pow_pos_nonneg; lia).
    assert (Zpos mx * Zpos my * 2 ^ (ex + ey + 2148) < 2 ^ 106 * 2 ^ 1074) by nia.
    nia. }
  apply (round_posnormal _ (mx * my) (ex + ey)); try assumption; try lia.
  - rewrite FloatAxioms.mul_spec, Hrx, Hry. exact Hmul.
  - rewrite Pos2Z.inj_mul.
    replace (ex + ey + 2148) with ((ex + ey + 1074) + 1074) in Hb by lia.
    rewrite Z.pow_add_r, Z.mul_assoc in Hb by lia.
    assert (0 < 2 ^ 1074) by (apply Z.pow_pos_nonneg; lia).
    nia.
Qed.

(** Halving a positive normal number that is not tiny. *)
Lemma half_sc (x lo hi : float) :
  posnormal x -> posnormal lo -> posnormal hi ->
  2 ^ 56 <= sc x ->
  2 * sc lo <= sc x <= 2 * sc hi ->
  posnormal (x / 2)%float /\ sc lo <= sc (x / 2)%float <= sc hi.
Proof.
  intros Hx Hlo Hhi Hbig Hb.
  destruct (posnormal_rep x Hx) as (mx & ex & Hrx & _ & Hdx & Hsx & Hex).
  rewrite Hsx in Hbig, Hb.
  pose proof (scaled_exponent mx ex 3 ltac:(lia) Hex ltac:(lia) Hbig) as He3.
  apply (round_posnormal _ (mx~0) (ex - 2)); try assumption; try lia.
  - rewrite FloatAxioms.div_spec, Hrx.
    change (Prim2SF 2%float) with (S754_finite false 4503599627370496 (-51)).
    unfold SF64div, SFdiv.
    rewrite SFdiv_core_binary_two by (assumption || lia). reflexivity.
  - apply dig_ge_53. rewrite Pos2Z.inj_xO. pose proof (dig_53_ge mx Hdx). lia.
  - unfold scaled in Hb. rewrite Pos2Z.inj_xO.
    replace (ex + 1074) with (1 + (ex - 2 + 1074) + 1) in Hb by lia.
    rewrite !Z.pow_add_r in Hb by lia. change (2 ^ 1) with 2 in Hb.
    assert (0 < 2 ^ (ex - 2 + 1074)) by (apply Z.pow_pos_nonneg; lia).
    nia.
Qed.

End Binary64.

Ltac posnormal_literal :=
  eexists _, _; split; [ vm_compute; reflexivity | reflexivity ].

Lemma posnormal_29 : posnormal 29. Proof. posnormal_literal. Qed.
Lemma posnormal_30 : posnormal 30. Proof. posnormal_literal. Qed.
Lemma posnormal_60 : posnormal 60. Proof. posnormal_literal. Qed.
Lemma posnormal_220 : posnormal 220. Proof. posnormal_literal. Qed.
Lemma posnormal_221 : posnormal 221. Proof. posnormal_literal. Qed.
Lemma posnormal_440 : posnormal 440. Proof. posnormal_literal. Qed.
Lemma posnormal_07 : posnormal 0.7. Proof. posnormal_literal. Qed.
Lemma posnormal_03 : posnormal 0.3. Proof. posnormal_literal. Qed.
Lemma posnormal_20_25 : posnormal 20.25. Proof. posnormal_literal. Qed.
Lemma posnormal_154_75 : posnormal 154.75. Proof. posnormal_literal. Qed.
Lemma posnormal_8_75 : posnormal 8.75. Proof. posnormal_literal. Qed.
Lemma posnormal_66 : posnormal 66. Proof. posnormal_literal. Qed.

Section BpmRanges.
Local Open Scope Z_scope.

Ltac by_computation := apply Z.leb_le; vm_compute; reflexivity.

Lemma sc_29 : sc 29 = 29 * 2 ^ 1074. Proof. vm_compute. reflexivity. Qed.
Lemma sc_221 : sc 221 = 221 * 2 ^ 1074. Proof. vm_compute. reflexivity. Qed.
Lemma sc_29_30 : sc 29 <= sc 30. Proof. by_computation. Qed.
Lemma sc_220_221 : sc 220 <= sc 221. Proof. by_computation. Qed.
Lemma sc_60 : sc 60 = 2 * sc 30. Proof. vm_compute. reflexivity. Qed.
Lemma sc_440 : sc 440 = 2 * sc 220. Proof. vm_compute. reflexivity. Qed.
Lemma sc_60_big : 2 ^ 56 <= sc 60. Proof. by_computation. Qed.
Lemma sc_07_lo : sc 20.25 * 2 ^ 1074 <= sc 29 * sc 0.7. Proof. by_computation. Qed.
Lemma sc_07_hi : sc 221 * sc 0.7 <= sc 154.75 * 2 ^ 1074. Proof. by_computation. Qed.
Lemma sc_03_lo : sc 8.75 * 2 ^ 1074 <= sc 30 * sc 0.3. Proof. by_computation. Qed.
Lemma sc_03_hi : sc 220 * sc 0.3 <= sc 66 * 2 ^ 1074. Proof. by_computation. Qed.
Lemma sc_20_25_big : 2 ^ 106 <= sc 20.25. Proof. by_computation. Qed.
Lemma sc_8_75_big : 2 ^ 106 <= sc 8.75. Proof. by_computation. Qed.
Lemma sc_sum_lo : sc 29 <= sc 20.25 + sc 8.75. Proof. by_computation. Qed.
Lemma sc_sum_hi : sc 154.75 + sc 66 <= sc 221. Proof. by_computation. Qed.

Lemma bpmInRange_sc (x : number) :
  bpmInRange x = true -> posnormal x /\ sc 30 <= sc x <= sc 220.
Proof.
  unfold bpmInRange. rewrite andb_true_iff. intros [Hl Hh].
  apply between_posnormal; auto using posnormal_30, posnormal_220.
Qed.

Lemma candidateInRange_sc (x : number) :
  candidateInRange x = true -> posnormal x /\ sc 29 <= sc x <= sc 221.
Proof.
  unfold candidateInRange. rewrite andb_true_iff. intros [Hl Hh].
  apply between_posnormal; auto using posnormal_29, posnormal_221.
Qed.

(** The mean of two BPM values in range is in range. *)
Lemma average_in_range (a b : number) :
  bpmInRange a = true -> bpmInRange b = true ->
  bpmInRange ((a + b) / 2)%float = true.
Proof.
  intros Ha Hb. apply bpmInRange_sc in Ha, Hb.
  destruct Ha as (Hpa & Hla & Hha), Hb as (Hpb & Hlb & Hhb).
  pose proof sc_60. pose proof sc_440. pose proof sc_60_big.
  destruct (add_sc a b 60 440 Hpa Hpb posnormal_60 posnormal_440 ltac:(lia))
    as (Hps & Hls & Hhs).
  destruct (half_sc (a + b)%float 30 220 Hps posnormal_30 posnormal_220
              ltac:(lia) ltac:(lia)) as (Hph & Hlh & Hhh).
  unfold bpmInRange. apply andb_true_intro.
  split; apply leb_sc; auto using posnormal_30, posnormal_220.
Qed.

(** The smoothing step keeps the stable candidate in its range. *)
Lemma blend_in_range (c m : number) :
  candidateInRange c = true -> bpmInRange m = true ->
  candidateInRange (c * 0.7 + m * 0.3)%float = true.
Proof.
  intros Hc Hm. apply candidateInRange_sc in Hc. apply bpmInRange_sc in Hm.
  destruct Hc as (Hpc & Hlc & Hhc), Hm as (Hpm & Hlm & Hhm).
  pose proof (posnormal_sc_ge 0.7%float posnormal_07) as H07.
  pose proof (posnormal_sc_ge 0.3%float posnormal_03) as H03.
  assert (Hc7 : sc 20.25 * 2 ^ 1074 <= sc c * sc 0.7 <= sc 154.75 * 2 ^ 1074).
  { split.
    - etransitivity; [ exact sc_07_lo | apply Z.mul_le_mono_nonneg_r; lia ].
    - etransitivity; [ | exact sc_07_hi ]. apply Z.mul_le_mono_nonneg_r; lia. }
  assert (Hm3 : sc 8.75 * 2 ^ 1074 <= sc m * sc 0.3 <= sc 66 * 2 ^ 1074).
  { split.
    - etransitivity; [ exact sc_03_lo | apply Z.mul_le_mono_nonneg_r; lia ].
    - etransitivity; [ | exact sc_03_hi ]. apply Z.mul_le_mono_nonneg_r; lia. }
  destruct (mul_sc c 0.7 20.25 154.75 Hpc posnormal_07 posnormal_20_25
              posnormal_154_75 sc_20_25_big Hc7) as (Hp1 & Hl1 & Hh1).
  destruct (mul_sc m 0.3 8.75 66 Hpm posnormal_03 posnormal_8_75
              posnormal_66 sc_8_75_big Hm3) as (Hp2 & Hl2 & Hh2).
  pose proof sc_sum_lo. pose proof sc_sum_hi.
  destruct (add_sc (c * 0.7)%float (m * 0.3)%float 29 221 Hp1 Hp2
              posnormal_29 posnormal_221 ltac:(lia)) as (Hps & Hls & Hhs).
  unfold candidateInRange. apply andb_true_intro.
  split; apply leb_sc; auto using posnormal_29, posnormal_221.
Qed.

Lemma bpm_is_candidate (m : number) :
  bpmInRange m = true -> candidateInRange m = true.
Proof.
  intros Hm. apply bpmInRange_sc in Hm. destruct Hm as (Hp & Hl & Hh).
  pose proof sc_29_30. pose proof sc_220_221.
  unfold candidateInRange. apply andb_true_intro.
  split; apply leb_sc; auto using posnormal_29, posnormal_221; lia.
Qed.

Lemma posnormal_truthy (x : number) :
  posnormal x -> truthy x = true /\ isNaN x = false.
Proof.
  intros (m & e & Hx & _). unfold truthy, isNaN, is_nan.
  rewrite !FloatAxioms.eqb_spec, Hx.
  change (Prim2SF 0%float) with (S754_zero false).
  unfold SFeqb, SFcompare. rewrite Z.compare_refl, Pos.compare_cont_refl.
  split; reflexivity.
Qed.

Lemma bpmInRange_truthy (x : number) :
  bpmInRange x = true -> truthy x = true /\ isNaN x = false.
Proof. intros Hx. apply posnormal_truthy, bpmInRange_sc, Hx. Qed.

(** Rounding a stable candidate gives a whole number of BPM. *)
Lemma Math_round_candidate (c : number) :
  candidateInRange c = true -> isIntegerBpm (Math_round c).
Proof.
  intros Hc. apply candidateInRange_sc in Hc. destruct Hc as (Hp & Hl & Hh).
  destruct (posnormal_rep c Hp) as (m & e & Hx & _ & Hd & Hs & He).
  rewrite Hs, sc_29 in Hl. rewrite Hs, sc_221 in Hh. unfold scaled in Hl, Hh.
  pose proof (dig_53_ge m Hd) as Hm.
  assert (Hg : 0 < 2 ^ (e + 1074)) by (apply Z.pow_pos_nonneg; lia).
  assert (Hneg : e < 0).
  { destruct (Z.lt_ge_cases e 0) as [| Hge]; [ assumption | exfalso ].
    assert (Hp2 : 2 ^ 1074 <= 2 ^ (e + 1074)) by (apply Z.pow_le_mono_r; lia).
    assert (0 < 2 ^ 1074) by (apply Z.pow_pos_nonneg; lia).
    assert (2 ^ 52 * 2 ^ 1074 <= Zpos m * 2 ^ (e + 1074))
      by (apply Z.mul_le_mono_nonneg; lia).
    assert (221 * 2 ^ 1074 < 2 ^ 52 * 2 ^ 1074)
      by (apply Z.mul_lt_mono_pos_r; [ assumption | reflexivity ]).
    lia. }
  set (k := - e). assert (Hk : 0 < k) by (unfold k; lia).
  assert (H2k : 0 < 2 ^ k) by (apply Z.pow_pos_nonneg; lia).
  assert (Hsplit : 2 ^ 1074 = 2 ^ (e + 1074) * 2 ^ k).
  { rewrite <- Z.pow_add_r by lia. f_equal. unfold k. lia. }
  rewrite Hsplit in Hl, Hh.
  assert (Hlo : 29 * 2 ^ k <= Zpos m) by nia.
  assert (Hhi : Zpos m <= 221 * 2 ^ k) by nia.
  unfold Math_round. rewrite Hx.
  destruct (Z.leb_spec 0 e) as [| _]; [ lia | ].
  cbn [cond_Zopp]. fold k. replace (1 - e) with (k + 1) by (unfold k; lia).
  set (z := (2 * Zpos m + 2 ^ k) / 2 ^ (k + 1)).
  assert (Hpow : 2 ^ (k + 1) = 2 * 2 ^ k) by (apply Z.pow_succ_r; lia).
  assert (Hz : 29 <= z <= 221).
  { unfold z. rewrite Hpow. split.
    - apply Z.div_le_lower_bound; lia.
    - assert ((2 * Zpos m + 2 ^ k) / (2 * 2 ^ k) < 222); [ | lia ].
      apply Z.div_lt_upper_bound; lia. }
  destruct (Z.eqb_spec z 0) as [| _]; [ lia | ].
  exists z. split; [ exact Hz | reflexivity ].
Qed.

End BpmRanges.

(** ** Medians of values in range *)

Lemma insert_sorted_In (x y : number) (l : list number) :
  In y (insert_sorted x l) <-> y = x \/ In y l.
Proof.
  induction l as [| a l IH]; cbn [insert_sorted In].
  - intuition.
  - destruct (0 <? x - a)%float; cbn [In]; rewrite ?IH; intuition.
Qed.

Lemma insert_sorted_length (x : number) (l : list number) :
  length (insert_sorted x l) = S (length l).
Proof.
  induction l as [| a l IH]; [ reflexivity | ].
  cbn [insert_sorted]. destruct (0 <? x - a)%float; cbn [length]; now rewrite ?IH.
Qed.

Lemma sort_numbers_In (y : number) (l : list number) :
  In y (sort_numbers l) <-> In y l.
Proof.
  unfold sort_numbers. induction l as [| a l IH]; [ reflexivity | ].
  cbn [fold_right In]. rewrite insert_sorted_In, IH. intuition.
Qed.

Lemma sort_numbers_length (l : list number) :
  length (sort_numbers l) = length l.
Proof.
  unfold sort_numbers. induction l as [| a l IH]; [ reflexivity | ].
  cbn [fold_right length]. now rewrite insert_sorted_length, IH.
Qed.

Lemma filter_all {A : Type} (p : A -> bool) (l : list A) :
  Forall (fun x => p x = true) l -> filter p l = l.
Proof.
  induction 1 as [| x l Hx _ IH]; [ reflexivity | ].
  cbn [filter]. now rewrite Hx, IH.
Qed.

(** The median of a non-empty list of values in range exists and is in
    range (so it is truthy). *)
Lemma calculateMedian_in_range (l : list number) :
  l <> [] ->
  Forall (fun x => bpmInRange x = true) l ->
  exists m, calculateMedian l = Some m /\ bpmInRange m = true.
Proof.
  intros Hne Hall. unfold calculateMedian.
  destruct l as [| x0 l0] eqn:El; [ contradiction | ]. rewrite <- El in *.
  rewrite filter_all
    by (eapply Forall_impl; [ | exact Hall ];
        intros x Hx; cbv beta; now rewrite (proj2 (bpmInRange_truthy x Hx))).
  set (sortedArr := sort_numbers l).
  assert (Hlen : length sortedArr = S (length l0))
    by (unfold sortedArr; rewrite sort_numbers_length, El; reflexivity).
  assert (Hnth : forall i, i < length sortedArr ->
                           bpmInRange (nth i sortedArr nan) = true).
  { intros i Hi. rewrite Forall_forall in Hall. apply Hall.
    apply sort_numbers_In. apply nth_In. exact Hi. }
  rewrite Hlen in *. change (Nat.eqb (S (length l0)) 0) with false. cbv iota.
  pose proof (Nat.div_mod_eq (S (length l0)) 2) as Hdm.
  pose proof (Nat.mod_upper_bound (S (length l0)) 2 ltac:(lia)) as Hmod.
  destruct (Nat.eqb_spec (S (length l0) mod 2) 0) as [Heven | Hodd].
  - destruct (Nat.eqb_spec (S (length l0) / 2) 0) as [H0 | Hpos]; [ lia | ].
    destruct (Nat.ltb_spec (S (length l0)) 2) as [H2 | _]; [ lia | ].
    cbn [orb]. eexists. split; [ reflexivity | ].
    apply average_in_range; apply Hnth; lia.
  - eexists. split; [ reflexivity | ]. apply Hnth. lia.
Qed.

(** ** Reachable states *)

Lemma wf_initialState : wf_state initialState.
Proof.
  split; cbn;
    [ constructor | constructor
    | unfold STABLE_BPM_CANDIDATE_BUFFER_SIZE; lia | exact I | exact I ].
Qed.

Lemma pushBounded_In {A : Type} (capacity : nat) (buffer : list A) (x y : A) :
  In y (pushBounded capacity buffer x) -> In y buffer \/ y = x.
Proof.
  unfold pushBounded. intros Hin.
  assert (Hall : In y (buffer ++ [x])).
  { destruct (Nat.ltb capacity (length (buffer ++ [x]))); [ | exact Hin ].
    destruct (buffer ++ [x]); [ contradiction | right; exact Hin ]. }
  apply in_app_or in Hall. destruct Hall as [H | [H | []]]; auto.
Qed.

Lemma agedWindow_in_range r now rng s :
  wf_state s -> bpmInRange r = true ->
  Forall (fun x => bpmInRange x = true) (map bpm (agedWindow r now rng s)).
Proof.
  intros Hwf Hr. apply Forall_forall. intros x Hx.
  apply in_map_iff in Hx. destruct Hx as (rb & <- & Hrb).
  unfold agedWindow in Hrb. apply filter_In in Hrb. destruct Hrb as [Hrb _].
  apply in_app_or in Hrb. destruct Hrb as [Hold | [<- | []]]; [ | exact Hr ].
  pose proof (wf_recent s Hwf) as Hall. rewrite Forall_forall in Hall. now apply Hall.
Qed.

(** The consistency filter, case by case. *)
Lemma updateCandidates_accepted r now rng s :
  bpmInRange r = true ->
  updateCandidates (Some r) now rng s
  = let recent := agedWindow r now rng s in
    let s1 := set_recentValidRawBpms recent s in
    if Nat.leb MIN_CONSISTENT_RAW_BPMS_FOR_CANDIDATE (length recent) then
      if (Math_max (map bpm recent) - Math_min (map bpm recent)
          <=? RAW_BPM_CONSISTENCY_THRESHOLD)%float
      then
        match calculateMedian (map bpm recent) with
        | Some candidateMedianBpm =>
            if truthy candidateMedianBpm then
              set_stableBpmCandidateBuffer
                (pushBounded STABLE_BPM_CANDIDATE_BUFFER_SIZE
                   (stableBpmCandidateBuffer s) candidateMedianBpm) s1
            else s1
        | None => s1
        end
      else s1
    else s1.
Proof.
  intros Hr. unfold updateCandidates, bpmInRange in *. rewrite Hr. reflexivity.
Qed.

Lemma updateCandidates_rejected rawBpm now rng s :
  rawBpmAccepted rawBpm = false -> updateCandidates rawBpm now rng s = s.
Proof.
  destruct rawBpm as [r |]; [ | reflexivity ].
  cbn [rawBpmAccepted]. intros Hrej. unfold updateCandidates. now rewrite Hrej.
Qed.

Lemma rawBpmAccepted_Some r : rawBpmAccepted (Some r) = bpmInRange r.
Proof. reflexivity. Qed.

(** With three or more observations in range whose spread passes the test,
    the median is pushed. *)
Lemma updateCandidates_consistent r now rng s :
  wf_state s -> bpmInRange r = true ->
  let recent := agedWindow r now rng s in
  MIN_CONSISTENT_RAW_BPMS_FOR_CANDIDATE <= length recent ->
  (Math_max (map bpm recent) - Math_min (map bpm recent)
   <=? RAW_BPM_CONSISTENCY_THRESHOLD)%float = true ->
  exists m,
    calculateMedian (map bpm recent) = Some m
    /\ bpmInRange m = true
    /\ updateCandidates (Some r) now rng s
       = set_stableBpmCandidateBuffer
           (pushBounded STABLE_BPM_CANDIDATE_BUFFER_SIZE
              (stableBpmCandidateBuffer s) m)
           (set_recentValidRawBpms recent s).
Proof.
  intros Hwf Hr recent Hlen Hspread.
  destruct (calculateMedian_in_range (map bpm recent)) as (m & Hm & Hin).
  { intros Hnil. apply (f_equal (@length _)) in Hnil.
    rewrite length_map in Hnil. cbn in Hnil, Hlen.
    unfold MIN_CONSISTENT_RAW_BPMS_FOR_CANDIDATE in Hlen. lia. }
  { apply agedWindow_in_range; assumption. }
  exists m. split; [ exact Hm | ]. split; [ exact Hin | ].
  rewrite updateCandidates_accepted by assumption. cbn zeta. fold recent.
  destruct (Nat.leb_spec MIN_CONSISTENT_RAW_BPMS_FOR_CANDIDATE (length recent));
    [ | lia ].
  rewrite Hspread, Hm, (proj1 (bpmInRange_truthy m Hin)). reflexivity.
Qed.

Lemma updateCandidates_wf rawBpm now rng s :
  wf_state s -> wf_state (updateCandidates rawBpm now rng s).
Proof.
  intros Hwf. destruct (rawBpmAccepted rawBpm) eqn:Hacc;
    [ | now rewrite updateCandidates_rejected ].
  destruct rawBpm as [r |]; [ | discriminate ]. rewrite rawBpmAccepted_Some in Hacc.
  pose proof (agedWindow_in_range r now rng s Hwf Hacc) as Hrec.
  assert (Hrec' : Forall (fun rb => bpmInRange (bpm rb) = true) (agedWindow r now rng s)).
  { rewrite Forall_forall in *. intros rb Hrb. apply Hrec. now apply in_map. }
  assert (Hs1 : wf_state (set_recentValidRawBpms (agedWindow r now rng s) s)).
  { destruct Hwf. split; cbn; assumption. }
  rewrite updateCandidates_accepted by assumption. cbn zeta.
  destruct (Nat.leb_spec MIN_CONSISTENT_RAW_BPMS_FOR_CANDIDATE
              (length (agedWindow r now rng s))) as [Hlen | _]; [ | exact Hs1 ].
  destruct (_ <=? RAW_BPM_CONSISTENCY_THRESHOLD)%float eqn:Hspread; [ | exact Hs1 ].
  destruct (updateCandidates_consistent r now rng s Hwf Hacc Hlen Hspread)
    as (m & Hm & Hin & _).
  rewrite Hm, (proj1 (bpmInRange_truthy m Hin)).
  destruct Hwf. split; cbn; try assumption.
  - apply Forall_forall. intros y Hy. apply pushBounded_In in Hy.
    destruct Hy as [Hy | ->]; [ | exact Hin ].
    rewrite Forall_forall in wf_candidates0. now apply wf_candidates0.
  - now apply pushBounded_length.
Qed.

Lemma lockOutcome_candidate s1 :
  currentStableBpmCandidate (fst (lockOutcome s1)) = currentStableBpmCandidate s1
  /\ currentStabilityCounter (fst (lockOutcome s1)) = currentStabilityCounter s1.
Proof.
  unfold lockOutcome.
  destruct (Nat.leb _ _); [ split; reflexivity | ].
  destruct (lockedBpm s1); [ split; reflexivity | ].
  destruct (currentStableBpmCandidate s1) eqn:E; cbn [fst]; rewrite ?E;
    split; reflexivity.
Qed.

(** The stabilizer with enough candidates: the median exists, is in range,
    and the guarded block runs. *)
Lemma lockBpm_enough s :
  wf_state s ->
  REQUIRED_STABILITY_COUNT <= length (stableBpmCandidateBuffer s) ->
  exists m,
    calculateMedian (stableBpmCandidateBuffer s) = Some m
    /\ bpmInRange m = true
    /\ lockBpm s = lockOutcome (updateStableCandidate m s).
Proof.
  intros Hwf Hlen.
  destruct (calculateMedian_in_range (stableBpmCandidateBuffer s)) as (m & Hm & Hin).
  { intros Hnil. rewrite Hnil in Hlen. cbn in Hlen.
    unfold REQUIRED_STABILITY_COUNT in Hlen. lia. }
  { apply (wf_candidates s Hwf). }
  exists m. split; [ exact Hm | ]. split; [ exact Hin | ].
  unfold lockBpm.
  destruct (Nat.leb_spec REQUIRED_STABILITY_COUNT
              (length (stableBpmCandidateBuffer s))); [ | lia ].
  rewrite Hm, (proj1 (bpmInRange_truthy m Hin)). reflexivity.
Qed.

Lemma updateStableCandidate_cases m s :
  (currentStableBpmCandidate s = None ->
   updateStableCandidate m s = set_candidate (Some m) 1 s)
  /\ (forall c,
        currentStableBpmCandidate s = Some c ->
        (PrimFloat.abs (m - c) <=? BPM_STABILITY_TOLERANCE)%float = true ->
        updateStableCandidate m s
        = set_candidate (Some (c * 0.7 + m * 0.3)%float)
            (currentStabilityCounter s + 1) s)
  /\ (forall c,
        currentStableBpmCandidate s = Some c ->
        (PrimFloat.abs (m - c) <=? BPM_STABILITY_TOLERANCE)%float = false ->
        updateStableCandidate m s = set_candidate (Some m) 1 s).
Proof.
  unfold updateStableCandidate.
  repeat split; [ intros -> | intros c -> -> | intros c -> -> ]; reflexivity.
Qed.

Lemma updateStableCandidate_wf m s :
  wf_state s -> bpmInRange m = true ->
  wf_state (updateStableCandidate m s)
  /\ exists c',
       currentStableBpmCandidate (updateStableCandidate m s) = Some c'
       /\ candidateInRange c' = true.
Proof.
  intros Hwf Hm. pose proof (wf_stable s Hwf) as Hst.
  unfold updateStableCandidate.
  destruct (currentStableBpmCandidate s) as [c |] eqn:Hc; cbn [optionAll] in Hst;
    [ destruct (PrimFloat.abs (m - c) <=? BPM_STABILITY_TOLERANCE)%float | ];
    (split; [ destruct Hwf; split; cbn; try assumption | eexists; split; [ reflexivity | ] ]);
    auto using blend_in_range, bpm_is_candidate.
Qed.

Lemma lockBpm_wf s : wf_state s -> wf_state (fst (lockBpm s)).
Proof.
  intros Hwf.
  destruct (Nat.leb_spec REQUIRED_STABILITY_COUNT
              (length (stableBpmCandidateBuffer s))) as [Hlen | Hlen].
  - destruct (lockBpm_enough s Hwf Hlen) as (m & _ & Hin & ->).
    destruct (updateStableCandidate_wf m s Hwf Hin) as (Hwf1 & c' & Hc' & Hr).
    unfold lockOutcome.
    destruct (Nat.leb REQUIRED_STABILITY_COUNT
                (currentStabilityCounter (updateStableCandidate m s))).
    + cbn [fst]. rewrite Hc'. cbn [Math_round_opt].
      destruct Hwf1. split; cbn; try assumption.
      now apply Math_round_candidate.
    + destruct (lockedBpm (updateStableCandidate m s)); [ exact Hwf1 | ].
      rewrite Hc'. exact Hwf1.
  - unfold lockBpm.
    destruct (Nat.leb_spec REQUIRED_STABILITY_COUNT
                (length (stableBpmCandidateBuffer s))); [ lia | ].
    destruct (lockedBpm s); exact Hwf.
Qed.

Lemma badSignal_wf signal s : wf_state s -> wf_state (fst (badSignal signal s)).
Proof.
  intros Hwf. unfold badSignal.
  set (s1 := if negb (status signal =? lastSignalQualityStatus s)%string
             then set_lastSignalQualityStatus (status signal) s else s).
  assert (Hwf1 : wf_state s1).
  { unfold s1. destruct (negb _); [ destruct Hwf; split; cbn; assumption | exact Hwf ]. }
  destruct (lockedBpm s1) eqn:Hl; cbn [fst]; [ exact Hwf1 | ].
  split; cbn; [ constructor | constructor
              | unfold STABLE_BPM_CANDIDATE_BUFFER_SIZE; lia | exact I | ].
  rewrite Hl. exact I.
Qed.

Lemma processFrame_wf s f : wf_state s -> wf_state (fst (processFrame s f)).
Proof.
  intros Hwf. unfold processFrame.
  destruct (videoReady f); cbn [negb]; [ | exact Hwf ].
  set (s0 := set_SAMPLE_BUFFER _ s).
  assert (Hwf0 : wf_state s0) by (destruct Hwf; split; cbn; assumption).
  destruct (good _); cbn [negb].
  - apply lockBpm_wf, updateCandidates_wf.
    destruct Hwf0; split; cbn; assumption.
  - now apply badSignal_wf.
Qed.

Lemma reachable_wf s : reachable s -> wf_state s.
Proof.
  induction 1 as [| s f _ IH]; [ exact wf_initialState | now apply processFrame_wf ].
Qed.

Lemma reachable_run_from s frames : reachable s -> reachable (run s frames).
Proof.
  revert s. induction frames as [| f frames IH]; intros s Hs; [ exact Hs | ].
  change (run s (f :: frames)) with (run (fst (processFrame s f)) frames).
  apply IH. now constructor.
Qed.

Lemma reachable_run frames : reachable (run initialState frames).
Proof. apply reachable_run_from. constructor. Qed.

(** Every state of a monitoring session holds at most 300 samples, raw
    BPMs and candidate medians within [30, 220], at most five candidate
    medians, a stable candidate within [29, 221] and a locked BPM that
    is a whole number. *)
Theorem reachable_values_in_range :
  forall s : State,
    reachable s ->
    length (SAMPLE_BUFFER s) <= MAX_SAMPLES
    /\ Forall (fun rb => ((30 <=? bpm rb) && (bpm rb <=? 220))%float = true)
         (recentValidRawBpms s)
    /\ Forall (fun c => ((30 <=? c) && (c <=? 220))%float = true)
         (stableBpmCandidateBuffer s)
    /\ length (stableBpmCandidateBuffer s) <= STABLE_BPM_CANDIDATE_BUFFER_SIZE
    /\ (forall c, currentStableBpmCandidate s = Some c ->
                  ((29 <=? c) && (c <=? 221))%float = true)
    /\ (forall l, lockedBpm s = Some l -> isIntegerBpm l).
Proof.
  intros s Hreach. pose proof (reachable_wf s Hreach) as [H1 H2 H3 H4 H5].
  split.
  { clear H1 H2 H3 H4 H5. induction Hreach as [| s f _ IH]; [ cbn; lia | ].
    rewrite processFrame_SAMPLE_BUFFER.
    destruct (videoReady f); [ now apply pushBounded_length | exact IH ]. }
  repeat split; try assumption.
  - intros c Hc. rewrite Hc in H4. exact H4.
  - intros l Hl. rewrite Hl in H5. exact H5.
Qed.

Lemma reachable_values_in_range_witness :
  length (SAMPLE_BUFFER (run initialState (pulse 208))) <= MAX_SAMPLES.
Proof.
  exact (proj1 (reachable_values_in_range (run initialState (pulse 208))
                  (reachable_run (pulse 208)))).
Defined.

(** ** Ticks with a good signal *)

Lemma processFrame_good_lockBpm s f :
  videoReady f = true -> good (tickSignal s f) = true ->
  processFrame s f = lockBpm (beforeLock s f).
Proof. intros Hready Hgood. now rewrite processFrame_good. Qed.

Lemma updateCandidates_lock_state rawBpm now rng s :
  currentStableBpmCandidate (updateCandidates rawBpm now rng s)
  = currentStableBpmCandidate s
  /\ currentStabilityCounter (updateCandidates rawBpm now rng s)
     = currentStabilityCounter s
  /\ lockedBpm (updateCandidates rawBpm now rng s) = lockedBpm s.
Proof.
  unfold updateCandidates.
  repeat match goal with
         | |- context [match ?c with _ => _ end] => destruct c
         end; repeat split; reflexivity.
Qed.

Lemma beforeLock_lock_state s f :
  currentStableBpmCandidate (beforeLock s f) = currentStableBpmCandidate s
  /\ currentStabilityCounter (beforeLock s f) = currentStabilityCounter s
  /\ lockedBpm (beforeLock s f) = lockedBpm s.
Proof.
  unfold beforeLock.
  match goal with
  | |- context [updateCandidates ?r ?n ?g ?st] =>
      destruct (updateCandidates_lock_state r n g st) as (-> & -> & ->)
  end.
  repeat split; reflexivity.
Qed.

Lemma beforeLock_wf s f : wf_state s -> wf_state (beforeLock s f).
Proof.
  intros Hwf. unfold beforeLock. apply updateCandidates_wf.
  destruct Hwf; split; cbn; assumption.
Qed.

Lemma lockBpm_buffers s :
  recentValidRawBpms (fst (lockBpm s)) = recentValidRawBpms s
  /\ stableBpmCandidateBuffer (fst (lockBpm s)) = stableBpmCandidateBuffer s.
Proof.
  unfold lockBpm, updateStableCandidate.
  repeat match goal with
         | |- context [match ?c with _ => _ end] => destruct c
         end; split; reflexivity.
Qed.

(** C1. On every tick of a monitoring session that reaches the stabilizer
    (the signal is good) with at least [REQUIRED_STABILITY_COUNT] = 3
    candidate medians in the buffer, the median of the buffer exists and the
    state is updated by it: with no stable candidate, the candidate becomes
    the median and the counter 1; with a stable candidate within
    [BPM_STABILITY_TOLERANCE] = 3 of the median, the counter is incremented
    and the candidate becomes [0.7 * candidate + 0.3 * median]; otherwise
    the candidate becomes the median and the counter 1. Whenever the counter
    is then 3 or more, [lockedBpm] is set to the rounded stable candidate,
    a whole number, and that number is what is displayed. *)
Theorem stabilizer_updates_and_locks :
  forall (s : State) (f : Frame),
    reachable s ->
    videoReady f = true ->
    good (tickSignal s f) = true ->
    REQUIRED_STABILITY_COUNT
    <= length (stableBpmCandidateBuffer (beforeLock s f)) ->
    exists medianOfCandidates : number,
      calculateMedian (stableBpmCandidateBuffer (beforeLock s f))
      = Some medianOfCandidates
      /\ let s' := fst (processFrame s f) in
         let shown := snd (processFrame s f) in
         REQUIRED_STABILITY_COUNT = 3
         /\ BPM_STABILITY_TOLERANCE = 3%float
         /\ (currentStableBpmCandidate s = None ->
             currentStableBpmCandidate s' = Some medianOfCandidates
             /\ currentStabilityCounter s' = 1)
         /\ (forall c : number,
               currentStableBpmCandidate s = Some c ->
               (PrimFloat.abs (medianOfCandidates - c)
                <=? BPM_STABILITY_TOLERANCE)%float = true ->
               currentStableBpmCandidate s'
               = Some (c * 0.7 + medianOfCandidates * 0.3)%float
               /\ currentStabilityCounter s' = currentStabilityCounter s + 1)
         /\ (forall c : number,
               currentStableBpmCandidate s = Some c ->
               (PrimFloat.abs (medianOfCandidates - c)
                <=? BPM_STABILITY_TOLERANCE)%float = false ->
               currentStableBpmCandidate s' = Some medianOfCandidates
               /\ currentStabilityCounter s' = 1)
         /\ (REQUIRED_STABILITY_COUNT <= currentStabilityCounter s' ->
             exists c' : number,
               currentStableBpmCandidate s' = Some c'
               /\ lockedBpm s' = Some (Math_round c')
               /\ isIntegerBpm (Math_round c')
               /\ shown = Some (DNumber (Math_round c'))).
Proof.
  intros s f Hreach Hready Hgood Hlen.
  pose proof (beforeLock_wf s f (reachable_wf s Hreach)) as Hwf.
  destruct (lockBpm_enough _ Hwf Hlen) as (m & Hm & Hin & Hlock).
  exists m. split; [ exact Hm | ]. cbn zeta.
  rewrite (processFrame_good_lockBpm s f Hready Hgood), Hlock.
  destruct (beforeLock_lock_state s f) as (Hc & Hn & Hl).
  destruct (updateStableCandidate_cases m (beforeLock s f)) as (Hnone & Hnear & Hfar).
  destruct (updateStableCandidate_wf m _ Hwf Hin) as (_ & c' & Hc' & Hr).
  destruct (lockOutcome_candidate (updateStableCandidate m (beforeLock s f)))
    as (Hfc & Hfn).
  split; [ reflexivity | ]. split; [ reflexivity | ].
  rewrite Hfc, Hfn.
  split.
  { intros Hnone'. rewrite <- Hc in Hnone'. rewrite (Hnone Hnone').
    split; reflexivity. }
  split.
  { intros c Hsome Hclose. rewrite <- Hc in Hsome. rewrite <- Hn.
    rewrite (Hnear c Hsome Hclose). split; reflexivity. }
  split.
  { intros c Hsome Haway. rewrite <- Hc in Hsome.
    rewrite (Hfar c Hsome Haway). split; reflexivity. }
  intros Hcount. unfold lockOutcome.
  destruct (Nat.leb_spec REQUIRED_STABILITY_COUNT
              (currentStabilityCounter (updateStableCandidate m (beforeLock s f))));
    [ | lia ].
  exists c'. rewrite Hc'. cbn [Math_round_opt fst snd set_lockedBpm lockedBpm].
  repeat split; try reflexivity. now apply Math_round_candidate.
Qed.

Lemma stabilizer_updates_and_locks_witness :
  exists medianOfCandidates : number,
    calculateMedian
      (stableBpmCandidateBuffer
         (beforeLock (run initialState (pulse 206)) (pulseFrame 206)))
    = Some medianOfCandidates.
Proof.
  destruct (stabilizer_updates_and_locks
              (run initialState (pulse 206)) (pulseFrame 206))
    as (m & Hm & _).
  - apply reachable_run.
  - reflexivity.
  - vm_compute. reflexivity.
  - apply Nat.leb_le. vm_compute. reflexivity.
  - exists m. exact Hm.
Defined.

(** ** The consistency filter *)

(** C3, as the code has it. On every tick that accepts a raw BPM estimate
    (good signal, estimate within [30, 220]) -- the only ticks on which the
    consistency filter is evaluated -- the new observation is appended and
    every observation whose age is not strictly below
    [RAW_BPM_VALIDITY_WINDOW_MS] = 2000 is evicted before the test, so the
    window the test sees retains exactly the observations with
    [now - time < 2000]. Then, with at least 3 observations left and a spread
    of their BPMs of at most 10, their median exists and is pushed into the
    candidate buffer, which keeps its last 5 entries (first in, first out);
    with a greater spread, or fewer observations, the candidate buffer is
    left as it is, and the window is not cleared. *)
Theorem consistency_filter_on_accepted_estimate :
  forall (s : State) (f : Frame) (r : number),
    reachable s ->
    videoReady f = true ->
    good (tickSignal s f) = true ->
    tickRawBpm s f = Some r ->
    rawBpmAccepted (Some r) = true ->
    let now := currentTime f in
    let observation := mkRawBpm r now (range (tickStats s f)) in
    let s' := fst (processFrame s f) in
    let recent := recentValidRawBpms s' in
    let bpms := map bpm recent in
    let spreadOk :=
      (Math_max bpms - Math_min bpms <=? RAW_BPM_CONSISTENCY_THRESHOLD)%float in
    let candidates := stableBpmCandidateBuffer s in
    (RAW_BPM_VALIDITY_WINDOW_MS = 2000%float
     /\ MIN_CONSISTENT_RAW_BPMS_FOR_CANDIDATE = 3
     /\ RAW_BPM_CONSISTENCY_THRESHOLD = 10%float
     /\ STABLE_BPM_CANDIDATE_BUFFER_SIZE = 5)
    /\ recent
       = filter (fun rb => (now - rb_time rb <? 2000)%float)
           (recentValidRawBpms s ++ [observation])
    /\ (forall rb : RawBpm,
          In rb recent
          <-> In rb (recentValidRawBpms s ++ [observation])
              /\ (now - rb_time rb <? 2000)%float = true)
    /\ (3 <= length recent -> spreadOk = true ->
        exists m : number,
          calculateMedian bpms = Some m
          /\ stableBpmCandidateBuffer s'
             = skipn (length candidates + 1 - 5) (candidates ++ [m]))
    /\ (spreadOk = false -> stableBpmCandidateBuffer s' = candidates)
    /\ (length recent < 3 -> stableBpmCandidateBuffer s' = candidates)
    /\ length (stableBpmCandidateBuffer s') <= 5.
Proof.
  intros s f r Hreach Hready Hgood Hraw Hacc now observation s' recent bpms
    spreadOk candidates.
  pose proof (reachable_wf s Hreach) as Hwf.
  rewrite rawBpmAccepted_Some in Hacc.
  set (s0 := set_lastSignalQualityStatus (status (tickSignal s f))
               (set_SAMPLE_BUFFER
                  (pushBounded MAX_SAMPLES (SAMPLE_BUFFER s) (sampleOf f)) s)).
  assert (Hwf0 : wf_state s0) by (destruct Hwf; split; cbn; assumption).
  assert (Hs' : s' = fst (lockBpm (updateCandidates (Some r) now
                                     (range (tickStats s f)) s0))).
  { unfold s'. rewrite (processFrame_good_lockBpm s f Hready Hgood).
    unfold beforeLock. rewrite Hraw. reflexivity. }
  destruct (lockBpm_buffers (updateCandidates (Some r) now
                               (range (tickStats s f)) s0)) as (Hrec & Hbuf).
  assert (Hrecent : recent = agedWindow r now (range (tickStats s f)) s0).
  { unfold recent. rewrite Hs', Hrec, updateCandidates_accepted by assumption.
    cbn zeta.
    repeat match goal with
           | |- context [match ?c with _ => _ end] => destruct c
           end; reflexivity. }
  assert (Hcand : stableBpmCandidateBuffer s'
                  = stableBpmCandidateBuffer
                      (updateCandidates (Some r) now (range (tickStats s f)) s0))
    by (now rewrite Hs', Hbuf).
  split; [ repeat split; reflexivity | ].
  split; [ exact Hrecent | ].
  split.
  { intros rb. rewrite Hrecent. unfold agedWindow. rewrite filter_In. reflexivity. }
  split.
  { intros Hlen Hspread. unfold spreadOk, bpms in Hspread.
    rewrite Hrecent in Hlen, Hspread.
    destruct (updateCandidates_consistent r now _ s0 Hwf0 Hacc Hlen Hspread)
      as (m & Hm & _ & Hupd).
    exists m. unfold bpms. rewrite Hrecent. split; [ exact Hm | ].
    rewrite Hcand, Hupd. cbn [stableBpmCandidateBuffer set_stableBpmCandidateBuffer].
    apply pushBounded_skipn. apply (wf_candidates_length s Hwf). }
  split.
  { intros Hspread. unfold spreadOk, bpms in Hspread. rewrite Hrecent in Hspread.
    rewrite Hcand, updateCandidates_accepted by assumption. cbn zeta.
    rewrite Hspread.
    destruct (Nat.leb _ _); reflexivity. }
  split.
  { intros Hlen. rewrite Hrecent in Hlen.
    rewrite Hcand, updateCandidates_accepted by assumption. cbn zeta.
    destruct (Nat.leb_spec MIN_CONSISTENT_RAW_BPMS_FOR_CANDIDATE
                (length (agedWindow r now (range (tickStats s f)) s0)));
      [ unfold MIN_CONSISTENT_RAW_BPMS_FOR_CANDIDATE in *; lia | reflexivity ]. }
  apply (wf_candidates_length s').
  apply reachable_wf. unfold s'. now constructor.
Qed.

Lemma consistency_filter_on_accepted_estimate_witness :
  length
    (recentValidRawBpms
       (fst (processFrame (run initialState (pulse 206)) (pulseFrame 206))))
  <= 7.
Proof.
  destruct (consistency_filter_on_accepted_estimate
              (run initialState (pulse 206)) (pulseFrame 206) 75%float)
    as (_ & Hrecent & _).
  - apply reachable_run.
  - reflexivity.
  - vm_compute. reflexivity.
  - vm_compute. reflexivity.
  - reflexivity.
  - rewrite Hrecent. apply Nat.leb_le. vm_compute. reflexivity.
Defined.

(** The claim C3 as stated fails: the window is aged only on the ticks that
    accept an estimate. Once the racing signal fills the buffer, the ticks
    are good but their estimate, above 220, is rejected; the tick at
    6728 ms leaves in the window an observation made at 4200 ms, whose age
    is not below 2000. *)
Lemma window_keeps_stale_observation :
  good (tickSignal racingState (racingFrame 358)) = true
  /\ rawBpmAccepted (tickRawBpm racingState (racingFrame 358)) = false
  /\ exists rb : RawBpm,
       In rb
         (recentValidRawBpms (fst (processFrame racingState (racingFrame 358))))
       /\ (RAW_BPM_VALIDITY_WINDOW_MS
           <=? currentTime (racingFrame 358) - rb_time rb)%float = true.
Proof.
  split; [ vm_compute; reflexivity | ].
  split; [ vm_compute; reflexivity | ].
  apply existsb_exists. vm_compute. reflexivity.
Qed.

(** ** What a tick displays *)

Lemma bad_verdict_status samples dataStats :
  good (analyzeSignalQuality samples dataStats) = false ->
  In (status (analyzeSignalQuality samples dataStats))
    [ "Analyzing..."; "Low Signal (Place finger firmly)";
      "Noisy Signal (Hold still)"; "Detecting Pulse..." ]%string.
Proof.
  rewrite analyzeSignalQuality_rules.
  repeat match goal with
         | |- context [if ?c then _ else _] => destruct c
         end; cbn [good status In]; intros H; try discriminate H; auto.
Qed.

Lemma lockBpm_display s :
  wf_state s ->
  forall shown, snd (lockBpm s) = Some shown -> displayAllowed (fst (lockBpm s)) shown.
Proof.
  intros Hwf shown.
  destruct (Nat.leb_spec REQUIRED_STABILITY_COUNT
              (length (stableBpmCandidateBuffer s))) as [Hlen | Hlen].
  - destruct (lockBpm_enough s Hwf Hlen) as (m & _ & Hin & ->).
    destruct (updateStableCandidate_wf m s Hwf Hin) as (Hwf1 & c' & Hc' & Hr).
    unfold lockOutcome.
    destruct (Nat.leb REQUIRED_STABILITY_COUNT
                (currentStabilityCounter (updateStableCandidate m s))).
    + cbn [fst snd]. intros [= <-]. rewrite Hc'. cbn [Math_round_opt].
      split; [ reflexivity | now apply Math_round_candidate ].
    + destruct (lockedBpm (updateStableCandidate m s)) as [l |] eqn:Hl.
      * cbn [fst snd]. intros [= <-]. split; [ exact Hl | ].
        pose proof (wf_locked _ Hwf1) as Hint. now rewrite Hl in Hint.
      * rewrite Hc'. cbn [fst snd]. intros [= <-].
        split; [ exact Hl | ].
        split; [ exists c'; split; [ exact Hc' | reflexivity ] | ].
        now apply Math_round_candidate.
  - unfold lockBpm.
    destruct (Nat.leb_spec REQUIRED_STABILITY_COUNT
                (length (stableBpmCandidateBuffer s))); [ lia | ].
    destruct (lockedBpm s) as [l |] eqn:Hl; cbn [fst snd]; intros [= <-].
    + split; [ exact Hl | ].
      pose proof (wf_locked _ Hwf) as Hint. now rewrite Hl in Hint.
    + unfold displayAllowed, tickStatusStrings. cbn [In]. tauto.
Qed.

Lemma badSignal_display samples dataStats s :
  good (analyzeSignalQuality samples dataStats) = false ->
  forall shown,
    snd (badSignal (analyzeSignalQuality samples dataStats) s) = Some shown ->
    displayAllowed (fst (badSignal (analyzeSignalQuality samples dataStats) s))
      shown.
Proof.
  intros Hbad shown. pose proof (bad_verdict_status samples dataStats Hbad) as Hst.
  unfold badSignal.
  destruct (negb _);
    match goal with
    | |- context [match lockedBpm ?x with _ => _ end] => destruct (lockedBpm x)
    end; cbn [fst snd]; intros [= <-].
  all: unfold displayAllowed, tickStatusStrings; cbn [In] in *; tauto.
Qed.

(** C9. Whatever a tick of a monitoring session displays is one of: the
    locked BPM, a whole number; the rounded stable candidate, a whole number
    marked as tentative, shown while nothing is locked; or one of the status
    strings "Analyzing...", "Low Signal (Place finger firmly)",
    "Noisy Signal (Hold still)", "Detecting Pulse...", "Calculating...",
    "Detecting...". Nothing else is ever displayed by a tick; a tick may
    also leave the display as it is. *)
Theorem displayed_value_is_bpm_or_status :
  forall (s : State) (f : Frame),
    reachable s ->
    match snd (processFrame s f) with
    | None => True
    | Some (DNumber n) =>
        lockedBpm (fst (processFrame s f)) = Some n /\ isIntegerBpm n
    | Some (DTentative n) =>
        lockedBpm (fst (processFrame s f)) = None
        /\ (exists c,
              currentStableBpmCandidate (fst (processFrame s f)) = Some c
              /\ n = Math_round c)
        /\ isIntegerBpm n
    | Some (DStatus str) =>
        In str
          [ "Analyzing..."; "Low Signal (Place finger firmly)";
            "Noisy Signal (Hold still)"; "Detecting Pulse...";
            "Calculating..."; "Detecting..." ]%string
    end.
Proof.
  intros s f Hreach. pose proof (reachable_wf s Hreach) as Hwf.
  destruct (snd (processFrame s f)) as [shown |] eqn:Hshown; [ | exact I ].
  change (displayAllowed (fst (processFrame s f)) shown).
  destruct (videoReady f) eqn:Hready;
    [ | unfold processFrame in Hshown; rewrite Hready in Hshown; discriminate ].
  destruct (good (tickSignal s f)) eqn:Hgood.
  - rewrite (processFrame_good_lockBpm s f Hready Hgood) in *.
    apply lockBpm_display; [ now apply beforeLock_wf | exact Hshown ].
  - rewrite (processFrame_bad s f Hready Hgood) in *.
    unfold tickSignal in *. cbn zeta in *.
    now apply badSignal_display.
Qed.

Lemma displayed_value_is_bpm_or_status_witness :
  snd (processFrame (run initialState (pulse 206)) (pulseFrame 206))
  = Some (DNumber 75)
  /\ isIntegerBpm 75.
Proof.
  split; [ vm_compute; reflexivity | ].
  pose proof (displayed_value_is_bpm_or_status
                (run initialState (pulse 206)) (pulseFrame 206)
                (reachable_run (pulse 206))) as H.
  replace (snd (processFrame (run initialState (pulse 206)) (pulseFrame 206)))
    with (Some (DNumber 75)) in H by (vm_compute; reflexivity).
  exact (proj2 H).
Defined.

(** ** The noise rule on a noisy buffer *)

(** C2 fails on the code. On the flickering buffer there are enough samples,
    the range (1) is above its minimum and the standard deviation (0.5)
    divided by the range exceeds [MAX_SIGNAL_STD_DEV_RATIO]; yet the gate
    answers "Good Signal", because [calculateStdDev] is NaN. *)
Theorem flicker_is_noisy_but_passes :
  let dataStats := analyzeData flickerBuffer in
  let sampleValues := map value flickerBuffer in
  MIN_SAMPLES_FOR_ANALYSIS <= length flickerBuffer
  /\ (range dataStats <? MIN_SIGNAL_RANGE)%float = false
  /\ (MAX_SIGNAL_STD_DEV_RATIO
      <? standardDeviation sampleValues (average dataStats) / range dataStats)%float
     = true
  /\ calculateStdDev sampleValues (average dataStats) = nan
  /\ analyzeSignalQuality flickerBuffer dataStats = mkSignal true "Good Signal".
Proof.
  cbv zeta. split; [ apply Nat.leb_le; vm_compute; reflexivity | ].
  repeat split; vm_compute; reflexivity.
Qed.

(** ** Scenarios *)

(** The steady pulse of 75 BPM: the display goes through "Analyzing...",
    "Detecting Pulse...", "Detecting..." and the tentative 75, the lock is
    taken at the 207th tick, and from then on every tick of the next 294
    displays the locked 75. *)
Theorem steady_pulse_locks_at_75 :
  lockedBpm (run initialState (pulse 206)) = None
  /\ lockedBpm (run initialState (pulse 207)) = Some 75%float
  /\ skipn 206 (displays initialState (pulse 500))
     = repeat (Some (DNumber 75)) 294.
Proof. repeat split; vm_compute; reflexivity. Qed.

(** A constant signal. *)




Lemma pushBounded_Forall {A : Type} (P : A -> Prop) (capacity : nat)
    (buffer : list A) (x : A) :
  Forall P buffer -> P x -> Forall P (pushBounded capacity buffer x).
Proof.
  intros Hb Hx. apply Forall_forall. intros y Hy.
  apply pushBounded_In in Hy. rewrite Forall_forall in Hb.
  destruct Hy as [Hy | ->]; auto.
Qed.






(** ** The median *)

Lemma filter_nil_Forall {A : Type} (p : A -> bool) (l : list A) :
  filter p l = [] <-> Forall (fun x => p x = false) l.
Proof.
  induction l as [| a l IH]; cbn; [ split; constructor | ].
  destruct (p a) eqn:E.
  - split; [ discriminate | ]. intros H. inversion H. congruence.
  - rewrite IH. split; [ now constructor | ]. intros H. now inversion H.
Qed.

Lemma calculateMedian_sorted (arr : list number) :
  arr <> [] ->
  let sortedArr := sort_numbers (filter (fun val => negb (isNaN val)) arr) in
  let len := length sortedArr in
  calculateMedian arr
  = if Nat.eqb len 0 then None
    else if Nat.even len
         then Some ((nth (len / 2 - 1) sortedArr nan + nth (len / 2) sortedArr nan) / 2)%float
         else Some (nth (len / 2) sortedArr nan).
Proof.
  intros Hne. destruct arr as [| a arr]; [ contradiction | ].
  cbv zeta. unfold calculateMedian.
  set (sortedArr := sort_numbers _). clearbody sortedArr.
  destruct (Nat.eqb_spec (length sortedArr) 0) as [H0 | H0]; [ reflexivity | ].
  destruct (Nat.even (length sortedArr)) eqn:Hev.
  - apply Nat.even_spec in Hev. destruct Hev as [k Hk].
    assert (Hmod : length sortedArr mod 2 = 0).
    { rewrite Hk, Nat.mul_comm. apply Nat.Div0.mod_mul. }
    assert (Hdiv : length sortedArr / 2 = k).
    { rewrite Hk, Nat.mul_comm. apply Nat.div_mul. discriminate. }
    rewrite Hmod, Hdiv. cbn [Nat.eqb].
    destruct (Nat.eqb_spec k 0) as [-> | Hk0]; [ lia | ].
    destruct (Nat.ltb_spec (length sortedArr) 2); [ lia | reflexivity ].
  - assert (Hodd : Nat.odd (length sortedArr) = true)
      by (unfold Nat.odd; now rewrite Hev).
    apply Nat.odd_spec in Hodd. destruct Hodd as [k Hk].
    assert (Hmod : length sortedArr mod 2 = 1).
    { rewrite Hk, Nat.add_comm, Nat.mul_comm, Nat.Div0.mod_add. reflexivity. }
    rewrite Hmod. reflexivity.
Qed.

(** [calculateMedian] answers [null] exactly when its array holds no number
    other than NaN (so also when it is empty); otherwise it answers an entry
    of the array, when the count of the numbers is odd, or the mean of two
    entries. The fallback [sortedArr[0] || null] of the even case is never
    taken, so a median of [0] is returned as [0], not as [null]. *)
Theorem calculateMedian_null_iff_no_number :
  forall arr : list number,
    (calculateMedian arr = None <-> Forall (fun x => isNaN x = true) arr)
    /\ (forall m : number,
          calculateMedian arr = Some m ->
          exists a b : number,
            In a arr /\ In b arr /\ isNaN a = false /\ isNaN b = false
            /\ (m = a \/ m = ((a + b) / 2)%float)).
Proof.
  intros arr.
  destruct arr as [| x arr]; [ split; [ split; [ constructor | reflexivity ] | discriminate ] | ].
  set (l := x :: arr).
  assert (Hne : l <> []) by discriminate.
  pose proof (calculateMedian_sorted l Hne) as Hm. cbv zeta in Hm.
  set (numbers := filter (fun val => negb (isNaN val)) l) in *.
  assert (Hlen : length (sort_numbers numbers) = length numbers)
    by apply sort_numbers_length.
  assert (Hin : forall i, i < length numbers ->
                  In (nth i (sort_numbers numbers) nan) l
                  /\ isNaN (nth i (sort_numbers numbers) nan) = false).
  { intros i Hi.
    assert (H : In (nth i (sort_numbers numbers) nan) numbers).
    { apply sort_numbers_In. apply nth_In. now rewrite Hlen. }
    apply filter_In in H. destruct H as [H1 H2].
    split; [ exact H1 | ]. now destruct (isNaN _). }
  rewrite Hlen in Hm.
  split.
  - split.
    + intros Hnone. rewrite Hnone in Hm.
      destruct (Nat.eqb_spec (length numbers) 0) as [H0 | H0].
      * apply length_zero_iff_nil in H0. apply filter_nil_Forall in H0.
        eapply Forall_impl; [ | exact H0 ]. cbn. intros a Ha.
        now destruct (isNaN a).
      * destruct (Nat.even _); discriminate.
    + intros Hall. rewrite Hm.
      assert (H0 : numbers = []).
      { apply filter_nil_Forall. eapply Forall_impl; [ | exact Hall ].
        cbn. intros a ->. reflexivity. }
      rewrite H0. reflexivity.
  - intros m Hsome. rewrite Hsome in Hm.
    destruct (Nat.eqb_spec (length numbers) 0) as [H0 | H0]; [ discriminate | ].
    assert (Hhalf : length numbers / 2 < length numbers)
      by (apply Nat.div_lt; lia).
    destruct (Nat.even (length numbers)).
    + injection Hm as ->.
      destruct (Hin (length numbers / 2 - 1)) as [Ha1 Ha2]; [ lia | ].
      destruct (Hin (length numbers / 2)) as [Hb1 Hb2]; [ lia | ].
      exists (nth (length numbers / 2 - 1) (sort_numbers numbers) nan),
        (nth (length numbers / 2) (sort_numbers numbers) nan).
      repeat split; try assumption. now right.
    + injection Hm as ->.
      destruct (Hin (length numbers / 2)) as [Ha1 Ha2]; [ lia | ].
      exists (nth (length numbers / 2) (sort_numbers numbers) nan),
        (nth (length numbers / 2) (sort_numbers numbers) nan).
      repeat split; try assumption. now left.
Qed.

(** ** The bookkeeping of the stabilizer *)

Lemma pushBounded_length_ge {A : Type} (capacity : nat) (buffer : list A) (x : A) :
  length buffer <= length (pushBounded capacity buffer x).
Proof.
  unfold pushBounded.
  destruct (Nat.ltb capacity (length (buffer ++ [x])));
    [ destruct buffer; cbn; rewrite ?length_app; cbn; lia | rewrite length_app; lia ].
Qed.

Lemma pushBounded_length_le {A : Type} (capacity : nat) (buffer : list A) (x : A) :
  length (pushBounded capacity buffer x) <= length buffer + 1.
Proof.
  unfold pushBounded.
  destruct (Nat.ltb capacity (length (buffer ++ [x])));
    [ destruct buffer; cbn; rewrite ?length_app; cbn; lia | rewrite length_app; cbn; lia ].
Qed.

(** What [updateCandidates] does to the two buffers. *)
Lemma updateCandidates_lengths rawBpm now rng s :
  let s' := updateCandidates rawBpm now rng s in
  length (recentValidRawBpms s') <= length (recentValidRawBpms s) + 1
  /\ length (stableBpmCandidateBuffer s) <= length (stableBpmCandidateBuffer s')
  /\ length (stableBpmCandidateBuffer s') <= length (stableBpmCandidateBuffer s) + 1
  /\ (length (recentValidRawBpms s') < MIN_CONSISTENT_RAW_BPMS_FOR_CANDIDATE ->
      stableBpmCandidateBuffer s' = stableBpmCandidateBuffer s)
  /\ lastSignalQualityStatus s' = lastSignalQualityStatus s.
Proof.
  cbv zeta. unfold updateCandidates.
  destruct rawBpm as [r |]; [ | repeat split; auto; lia ].
  destruct ((30 <=? r) && (r <=? 220))%float; [ | repeat split; auto; lia ].
  set (recent := filter _ _).
  assert (Hrec : length recent <= length (recentValidRawBpms s) + 1).
  { unfold recent. etransitivity; [ apply filter_length_le | ].
    rewrite length_app. cbn. lia. }
  destruct (Nat.leb_spec MIN_CONSISTENT_RAW_BPMS_FOR_CANDIDATE (length recent));
    [ | cbn; repeat split; auto; lia ].
  destruct (_ <=? RAW_BPM_CONSISTENCY_THRESHOLD)%float;
    [ | cbn; repeat split; auto; lia ].
  destruct (calculateMedian _) as [m |]; [ | cbn; repeat split; auto; lia ].
  destruct (truthy m); [ | cbn; repeat split; auto; lia ].
  cbn. repeat split; auto.
  - apply pushBounded_length_ge.
  - apply pushBounded_length_le.
  - lia.
Qed.

(** What [lockBpm] does to the stable candidate, its counter and the lock. *)
Lemma lockBpm_cases s :
  let s' := fst (lockBpm s) in
  (s' = s
   \/ (REQUIRED_STABILITY_COUNT <= length (stableBpmCandidateBuffer s)
       /\ currentStableBpmCandidate s' <> None
       /\ 1 <= currentStabilityCounter s' <= currentStabilityCounter s + 1
       /\ (currentStableBpmCandidate s = None -> currentStabilityCounter s' = 1)
       /\ (lockedBpm s' = lockedBpm s
           \/ (REQUIRED_STABILITY_COUNT <= currentStabilityCounter s'
               /\ lockedBpm s' <> None))))
  /\ SAMPLE_BUFFER s' = SAMPLE_BUFFER s
  /\ recentValidRawBpms s' = recentValidRawBpms s
  /\ stableBpmCandidateBuffer s' = stableBpmCandidateBuffer s
  /\ lastSignalQualityStatus s' = lastSignalQualityStatus s.
Proof.
  cbv zeta. unfold lockBpm.
  destruct (Nat.leb_spec REQUIRED_STABILITY_COUNT
              (length (stableBpmCandidateBuffer s))) as [Hlen | Hlen];
    [ | destruct (lockedBpm s); cbn [fst]; auto 10 ].
  destruct (calculateMedian _) as [m |]; [ | cbn [fst]; auto 10 ].
  destruct (truthy m); [ | cbn [fst]; auto 10 ].
  set (s1 := updateStableCandidate m s).
  assert (H1 : currentStableBpmCandidate s1 <> None
               /\ 1 <= currentStabilityCounter s1 <= currentStabilityCounter s + 1
               /\ (currentStableBpmCandidate s = None -> currentStabilityCounter s1 = 1)
               /\ lockedBpm s1 = lockedBpm s
               /\ SAMPLE_BUFFER s1 = SAMPLE_BUFFER s
               /\ recentValidRawBpms s1 = recentValidRawBpms s
               /\ stableBpmCandidateBuffer s1 = stableBpmCandidateBuffer s
               /\ lastSignalQualityStatus s1 = lastSignalQualityStatus s).
  { unfold s1, updateStableCandidate.
    destruct (currentStableBpmCandidate s) as [c |];
      [ destruct (_ <=? BPM_STABILITY_TOLERANCE)%float | ];
      cbn; repeat split; try discriminate; try lia; congruence. }
  clearbody s1.
  destruct H1 as (Hc & Hn & Hnone & Hl & Hsb & Hr & Hb & Hst).
  destruct (Nat.leb_spec REQUIRED_STABILITY_COUNT (currentStabilityCounter s1))
    as [Hcnt | Hcnt].
  - cbn. split; [ right | auto ].
    repeat split; try assumption; try lia.
    right. split; [ assumption | discriminate ].
  - match goal with
    | |- context [fst ?e] =>
        assert (Hfst : fst e = s1)
          by (destruct (lockedBpm s1);
              [ | destruct (currentStableBpmCandidate s1) ]; reflexivity)
    end.
    rewrite Hfst. split; [ right | auto ].
    repeat split; try assumption; try lia. now left.
Qed.

Lemma badSignal_cases signal s :
  let s' := fst (badSignal signal s) in
  let changed := negb (String.eqb (status signal) (lastSignalQualityStatus s)) in
  snd (badSignal signal s)
  = (if changed then Some (DStatus (status signal)) else None)
  /\ SAMPLE_BUFFER s' = SAMPLE_BUFFER s
  /\ (lockedBpm s <> None ->
      s' = set_lastSignalQualityStatus (status signal) s)
  /\ (lockedBpm s = None ->
      s' = resetMeasurementState false s).
Proof.
  cbv zeta. unfold badSignal.
  destruct (String.eqb_spec (status signal) (lastSignalQualityStatus s)) as [He | He];
    cbn [negb]; destruct (lockedBpm s) as [l |] eqn:Hl;
    cbn [lockedBpm set_lastSignalQualityStatus]; rewrite ?Hl; cbn [fst snd];
    (split; [ reflexivity | ]); (split; [ reflexivity | ]);
    (split; intros H; try contradiction; try discriminate).
  - rewrite He. destruct s; reflexivity.
  - unfold resetMeasurementState. cbn. now rewrite Hl.
  - reflexivity.
  - unfold resetMeasurementState. cbn. now rewrite Hl.
Qed.

Lemma booked_initialState : booked initialState.
Proof.
  split; cbn; tauto.
Qed.

Lemma booked_reset s : lockedBpm s = None -> booked (resetMeasurementState false s).
Proof.
  intros Hl. split; cbn; rewrite ?Hl; tauto.
Qed.

Lemma booked_lockBpm s :
  booked s -> lastSignalQualityStatus s = "Good Signal"%string ->
  booked (fst (lockBpm s)).
Proof.
  intros [Hc Hb Hl Hs] Hgood.
  destruct (lockBpm_cases s) as (Hcases & _ & _ & Hbuf & Hst).
  destruct Hcases as [-> | (Hlen & Hcand & Hcnt & _ & Hlock)].
  - split; assumption.
  - split.
    + split; [ contradiction | lia ].
    + intros _. now rewrite Hbuf.
    + intros _. exact Hcand.
    + intros _. right. now rewrite Hst.
Qed.

Lemma booked_updateCandidates rawBpm now rng s :
  booked s -> booked (updateCandidates rawBpm now rng s).
Proof.
  intros [Hc Hb Hl Hs].
  destruct (updateCandidates_lock_state rawBpm now rng s) as (E1 & E2 & E3).
  destruct (updateCandidates_lengths rawBpm now rng s) as (_ & Hge & _ & _ & Hst).
  split; rewrite ?E1, ?E2, ?E3, ?Hst; try assumption.
  intros H. specialize (Hb H). lia.
Qed.

Lemma good_verdict_status samples dataStats :
  good (analyzeSignalQuality samples dataStats) = true ->
  status (analyzeSignalQuality samples dataStats) = "Good Signal"%string
  /\ MIN_SAMPLES_FOR_ANALYSIS <= length samples.
Proof.
  rewrite analyzeSignalQuality_rules.
  destruct (Nat.ltb_spec (length samples) MIN_SAMPLES_FOR_ANALYSIS);
    [ discriminate | ].
  repeat match goal with
         | |- context [if ?c then _ else _] => destruct c
         end; cbn; try discriminate; auto.
Qed.

Lemma booked_processFrame s f : booked s -> booked (fst (processFrame s f)).
Proof.
  intros Hb.
  destruct (videoReady f) eqn:Hready;
    [ | unfold processFrame; rewrite Hready; exact Hb ].
  destruct (good (tickSignal s f)) eqn:Hgood.
  - rewrite (processFrame_good_lockBpm s f Hready Hgood).
    destruct (good_verdict_status _ _ Hgood) as [Hst _].
    fold (tickSignal s f) in Hst.
    assert (Hb1 : booked (set_lastSignalQualityStatus (status (tickSignal s f))
                            (set_SAMPLE_BUFFER
                               (pushBounded MAX_SAMPLES (SAMPLE_BUFFER s) (sampleOf f))
                               s))).
    { destruct Hb as [Hc Hbu Hl Hs]. split; cbn; try assumption.
      intros _. now right. }
    apply booked_lockBpm.
    + unfold beforeLock. now apply booked_updateCandidates.
    + unfold beforeLock.
      destruct (updateCandidates_lengths (tickRawBpm s f) (currentTime f)
                  (range (tickStats s f))
                  (set_lastSignalQualityStatus (status (tickSignal s f))
                     (set_SAMPLE_BUFFER
                        (pushBounded MAX_SAMPLES (SAMPLE_BUFFER s) (sampleOf f)) s)))
        as (_ & _ & _ & _ & ->).
      exact Hst.
  - rewrite (processFrame_bad s f Hready Hgood).
    set (s0 := set_SAMPLE_BUFFER _ s).
    assert (Hb0 : booked s0) by (destruct Hb; split; cbn; assumption).
    destruct (badSignal_cases (tickSignal s f) s0) as (_ & _ & Hlocked & Hfree).
    destruct (lockedBpm s0) as [l |] eqn:Hl.
    + rewrite Hlocked by discriminate.
      destruct Hb0 as [Hc Hbu Hlk Hs]. split; cbn; try assumption.
      change (lockedBpm s) with (lockedBpm s0). rewrite Hl. discriminate.
    + rewrite Hfree by reflexivity. now apply booked_reset.
Qed.

Lemma reachable_booked s : reachable s -> booked s.
Proof.
  induction 1 as [| s f _ IH]; [ exact booked_initialState | now apply booked_processFrame ].
Qed.

(** In every state of a monitoring session, a stable candidate exists
    exactly while the stability counter is positive, and only once the
    candidate buffer holds at least three medians; and a BPM is locked only
    while there is a stable candidate. *)
Theorem stabilizer_bookkeeping :
  forall s : State,
    reachable s ->
    (currentStableBpmCandidate s = None <-> currentStabilityCounter s = 0)
    /\ (currentStableBpmCandidate s <> None ->
        3 <= length (stableBpmCandidateBuffer s))
    /\ (lockedBpm s <> None ->
        currentStableBpmCandidate s <> None /\ 1 <= currentStabilityCounter s).
Proof.
  intros s Hs. destruct (reachable_booked s Hs) as [Hc Hb Hl _].
  split; [ exact Hc | ]. split; [ exact Hb | ].
  intros H. specialize (Hl H). split; [ exact Hl | ].
  destruct (currentStabilityCounter s); [ | lia ].
  exfalso. apply Hl. now apply Hc.
Qed.

Lemma stabilizer_bookkeeping_witness :
  3 <= length (stableBpmCandidateBuffer (run initialState (pulse 208))).
Proof.
  apply (stabilizer_bookkeeping (run initialState (pulse 208))).
  - apply reachable_run.
  - vm_compute. discriminate.
Defined.

(** ** The lock is kept *)

Lemma processFrame_keeps_lock s f :
  lockedBpm s <> None -> lockedBpm (fst (processFrame s f)) <> None.
Proof.
  intros Hl.
  destruct (videoReady f) eqn:Hready;
    [ | unfold processFrame; rewrite Hready; exact Hl ].
  destruct (good (tickSignal s f)) eqn:Hgood.
  - rewrite (processFrame_good_lockBpm s f Hready Hgood).
    destruct (beforeLock_lock_state s f) as (_ & _ & E).
    destruct (lockBpm_cases (beforeLock s f)) as ([-> | (_ & _ & _ & _ & [-> | [_ H]])] & _);
      congruence.
  - rewrite (processFrame_bad s f Hready Hgood).
    set (s0 := set_SAMPLE_BUFFER _ s).
    destruct (badSignal_cases (tickSignal s f) s0) as (_ & _ & -> & _);
      [ exact Hl | exact Hl ].
Qed.

(** Once a BPM is locked, no sequence of ticks unlocks it: whatever the
    frames that follow (bad signal, rejected estimates, a video that is not
    ready), every later state holds a locked BPM. Only starting or stopping
    the monitoring clears it. *)
Theorem lock_survives_every_tick :
  forall (s : State) (frames : list Frame),
    lockedBpm s <> None -> lockedBpm (run s frames) <> None.
Proof.
  intros s frames. revert s.
  induction frames as [| f frames IH]; intros s Hl; [ exact Hl | ].
  change (run s (f :: frames)) with (run (fst (processFrame s f)) frames).
  apply IH. now apply processFrame_keeps_lock.
Qed.

Lemma lock_survives_every_tick_witness :
  lockedBpm (run (run initialState (pulse 208))
               (constantFrames 0.5%float [5000; 5016; 5032]%float)) <> None.
Proof.
  apply lock_survives_every_tick. vm_compute. discriminate.
Defined.

(** ** What a tick with a bad signal displays *)

(** On a tick with a bad signal, while no BPM is locked the status string
    is displayed on every tick: the partial reset empties
    [lastSignalQualityStatus], so the test "update display only on status
    change" always succeeds. While a BPM is locked, the status string is
    displayed exactly when it differs from the stored one -- it then
    replaces the locked BPM on the display -- and it is stored. *)
Theorem bad_signal_status_display :
  forall (s : State) (f : Frame),
    reachable s ->
    videoReady f = true ->
    good (tickSignal s f) = false ->
    let verdict := status (tickSignal s f) in
    let s' := fst (processFrame s f) in
    let shown := snd (processFrame s f) in
    (lockedBpm s = None ->
     shown = Some (DStatus verdict)
     /\ lastSignalQualityStatus s' = EmptyString)
    /\ (lockedBpm s <> None ->
        shown = (if String.eqb verdict (lastSignalQualityStatus s)
                 then None else Some (DStatus verdict))
        /\ lastSignalQualityStatus s' = verdict).
Proof.
  intros s f Hreach Hready Hbad verdict s' shown. subst verdict s' shown.
  rewrite (processFrame_bad s f Hready Hbad).
  set (s0 := set_SAMPLE_BUFFER _ s).
  destruct (badSignal_cases (tickSignal s f) s0) as (Hshown & _ & Hlocked & Hfree).
  rewrite Hshown.
  change (lastSignalQualityStatus s0) with (lastSignalQualityStatus s).
  change (lockedBpm s0) with (lockedBpm s) in *.
  split.
  - intros Hl. rewrite (Hfree Hl). split; [ | reflexivity ].
    destruct (reachable_booked s Hreach) as [_ _ _ Hst].
    pose proof (bad_verdict_status _ _ Hbad) as Hin.
    fold (tickSignal s f) in Hin.
    destruct (String.eqb_spec (status (tickSignal s f)) (lastSignalQualityStatus s))
      as [He | He]; [ | reflexivity ].
    exfalso. rewrite He in Hin.
    destruct (Hst Hl) as [E | E]; rewrite E in Hin; cbn in Hin;
      repeat (destruct Hin as [Hin | Hin]; [ discriminate | ]); exact Hin.
  - intros Hl. rewrite (Hlocked Hl). split; [ | reflexivity ].
    now destruct (String.eqb _ _).
Qed.

Lemma bad_signal_status_display_witness :
  snd (processFrame initialState (mkFrame true 0.5%float 1000%float))
  = Some (DStatus "Analyzing...").
Proof.
  destruct (bad_signal_status_display initialState
              (mkFrame true 0.5%float 1000%float) reachable_start
              eq_refl eq_refl) as [H _].
  exact (proj1 (H eq_refl)).
Defined.

(** ** How early a BPM can be locked *)

Lemma within_initialState : within 0 initialState.
Proof. split; cbn; auto; lia. Qed.

Lemma within_processFrame t s f : within t s -> within (S t) (fst (processFrame s f)).
Proof.
  intros [Hs Hr Hc Hn Hl].
  destruct (videoReady f) eqn:Hready.
  2:{ unfold processFrame. rewrite Hready. cbn [negb fst].
      split; try lia. intros Ht. apply Hl. lia. }
  assert (Hpush : length (pushBounded MAX_SAMPLES (SAMPLE_BUFFER s) (sampleOf f))
                  <= S t).
  { etransitivity; [ apply pushBounded_length_le | lia ]. }
  destruct (good (tickSignal s f)) eqn:Hgood.
  - rewrite (processFrame_good_lockBpm s f Hready Hgood).
    destruct (good_verdict_status _ _ Hgood) as [_ Hlen].
    change MIN_SAMPLES_FOR_ANALYSIS with 100 in Hlen.
    unfold beforeLock.
    set (s1 := set_lastSignalQualityStatus _ _) in *.
    destruct (updateCandidates_lengths (tickRawBpm s f) (currentTime f)
                (range (tickStats s f)) s1) as (Hrec & _ & Hcle & Hcsame & _).
    destruct (updateCandidates_lock_state (tickRawBpm s f) (currentTime f)
                (range (tickStats s f)) s1) as (E1 & E2 & E3).
    set (s2 := updateCandidates _ _ _ s1) in *.
    change (recentValidRawBpms s1) with (recentValidRawBpms s) in *.
    change (stableBpmCandidateBuffer s1) with (stableBpmCandidateBuffer s) in *.
    change (currentStabilityCounter s1) with (currentStabilityCounter s) in *.
    change (lockedBpm s1) with (lockedBpm s) in *.
    change MIN_CONSISTENT_RAW_BPMS_FOR_CANDIDATE with 3 in *.
    assert (Hc2 : length (stableBpmCandidateBuffer s2) <= S t - 101).
    { destruct (Nat.lt_ge_cases (length (recentValidRawBpms s2)) 3) as [H3 | H3];
        [ rewrite (Hcsame H3); lia | lia ]. }
    destruct (lockBpm_cases s2) as (Hcases & Hsb & Hrb & Hbb & _).
    change REQUIRED_STABILITY_COUNT with 3 in *.
    split.
    + rewrite Hsb. unfold s2. rewrite updateCandidates_SAMPLE_BUFFER. exact Hpush.
    + rewrite Hrb. lia.
    + rewrite Hbb. exact Hc2.
    + destruct Hcases as [-> | (Hb3 & _ & Hcnt & _)]; lia.
    + intros Ht.
      destruct Hcases as [-> | (Hb3 & _ & Hcnt & _ & [-> | [H3 _]])];
        [ rewrite E3; apply Hl; lia | rewrite E3; apply Hl; lia | lia ].
  - rewrite (processFrame_bad s f Hready Hgood).
    set (s0 := set_SAMPLE_BUFFER _ s).
    destruct (badSignal_cases (tickSignal s f) s0) as (_ & Hsb & Hlocked & Hfree).
    change (lockedBpm s0) with (lockedBpm s) in *.
    destruct (lockedBpm s) as [l |] eqn:Hlk.
    + rewrite Hlocked by discriminate.
      split; cbn; try lia; [ exact Hpush | ].
      intros Ht. rewrite Hlk. apply Hl. lia.
    + rewrite Hfree by reflexivity.
      split; cbn; try lia; [ exact Hpush | ].
      intros _. now rewrite Hlk.
Qed.

Lemma within_run frames : forall t s,
  within t s -> within (t + length frames) (run s frames).
Proof.
  induction frames as [| f frames IH]; intros t s H.
  - now rewrite Nat.add_0_r.
  - change (run s (f :: frames)) with (run (fst (processFrame s f)) frames).
    cbn [length]. rewrite <- Nat.add_succ_comm. apply IH.
    now apply within_processFrame.
Qed.

(** From the start of the monitoring, no BPM is locked during the first 105
    ticks, whatever the frames: a good signal needs 100 samples, the first
    candidate median two more accepted estimates, the stabilizer two more
    candidate medians, and the lock two more confirmations. The bound is
    reached: a clean pulse of about 208 BPM is locked by the 106th tick. *)
Theorem no_lock_before_tick_106 :
  (forall frames : list Frame,
      length frames < 106 -> lockedBpm (run initialState frames) = None)
  /\ lockedBpm (run initialState (map quickFrame (seq 0 106))) <> None.
Proof.
  split.
  - intros frames Hlen.
    apply (within_lock _ _ (within_run frames 0 initialState within_initialState)).
    exact Hlen.
  - vm_compute. discriminate.
Qed.

(** ** What a tick with a good signal displays under a lock *)

Lemma updateStableCandidate_lock m s :
  lockedBpm (updateStableCandidate m s) = lockedBpm s.
Proof.
  unfold updateStableCandidate.
  destruct (currentStableBpmCandidate s);
    [ destruct (_ <=? _)%float | ]; reflexivity.
Qed.

(** While a BPM is locked, every tick with a good signal displays the
    locked BPM, a number: the one locked before, or the newly rounded
    stable candidate when the tick locks again. *)
Theorem good_signal_displays_the_lock :
  forall (s : State) (f : Frame),
    reachable s ->
    lockedBpm s <> None ->
    videoReady f = true ->
    good (tickSignal s f) = true ->
    exists l : number,
      snd (processFrame s f) = Some (DNumber l)
      /\ lockedBpm (fst (processFrame s f)) = Some l
      /\ isIntegerBpm l.
Proof.
  intros s f Hreach Hlock Hready Hgood.
  assert (Hwf' : wf_state (fst (processFrame s f)))
    by (apply reachable_wf; now constructor).
  rewrite (processFrame_good_lockBpm s f Hready Hgood) in *.
  pose proof (beforeLock_wf s f (reachable_wf s Hreach)) as Hwf.
  destruct (beforeLock_lock_state s f) as (_ & _ & El).
  set (s1 := beforeLock s f) in *. clearbody s1.
  destruct (lockedBpm s) as [l0 |] eqn:Hl0; [ | contradiction ].
  assert (Hshape : exists l, snd (lockBpm s1) = Some (DNumber l)
                             /\ lockedBpm (fst (lockBpm s1)) = Some l).
  { destruct (Nat.leb_spec REQUIRED_STABILITY_COUNT
                (length (stableBpmCandidateBuffer s1))) as [Hlen | Hlen].
    - destruct (lockBpm_enough s1 Hwf Hlen) as (m & _ & _ & ->).
      unfold lockOutcome.
      destruct (Nat.leb REQUIRED_STABILITY_COUNT
                  (currentStabilityCounter (updateStableCandidate m s1))).
      + eexists. split; reflexivity.
      + rewrite updateStableCandidate_lock, El.
        exists l0. cbn [fst snd]. rewrite updateStableCandidate_lock, El.
        split; reflexivity.
    - unfold lockBpm.
      destruct (Nat.leb_spec REQUIRED_STABILITY_COUNT
                  (length (stableBpmCandidateBuffer s1))); [ lia | ].
      rewrite El. exists l0. cbn [fst snd]. rewrite El. split; reflexivity. }
  destruct Hshape as (l & Hs & Hl). exists l.
  split; [ exact Hs | ]. split; [ exact Hl | ].
  destruct Hwf' as [_ _ _ _ Hint]. rewrite Hl in Hint. exact Hint.
Qed.

Lemma good_signal_displays_the_lock_witness :
  exists l : number,
    snd (processFrame (run initialState (pulse 208)) (pulseFrame 208))
    = Some (DNumber l).
Proof.
  destruct (good_signal_displays_the_lock
              (run initialState (pulse 208)) (pulseFrame 208))
    as (l & Hl & _).
  - apply reachable_run.
  - vm_compute. discriminate.
  - reflexivity.
  - vm_compute. reflexivity.
  - exists l. exact Hl.
Defined.

(** ** The order of the numbers *)

Section FloatOrder.
Local Open Scope Z_scope.

Lemma scaled_pos (m : positive) (e : Z) : -1074 <= e -> 0 < scaled m e.
Proof.
  intros He. unfold scaled. apply Z.mul_pos_pos; [ lia | ].
  apply Z.pow_pos_nonneg; lia.
Qed.

Lemma scaled_bound (m : positive) (e : Z) :
  dig m <= 53 -> -1074 <= e <= 971 -> scaled m e < 2 ^ 2200.
Proof.
  intros Hd He. unfold scaled.
  pose proof (dig_bounds m) as [_ Hm].
  assert (Hm' : Zpos m < 2 ^ 53).
  { eapply Z.lt_le_trans; [ exact Hm | apply Z.pow_le_mono_r; lia ]. }
  assert (Hp : 2 ^ (e + 1074) <= 2 ^ 2045) by (apply Z.pow_le_mono_r; lia).
  assert (Hg : 0 < 2 ^ (e + 1074)) by (apply Z.pow_pos_nonneg; lia).
  assert (H1 : Zpos m * 2 ^ (e + 1074) < 2 ^ 53 * 2 ^ (e + 1074))
    by (apply Z.mul_lt_mono_pos_r; assumption).
  assert (H2 : 2 ^ 53 * 2 ^ (e + 1074) <= 2 ^ 53 * 2 ^ 2045)
    by (apply Z.mul_le_mono_nonneg_l; lia).
  assert (H3 : 2 ^ 53 * 2 ^ 2045 < 2 ^ 2200).
  { rewrite <- Z.pow_add_r by lia. apply Z.pow_lt_mono_r; lia. }
  lia.
Qed.

Lemma scaled_compare (m1 m2 : positive) (e1 e2 : Z) :
  valid_binary (S754_finite false m1 e1) = true ->
  valid_binary (S754_finite false m2 e2) = true ->
  (scaled m1 e1 ?= scaled m2 e2)
  = match e1 ?= e2 with
    | Eq => Pos.compare_cont Eq m1 m2
    | Lt => Lt
    | Gt => Gt
    end.
Proof.
  intros H1 H2. apply valid_inv in H1, H2.
  destruct H1 as (He1 & Hd1 & Hn1), H2 as (He2 & Hd2 & Hn2).
  destruct (Z.compare_spec e1 e2) as [-> | Hlt | Hgt].
  - unfold scaled. change (Pos.compare_cont Eq m1 m2) with (Zpos m1 ?= Zpos m2).
    assert (Hg : 0 < 2 ^ (e2 + 1074)) by (apply Z.pow_pos_nonneg; lia).
    destruct (Z.compare_spec (Zpos m1) (Zpos m2)) as [-> | H | H].
    + apply Z.compare_refl.
    + apply Z.compare_lt_iff. now apply Z.mul_lt_mono_pos_r.
    + apply Z.compare_gt_iff. now apply Z.mul_lt_mono_pos_r.
  - apply Z.compare_lt_iff. apply scaled_exp_lt; lia.
  - apply Z.compare_gt_iff. apply scaled_exp_lt; lia.
Qed.

(** The comparison of two numbers other than NaN is that of their places. *)
Lemma SFcompare_ord (f1 f2 : spec_float) :
  valid_binary f1 = true -> valid_binary f2 = true ->
  f1 <> S754_nan -> f2 <> S754_nan ->
  SFcompare f1 f2 = Some (ordSF f1 ?= ordSF f2).
Proof.
  intros H1 H2 N1 N2.
  assert (Hbig : 0 < 2 ^ 2200) by (apply Z.pow_pos_nonneg; lia).
  assert (Hfin : forall s m e, valid_binary (S754_finite s m e) = true ->
                   0 < scaled m e < 2 ^ 2200).
  { intros s m e Hv. change (valid_binary (S754_finite false m e) = true) in Hv.
    apply valid_inv in Hv. destruct Hv as (He & Hd & _).
    split; [ apply scaled_pos; lia | apply scaled_bound; lia ]. }
  destruct f1 as [s1 | s1 | | s1 m1 e1]; [ | | contradiction | ];
    destruct f2 as [s2 | s2 | | s2 m2 e2]; try contradiction;
    try pose proof (Hfin _ _ _ H1) as B1; try pose proof (Hfin _ _ _ H2) as B2;
    cbn [SFcompare ordSF]; f_equal; symmetry.
  all: try solve [ try destruct s1; try destruct s2; cbn [cond_Zopp];
                   first [ apply Z.compare_refl
                         | apply Z.compare_lt_iff; lia
                         | apply Z.compare_gt_iff; lia ] ].
  change (valid_binary (S754_finite false m1 e1) = true) in H1.
  change (valid_binary (S754_finite false m2 e2) = true) in H2.
  pose proof (scaled_compare m1 m2 e1 e2 H1 H2) as Hc.
  destruct s1, s2; cbn [cond_Zopp].
  - rewrite Z.compare_opp, (Z.compare_antisym (scaled m1 e1) (scaled m2 e2)), Hc.
    destruct (e1 ?= e2); reflexivity.
  - apply Z.compare_lt_iff; lia.
  - apply Z.compare_gt_iff; lia.
  - exact Hc.
Qed.

Lemma isNaN_spec (x : float) : isNaN x = false <-> Prim2SF x <> S754_nan.
Proof.
  unfold isNaN, is_nan. rewrite FloatAxioms.eqb_spec. unfold SFeqb.
  split.
  - intros H Hn. rewrite Hn in H. discriminate.
  - intros Hn.
    rewrite (SFcompare_ord _ _ (Prim2SF_valid x) (Prim2SF_valid x) Hn Hn).
    now rewrite Z.compare_refl.
Qed.

Lemma compare_ord (x y : float) :
  isNaN x = false -> isNaN y = false ->
  SFcompare (Prim2SF x) (Prim2SF y) = Some (ord x ?= ord y).
Proof.
  intros Hx Hy. apply SFcompare_ord; try apply Prim2SF_valid; now apply isNaN_spec.
Qed.

Lemma ltb_ord (x y : float) :
  isNaN x = false -> isNaN y = false -> (x <? y)%float = (ord x <? ord y).
Proof.
  intros Hx Hy. rewrite FloatAxioms.ltb_spec. unfold SFltb, Z.ltb.
  rewrite (compare_ord x y Hx Hy). reflexivity.
Qed.

Lemma leb_ord (x y : float) :
  isNaN x = false -> isNaN y = false -> (x <=? y)%float = (ord x <=? ord y).
Proof.
  intros Hx Hy. rewrite FloatAxioms.leb_spec. unfold SFleb, Z.leb.
  rewrite (compare_ord x y Hx Hy). destruct (ord x ?= ord y); reflexivity.
Qed.

Lemma eqb_ord (x y : float) :
  isNaN x = false -> isNaN y = false -> (x =? y)%float = (ord x =? ord y).
Proof.
  intros Hx Hy. rewrite FloatAxioms.eqb_spec, Z.eqb_compare. unfold SFeqb.
  rewrite (compare_ord x y Hx Hy). reflexivity.
Qed.

(** A comparison that holds involves no NaN. *)
Lemma ltb_true_number (x y : float) :
  (x <? y)%float = true -> isNaN x = false /\ isNaN y = false.
Proof.
  rewrite FloatAxioms.ltb_spec. unfold SFltb. intros H.
  split; apply isNaN_spec; intros Hn; rewrite Hn in H;
    [ | destruct (Prim2SF x) ]; discriminate.
Qed.

Lemma leb_true_number (x y : float) :
  (x <=? y)%float = true -> isNaN x = false /\ isNaN y = false.
Proof.
  rewrite FloatAxioms.leb_spec. unfold SFleb. intros H.
  split; apply isNaN_spec; intros Hn; rewrite Hn in H;
    [ | destruct (Prim2SF x) ]; discriminate.
Qed.

Lemma ltb_true_ord (x y : float) : (x <? y)%float = true -> ord x < ord y.
Proof.
  intros H. destruct (ltb_true_number x y H) as [Hx Hy].
  rewrite (ltb_ord x y Hx Hy) in H. now apply Z.ltb_lt.
Qed.

Lemma leb_true_ord (x y : float) : (x <=? y)%float = true -> ord x <= ord y.
Proof.
  intros H. destruct (leb_true_number x y H) as [Hx Hy].
  rewrite (leb_ord x y Hx Hy) in H. now apply Z.leb_le.
Qed.

Lemma ltb_leb (x y : float) : (x <? y)%float = true -> (x <=? y)%float = true.
Proof.
  intros H. destruct (ltb_true_number x y H) as [Hx Hy].
  rewrite (leb_ord x y Hx Hy). apply Z.leb_le.
  pose proof (ltb_true_ord x y H). lia.
Qed.

End FloatOrder.

(** ** The extrema of the buffer *)

Lemma extrema_spec (samples : list Sample) : forall a b : number,
  isNaN a = false -> isNaN b = false ->
  Forall (fun s => isNaN (value s) = false) samples ->
  let r :=
    fold_left
      (fun '(min, max) sample =>
         (if (value sample <? min)%float then value sample else min,
          if (max <? value sample)%float then value sample else max))
      samples (a, b) in
  (fst r = a \/ In (fst r) (map value samples))
  /\ (snd r = b \/ In (snd r) (map value samples))
  /\ isNaN (fst r) = false /\ isNaN (snd r) = false
  /\ (ord (fst r) <= ord a)%Z /\ (ord b <= ord (snd r))%Z
  /\ Forall (fun s => (ord (fst r) <= ord (value s))%Z
                      /\ (ord (value s) <= ord (snd r))%Z) samples.
Proof.
  induction samples as [| s samples IH]; intros a b Ha Hb Hall; cbv zeta.
  - cbn. repeat split; auto; try lia.
  - inversion Hall as [| ? ? Hs Hrest]; subst. cbv beta in Hs.
    cbn [fold_left].
    set (a' := if (value s <? a)%float then value s else a).
    set (b' := if (b <? value s)%float then value s else b).
    assert (Ha' : isNaN a' = false)
      by (unfold a'; destruct (value s <? a)%float; assumption).
    assert (Hb' : isNaN b' = false)
      by (unfold b'; destruct (b <? value s)%float; assumption).
    assert (Hoa : (ord a' <= ord a /\ ord a' <= ord (value s))%Z
                  /\ (a' = a \/ a' = value s)).
    { unfold a'. pose proof (ltb_ord (value s) a Hs Ha) as E. rewrite E.
      destruct (Z.ltb_spec (ord (value s)) (ord a)); split; auto; lia. }
    assert (Hob : (ord b <= ord b' /\ ord (value s) <= ord b')%Z
                  /\ (b' = b \/ b' = value s)).
    { unfold b'. pose proof (ltb_ord b (value s) Hb Hs) as E. rewrite E.
      destruct (Z.ltb_spec (ord b) (ord (value s))); split; auto; lia. }
    specialize (IH a' b' Ha' Hb' Hrest). cbv zeta in IH.
    destruct IH as (I1 & I2 & I3 & I4 & I5 & I6 & I7).
    destruct Hoa as [[Ha1 Ha2] Ha3], Hob as [[Hb1 Hb2] Hb3].
    cbn [map In].
    split; [ destruct I1 as [-> | I1]; [ destruct Ha3 as [-> | ->] | ]; auto | ].
    split; [ destruct I2 as [-> | I2]; [ destruct Hb3 as [-> | ->] | ]; auto | ].
    split; [ exact I3 | ]. split; [ exact I4 | ].
    split; [ lia | ]. split; [ lia | ].
    constructor; [ lia | exact I7 ].
Qed.

(** On a non-empty buffer whose values are numbers, the [min] and the
    [max] that [analyzeData] reports are values of the buffer, every value
    lies between them, and the [range] is their difference. *)
Theorem analyzeData_extrema :
  forall samples : list Sample,
    samples <> [] ->
    Forall (fun s => isNaN (value s) = false) samples ->
    let dataStats := analyzeData samples in
    In (min dataStats) (map value samples)
    /\ In (max dataStats) (map value samples)
    /\ Forall (fun s => (min dataStats <=? value s)%float = true
                        /\ (value s <=? max dataStats)%float = true) samples
    /\ (min dataStats <=? max dataStats)%float = true
    /\ range dataStats = (max dataStats - min dataStats)%float.
Proof.
  intros samples Hne Hall. destruct samples as [| first rest]; [ contradiction | ].
  assert (Hfirst : isNaN (value first) = false) by (inversion Hall; assumption).
  pose proof (extrema_spec (first :: rest) (value first) (value first)
                Hfirst Hfirst Hall) as H.
  cbv zeta in *. unfold analyzeData. cbv beta iota zeta.
  match goal with
  | |- context [fold_left ?f (first :: rest) (value first, value first)] =>
      set (r := fold_left f (first :: rest) (value first, value first)) in *
  end.
  clearbody r. destruct r as [mn mx].
  cbn [fst snd min max range] in *.
  destruct H as (I1 & I2 & I3 & I4 & I5 & I6 & I7).
  split; [ destruct I1 as [-> | I1]; [ now left | exact I1 ] | ].
  split; [ destruct I2 as [-> | I2]; [ now left | exact I2 ] | ].
  split.
  { rewrite Forall_forall in *. intros s Hs.
    destruct (I7 s Hs) as [L U]. specialize (Hall s Hs). cbv beta in Hall.
    rewrite !leb_ord by assumption. split; apply Z.leb_le; assumption. }
  split; [ | reflexivity ].
  rewrite leb_ord by assumption. apply Z.leb_le. lia.
Qed.

Lemma analyzeData_extrema_witness :
  min (analyzeData [mkSample 0.5 0; mkSample 0.25 16; mkSample 0.75 32])
  = 0.25%float
  /\ In (max (analyzeData [mkSample 0.5 0; mkSample 0.25 16; mkSample 0.75 32]))
       [0.5; 0.25; 0.75]%float.
Proof.
  split; [ reflexivity | ].
  apply (analyzeData_extrema [mkSample 0.5 0; mkSample 0.25 16; mkSample 0.75 32]).
  - discriminate.
  - repeat constructor.
Defined.

(** ** Rounding a quotient *)

Section Division.
Local Open Scope Z_scope.

Lemma shr_iter_m (mrs : shr_record) (p : positive) :
  0 <= shr_m mrs -> shr_m (Pos.iter shr_1 mrs p) = shr_m mrs / 2 ^ Zpos p.
Proof.
  intros Hm. induction p as [| p IH] using Pos.peano_ind.
  - cbn [Pos.iter]. destruct (shr_1_spec mrs Hm) as (H1 & _). rewrite H1.
    reflexivity.
  - rewrite Pos.iter_succ.
    assert (Hg : 0 < 2 ^ Zpos p) by (apply Z.pow_pos_nonneg; lia).
    assert (Hnn : 0 <= shr_m (Pos.iter shr_1 mrs p))
      by (rewrite IH; apply Z.div_pos; lia).
    destruct (shr_1_spec _ Hnn) as (H1 & _). rewrite H1, IH.
    rewrite Pos2Z.inj_succ. unfold Z.succ.
    rewrite Z.pow_add_r by lia. change (2 ^ 1) with 2.
    rewrite Z.div_div by lia. reflexivity.
Qed.

Lemma shr_m_spec (mrs : shr_record) (e n : Z) :
  0 <= shr_m mrs ->
  exists mrs',
    shr mrs e n = (mrs', e + Z.max n 0)
    /\ shr_m mrs' = shr_m mrs / 2 ^ Z.max n 0.
Proof.
  intros Hm. destruct n as [| p | p]; cbn [shr].
  - exists mrs. cbn. rewrite Z.add_0_r, Z.div_1_r. auto.
  - rewrite iter_pos_iter. eexists. split; [ reflexivity | ].
    rewrite Z.max_l by lia. now apply shr_iter_m.
  - exists mrs. cbn. rewrite Z.add_0_r, Z.div_1_r. auto.
Qed.

(** Rounding [mx * 2^ex] with the location [l] of the discarded part, [mx]
    of at least 53 digits: the scaled value of the result is that of the
    mantissa [mx / 2^n] or of the next one, and it is the former when
    nothing is discarded. *)
Lemma binary_round_aux_loc (mx : positive) (ex : Z) (l : location) :
  53 <= dig mx -> -1074 <= ex ->
  let n := dig mx - 53 in
  let q := Zpos mx / 2 ^ n in
  exists (mr : positive) (er : Z),
    binary_round_aux prec emax false (Zpos mx) ex l
    = (if er <=? 971 then S754_finite false mr er else S754_infinity false)
    /\ dig mr = 53
    /\ -1074 <= er
    /\ (scaled mr er = q * 2 ^ (ex + n + 1074)
        \/ (scaled mr er = (q + 1) * 2 ^ (ex + n + 1074)
            /\ (Zpos mx mod 2 ^ n <> 0 \/ l <> loc_Exact))).
Proof.
  intros Hd He n q.
  destruct l as [| c].
  { destruct (binary_round_aux_exact mx ex Hd He) as (mr & er & H1 & H2 & H3 & H4).
    exists mr, er. repeat split; try assumption.
    destruct H4 as [H4 | [H4 H5]]; [ now left | right; split; [ exact H4 | now left ] ]. }
  assert (Hn : 0 <= n) by (unfold n; lia).
  pose proof (dig_bounds mx) as [Hlo Hhi].
  assert (Hg : 0 < 2 ^ n) by (apply Z.pow_pos_nonneg; lia).
  assert (Hq : 2 ^ 52 <= q < 2 ^ 53).
  { unfold q. split.
    - apply Z.div_le_lower_bound; [ lia | ].
      rewrite <- Z.pow_add_r by lia.
      replace (n + 52) with (dig mx - 1) by (unfold n; lia). exact Hlo.
    - apply Z.div_lt_upper_bound; [ lia | ].
      rewrite <- Z.pow_add_r by lia.
      replace (n + 53) with (dig mx) by (unfold n; lia). exact Hhi. }
  unfold binary_round_aux, shr_fexp.
  cbn [Zdigits2]. fold (dig mx).
  replace (fexp prec emax (dig mx + ex) - ex) with n
    by (unfold fexp, SpecFloat.emin, prec, emax, n; lia).
  set (mrs0 := shr_record_of_loc (Zpos mx) (loc_Inexact c)).
  assert (Hm0 : shr_m mrs0 = Zpos mx) by (unfold mrs0; destruct c; reflexivity).
  destruct (shr_m_spec mrs0 ex n ltac:(lia)) as (mrs1 & Hs1 & Hm1).
  rewrite Z.max_l in Hs1, Hm1 by lia. rewrite Hs1.
  pose proof (rne_bounds mrs1) as [Hb _]. cbn zeta in Hb.
  set (m2 := round_nearest_even (shr_m mrs1) (loc_of_shr_record mrs1)) in *.
  rewrite Hm1, Hm0 in Hb. fold q in Hb.
  assert (Hm2 : m2 = q \/ m2 = q + 1) by lia.
  destruct m2 as [| p2 | p2] eqn:Ep2; [ lia | | lia ].
  cbn [Zdigits2 shr_record_of_loc]. fold (dig p2).
  assert (Hcase : Zpos p2 < 2 ^ 53 \/ Zpos p2 = 2 ^ 53) by lia.
  destruct Hcase as [Hsmall | Hbig].
  - assert (Hdp : dig p2 = 53) by (apply dig_unique; change (53 - 1) with 52; lia).
    rewrite Hdp.
    replace (fexp prec emax (53 + (ex + n)) - (ex + n)) with 0
      by (unfold fexp, SpecFloat.emin, prec, emax; lia).
    cbn [shr shr_m]. exists p2, (ex + n).
    change (emax - prec) with 971.
    split; [ reflexivity | ]. split; [ exact Hdp | ]. split; [ lia | ].
    unfold scaled.
    destruct Hm2 as [-> | ->];
      [ left | right; split; [ | right; discriminate ] ]; reflexivity.
  - assert (Hdp : dig p2 = 54) by (apply dig_unique; rewrite Hbig; cbn; lia).
    rewrite Hdp.
    replace (fexp prec emax (54 + (ex + n)) - (ex + n)) with 1
      by (unfold fexp, SpecFloat.emin, prec, emax; lia).
    cbn [shr iter_pos]. rewrite Hbig. cbn [shr_1 shr_m Z.pow Z.pow_pos Pos.iter Z.mul Pos.mul].
    eexists _, (ex + n + 1). change (emax - prec) with 971.
    split; [ reflexivity | ]. split; [ reflexivity | ]. split; [ lia | ].
    assert (Hq1 : q + 1 = 2 ^ 53) by lia.
    right. split; [ | right; discriminate ].
    rewrite Hq1. unfold scaled.
    replace (ex + n + 1 + 1074) with (1 + (ex + n + 1074)) by lia.
    rewrite (Z.pow_add_r 2 1 (ex + n + 1074)) by lia.
    rewrite Z.mul_assoc. reflexivity.
Qed.

(** Rounding keeps a value between two floats of the format between them:
    the value is [mx * 2^ex] when [l] is exact, and strictly between
    [mx * 2^ex] and [(mx + 1) * 2^ex] otherwise. *)
Lemma round_between_loc (mx : positive) (ex : Z) (l : location)
    (mL : positive) (eL : Z) (mB : positive) (eB : Z) :
  53 <= dig mx -> -1074 <= ex ->
  valid_binary (S754_finite false mL eL) = true ->
  valid_binary (S754_finite false mB eB) = true ->
  scaled mL eL < (Zpos mx + 1) * 2 ^ (ex + 1074) ->
  Zpos mx * 2 ^ (ex + 1074) <= scaled mB eB ->
  (l <> loc_Exact -> Zpos mx * 2 ^ (ex + 1074) < scaled mB eB) ->
  exists (mr : positive) (er : Z),
    binary_round_aux prec emax false (Zpos mx) ex l
    = S754_finite false mr er
    /\ valid_binary (S754_finite false mr er) = true
    /\ dig mr = 53
    /\ scaled mL eL <= scaled mr er <= scaled mB eB.
Proof.
  intros Hd He HvL HvB HL HB HB'.
  apply valid_inv in HvL, HvB.
  destruct HvL as (HeL & HdL & _), HvB as (HeB & HdB & _).
  destruct (binary_round_aux_loc mx ex l Hd He) as (mr & er & Hr & Hdr & Her & Hval).
  cbn zeta in Hval.
  set (n := dig mx - 53) in *. set (q := Zpos mx / 2 ^ n) in *.
  set (g := 2 ^ (ex + n + 1074)) in *.
  assert (Hn : 0 <= n) by (unfold n; lia).
  assert (H2n : 0 < 2 ^ n) by (apply Z.pow_pos_nonneg; lia).
  assert (Hu : 0 < 2 ^ (ex + 1074)) by (apply Z.pow_pos_nonneg; lia).
  assert (Hg : g = 2 ^ n * 2 ^ (ex + 1074)).
  { unfold g. rewrite <- Z.pow_add_r by lia. f_equal. lia. }
  assert (Hgpos : 0 < g) by (rewrite Hg; apply Z.mul_pos_pos; assumption).
  pose proof (Z.div_mod (Zpos mx) (2 ^ n) ltac:(lia)) as Hdm. fold q in Hdm.
  pose proof (Z.mod_pos_bound (Zpos mx) (2 ^ n) H2n) as Hrem.
  set (r := Zpos mx mod 2 ^ n) in *.
  set (u := 2 ^ (ex + 1074)) in *.
  assert (HX : Zpos mx * u = q * g + r * u).
  { rewrite Hg, Hdm at 1. ring. }
  assert (Hrg : (r + 1) * u <= g).
  { rewrite Hg. apply Z.mul_le_mono_nonneg_r; lia. }
  pose proof (dig_bounds mx) as [Hlo Hhi].
  assert (Hq : 2 ^ 52 <= q).
  { unfold q. apply Z.div_le_lower_bound; [ lia | ].
    rewrite <- Z.pow_add_r by lia.
    replace (n + 52) with (dig mx - 1) by (unfold n; lia). exact Hlo. }
  assert (Hqg : 2 ^ 52 * g <= q * g) by (apply Z.mul_le_mono_nonneg_r; lia).
  assert (Hlow : scaled mL eL <= q * g).
  { pose proof (grid_dichotomy mL eL (ex + n) HdL ltac:(lia) ltac:(lia)) as HgL.
    change (2 ^ (ex + n + 1074)) with g in HgL.
    destruct HgL as [[t Ht] | Hsmall]; [ | lia ].
    rewrite Ht in *. assert (t < q + 1) by nia. nia. }
  assert (Hup : scaled mr er <= scaled mB eB).
  { destruct Hval as [Hv | [Hv Hne]]; rewrite Hv; [ nia | ].
    pose proof (grid_dichotomy mB eB (ex + n) HdB ltac:(lia) ltac:(lia)) as HgB.
    change (2 ^ (ex + n + 1074)) with g in HgB.
    destruct HgB as [[t Ht] | Hsmall]; [ | nia ].
    rewrite Ht in *.
    assert (q < t); [ | nia ].
    destruct Hne as [Hne | Hne].
    - assert (Hrpos : 0 < r * u) by (apply Z.mul_pos_pos; lia). nia.
    - specialize (HB' Hne). nia. }
  assert (Hge : scaled mL eL <= scaled mr er).
  { destruct Hval as [Hv | [Hv _]]; rewrite Hv; nia. }
  assert (Her' : er <= 971).
  { destruct (Z.le_gt_cases er eB) as [Hle | Hgt]; [ lia | ].
    assert (scaled mB eB < scaled mr er) by (apply scaled_exp_lt; lia). lia. }
  exists mr, er.
  destruct (Z.leb_spec er 971); [ | lia ].
  split; [ exact Hr | ].
  split; [ apply valid_intro; lia | ].
  split; [ exact Hdr | ]. split; assumption.
Qed.

Lemma new_location_exact (nb_steps k : Z) :
  new_location nb_steps k = loc_Exact <-> k = 0.
Proof.
  unfold new_location, new_location_even, new_location_odd.
  destruct (Z.even nb_steps); destruct (Z.eqb_spec k 0); split; intros H;
    try reflexivity; try assumption; try discriminate; contradiction.
Qed.

(** The quotient of two positive normal numbers, before rounding. *)
Lemma SFdiv_finite (mx my : positive) (ex ey : Z) :
  dig mx = 53 -> dig my = 53 -> -1021 <= ex - ey ->
  exists (q : positive) (l : location),
    SF64div (S754_finite false mx ex) (S754_finite false my ey)
    = binary_round_aux prec emax false (Zpos q) (ex - ey - 53) l
    /\ 53 <= dig q
    /\ Zpos q * Zpos my <= Zpos mx * 2 ^ 53 < (Zpos q + 1) * Zpos my
    /\ (l = loc_Exact <-> Zpos q * Zpos my = Zpos mx * 2 ^ 53).
Proof.
  intros Hdx Hdy He. unfold SF64div, SFdiv, SFdiv_core_binary.
  cbn [Zdigits2 xorb]. fold (dig mx) (dig my). rewrite Hdx, Hdy.
  replace (Z.min (fexp prec emax (53 + ex - (53 + ey))) (ex - ey))
    with (ex - ey - 53)
    by (unfold fexp, SpecFloat.emin, prec, emax; lia).
  replace (ex - ey - (ex - ey - 53)) with 53 by lia.
  cbv zeta iota. rewrite Z.shiftl_mul_pow2 by lia.
  rewrite div_eucl_div_mod.
  pose proof (dig_53_ge mx Hdx) as Hmx.
  pose proof (dig_bounds my) as [_ Hmy]. rewrite Hdy in Hmy.
  set (m' := Zpos mx * 2 ^ 53).
  pose proof (Z.div_mod m' (Zpos my) ltac:(lia)) as Hdm.
  pose proof (Z.mod_pos_bound m' (Zpos my) ltac:(lia)) as Hrem.
  assert (Hq : 2 ^ 52 <= m' / Zpos my).
  { apply Z.div_le_lower_bound; [ lia | ].
    unfold m'. assert (2 ^ 52 * 2 ^ 53 <= Zpos mx * 2 ^ 53) by lia.
    assert (Zpos my * 2 ^ 52 <= 2 ^ 53 * 2 ^ 52) by lia. lia. }
  destruct (m' / Zpos my) as [| q | q] eqn:Eq; [ lia | | lia ].
  clearbody m'.
  exists q, (new_location (Zpos my) (m' mod Zpos my)).
  split; [ reflexivity | ].
  split; [ now apply dig_ge_53 | ].
  rewrite new_location_exact.
  set (r := m' mod Zpos my) in *. clearbody r.
  split; [ lia | ]. split; intros; lia.
Qed.

Lemma pow2_split3 (ex ey : Z) :
  -1021 <= ex - ey -> -1074 <= ey -> -1074 <= ex ->
  2 ^ (ex + 1074) * 2 ^ 1074
  = 2 ^ 53 * 2 ^ (ex - ey - 53 + 1074) * 2 ^ (ey + 1074).
Proof.
  intros H1 H2 H3. rewrite <- !Z.pow_add_r by lia. f_equal. lia.
Qed.

(** Division of positive normal numbers whose quotient is not tiny. *)
Lemma div_sc (x y lo hi : float) :
  posnormal x -> posnormal y -> posnormal lo -> posnormal hi ->
  2 ^ 106 <= sc lo ->
  sc lo * sc y <= sc x * 2 ^ 1074 <= sc hi * sc y ->
  posnormal (x / y)%float /\ sc lo <= sc (x / y)%float <= sc hi.
Proof.
  intros Hx Hy Hlo Hhi Hbig [HbL HbH].
  destruct (posnormal_rep x Hx) as (mx & ex & Hrx & _ & Hdx & Hsx & Hex).
  destruct (posnormal_rep y Hy) as (my & ey & Hry & _ & Hdy & Hsy & Hey).
  destruct (posnormal_rep lo Hlo) as (ml & el & _ & Hvl & _ & Hsl & _).
  destruct (posnormal_rep hi Hhi) as (mh & eh & _ & Hvh & _ & Hsh & _).
  rewrite Hsx, Hsy in HbL, HbH. unfold scaled in HbL, HbH.
  pose proof (dig_bounds mx) as [_ Hmx]. rewrite Hdx in Hmx.
  pose proof (dig_53_ge my Hdy) as Hmy.
  assert (Hexp : -1021 <= ex - ey).
  { destruct (Z.le_gt_cases (-1021) (ex - ey)) as [| Hlt]; [ assumption | exfalso ].
    assert (Hp : 2 ^ (ex + 1074) * 2 ^ 1074 <= 2 ^ (ey + 1074) * 2 ^ 52).
    { rewrite <- !Z.pow_add_r by lia. apply Z.pow_le_mono_r; lia. }
    assert (Hg : 0 < 2 ^ (ey + 1074)) by (apply Z.pow_pos_nonneg; lia).
    assert (Hg' : 0 < 2 ^ (ex + 1074) * 2 ^ 1074)
      by (apply Z.mul_pos_pos; apply Z.pow_pos_nonneg; lia).
    assert (H1 : Zpos mx * 2 ^ (ex + 1074) * 2 ^ 1074
                 < 2 ^ 53 * (2 ^ (ey + 1074) * 2 ^ 52)).
    { rewrite <- Z.mul_assoc.
      apply Z.lt_le_trans with (2 ^ 53 * (2 ^ (ex + 1074) * 2 ^ 1074)).
      - apply Z.mul_lt_mono_pos_r; assumption.
      - apply Z.mul_le_mono_nonneg_l; lia. }
    assert (H2 : 2 ^ 106 * (2 ^ 52 * 2 ^ (ey + 1074))
                 <= sc lo * (Zpos my * 2 ^ (ey + 1074))).
    { apply Z.mul_le_mono_nonneg; try lia.
      apply Z.mul_le_mono_nonneg_r; lia. }
    assert (H3 : 2 ^ 53 * (2 ^ (ey + 1074) * 2 ^ 52)
                 < 2 ^ 106 * (2 ^ 52 * 2 ^ (ey + 1074))).
    { replace (2 ^ 53 * (2 ^ (ey + 1074) * 2 ^ 52))
        with (2 ^ 53 * (2 ^ 52 * 2 ^ (ey + 1074))) by ring.
      apply Z.mul_lt_mono_pos_r; [ lia | reflexivity ]. }
    lia. }
  destruct (SFdiv_finite mx my ex ey Hdx Hdy Hexp)
    as (q & l & Hdiv & Hdq & [Hq1 Hq2] & Hexact).
  set (U := 2 ^ (ex - ey - 53 + 1074)) in *.
  set (A := 2 ^ (ey + 1074)) in *.
  assert (HU : 0 < U) by (apply Z.pow_pos_nonneg; lia).
  assert (HA : 0 < A) by (apply Z.pow_pos_nonneg; lia).
  assert (Hsplit : Zpos mx * 2 ^ (ex + 1074) * 2 ^ 1074
                   = Zpos mx * 2 ^ 53 * U * A).
  { rewrite <- (Z.mul_assoc (Zpos mx)), (pow2_split3 ex ey Hexp Hey Hex).
    fold U A. ring. }
  rewrite Hsplit in HbL, HbH.
  assert (HL' : sc lo * Zpos my <= Zpos mx * 2 ^ 53 * U).
  { apply (Z.mul_le_mono_pos_r _ _ A HA). lia. }
  assert (HH' : Zpos mx * 2 ^ 53 * U <= sc hi * Zpos my).
  { apply (Z.mul_le_mono_pos_r _ _ A HA). lia. }
  assert (Hround :
            exists (mr : positive) (er : Z),
              binary_round_aux prec emax false (Zpos q) (ex - ey - 53) l
              = S754_finite false mr er
              /\ valid_binary (S754_finite false mr er) = true
              /\ dig mr = 53
              /\ scaled ml el <= scaled mr er <= scaled mh eh).
  { apply round_between_loc; try assumption; try lia; fold U;
      rewrite <- ?Hsl, <- ?Hsh.
    - apply (Z.mul_lt_mono_pos_r (Zpos my)); [ lia | ].
      apply Z.le_lt_trans with (Zpos mx * 2 ^ 53 * U); [ exact HL' | ].
      replace ((Zpos q + 1) * U * Zpos my) with ((Zpos q + 1) * Zpos my * U) by ring.
      apply Z.mul_lt_mono_pos_r; assumption.
    - apply (Z.mul_le_mono_pos_r _ _ (Zpos my)); [ lia | ].
      apply Z.le_trans with (Zpos mx * 2 ^ 53 * U); [ | exact HH' ].
      replace (Zpos q * U * Zpos my) with (Zpos q * Zpos my * U) by ring.
      apply Z.mul_le_mono_nonneg_r; lia.
    - intros Hne.
      assert (Hlt : Zpos q * Zpos my < Zpos mx * 2 ^ 53).
      { destruct (Z.eq_dec (Zpos q * Zpos my) (Zpos mx * 2 ^ 53)) as [E | E];
          [ exfalso; apply Hne, Hexact, E | lia ]. }
      apply (Z.mul_lt_mono_pos_r (Zpos my)); [ lia | ].
      apply Z.lt_le_trans with (Zpos mx * 2 ^ 53 * U); [ | exact HH' ].
      replace (Zpos q * U * Zpos my) with (Zpos q * Zpos my * U) by ring.
      apply Z.mul_lt_mono_pos_r; assumption. }
  destruct Hround as (mr & er & Hr & Hv & Hdr & Hbr).
  assert (Hz : Prim2SF (x / y)%float = S754_finite false mr er).
  { rewrite FloatAxioms.div_spec, Hrx, Hry, Hdiv. exact Hr. }
  split; [ exists mr, er; split; assumption | ].
  unfold sc at 2 3. rewrite Hz, Hsl, Hsh. exact Hbr.
Qed.

End Division.

(** ** Whole numbers and exact results *)

Section ExactResults.
Local Open Scope Z_scope.

(** A positive normal number is determined by its scaled value. *)
Lemma scaled_inj (m1 m2 : positive) (e1 e2 : Z) :
  dig m1 = 53 -> dig m2 = 53 -> -1074 <= e1 -> -1074 <= e2 ->
  scaled m1 e1 = scaled m2 e2 -> m1 = m2 /\ e1 = e2.
Proof.
  intros H1 H2 He1 He2 Hs.
  destruct (Z.lt_trichotomy e1 e2) as [Hlt | [Heq | Hgt]].
  - pose proof (scaled_exp_lt m1 m2 e1 e2 ltac:(lia) H2 He1 Hlt). lia.
  - subst e2. split; [ | reflexivity ]. unfold scaled in Hs.
    assert (Hg : 0 < 2 ^ (e1 + 1074)) by (apply Z.pow_pos_nonneg; lia).
    apply Z.mul_cancel_r in Hs; [ | lia ]. now injection Hs.
  - pose proof (scaled_exp_lt m2 m1 e2 e1 ltac:(lia) H1 He2 Hgt). lia.
Qed.

Lemma posnormal_eq (x y : float) :
  posnormal x -> posnormal y -> sc x = sc y -> x = y.
Proof.
  intros Hx Hy Hs.
  destruct (posnormal_rep x Hx) as (mx & ex & Hrx & _ & Hdx & Hsx & Hex).
  destruct (posnormal_rep y Hy) as (my & ey & Hry & _ & Hdy & Hsy & Hey).
  rewrite Hsx, Hsy in Hs.
  destruct (scaled_inj mx my ex ey Hdx Hdy Hex Hey Hs) as [-> ->].
  rewrite <- (SF2Prim_Prim2SF x), <- (SF2Prim_Prim2SF y), Hrx, Hry. reflexivity.
Qed.

(** A result squeezed between a number and itself. *)
Lemma squeezed (z v : float) :
  posnormal z /\ sc v <= sc z <= sc v -> posnormal v -> z = v.
Proof. intros [Hz Hb] Hv. apply posnormal_eq; [ assumption.. | lia ]. Qed.

(** The whole numbers from [1] to [2^53] are numbers, exactly. *)
Lemma num_of_nat_sc (n : nat) :
  1 <= Z.of_nat n < 2 ^ 53 ->
  posnormal (num_of_nat n) /\ sc (num_of_nat n) = Z.of_nat n * 2 ^ 1074.
Proof.
  intros Hn. unfold num_of_nat.
  assert (Hspec : Prim2SF (of_uint63 (of_Z (Z.of_nat n)))
                  = binary_normalize prec emax (Z.of_nat n) 0 false).
  { rewrite FloatAxioms.of_uint63_spec, Uint63.of_Z_spec.
    rewrite Z.mod_small; [ reflexivity | ].
    split; [ lia | ]. apply Z.lt_trans with (2 ^ 53); [ lia | reflexivity ]. }
  destruct (Z.of_nat n) as [| p | p] eqn:Ep; [ lia | | lia ].
  cbn [binary_normalize] in Hspec. unfold binary_round in Hspec.
  fold (dig p) in Hspec.
  pose proof (dig_bounds p) as [Hlo Hhi]. pose proof (dig_pos p) as Hd1.
  assert (Hd : dig p <= 53).
  { destruct (Z.le_gt_cases (dig p) 53) as [| Hgt]; [ assumption | exfalso ].
    assert (2 ^ 53 <= 2 ^ (dig p - 1)) by (apply Z.pow_le_mono_r; lia). lia. }
  replace (fexp prec emax (dig p + 0)) with (dig p - 53) in Hspec
    by (unfold fexp, SpecFloat.emin, prec, emax; lia).
  pose proof (shl_align_le p 0 (dig p - 53) ltac:(lia)) as Hal.
  assert (Hsnd : snd (shl_align p 0 (dig p - 53)) = dig p - 53).
  { unfold shl_align. destruct (dig p - 53 - 0) eqn:E; cbn [snd]; lia. }
  destruct (shl_align p 0 (dig p - 53)) as [mz ez]. cbn [fst snd] in *. subst ez.
  replace (0 - (dig p - 53)) with (53 - dig p) in Hal by lia.
  assert (Hdz : dig mz = 53).
  { apply dig_unique. rewrite Hal. change (53 - 1) with 52. split.
    - replace 52 with ((dig p - 1) + (53 - dig p)) by lia.
      rewrite Z.pow_add_r by lia. apply Z.mul_le_mono_nonneg_r; [ | lia ].
      apply Z.pow_nonneg; lia.
    - replace 53 with (dig p + (53 - dig p)) at 2 by lia.
      rewrite Z.pow_add_r by lia. apply Z.mul_lt_mono_pos_r; [ | lia ].
      apply Z.pow_pos_nonneg; lia. }
  destruct (binary_round_aux_exact mz (dig p - 53) ltac:(lia) ltac:(lia))
    as (mr & er & Hr & Hdr & Her & Hval).
  cbn zeta in Hval. rewrite Hdz in Hval. change (53 - 53) with 0 in Hval.
  rewrite Z.pow_0_r, Z.div_1_r, Z.mod_1_r in Hval.
  destruct Hval as [Hval | [_ Hne]]; [ | contradiction ].
  replace (dig p - 53 + 0 + 1074) with (dig p - 53 + 1074) in Hval by lia.
  destruct (scaled_inj mr mz er (dig p - 53) Hdr Hdz Her ltac:(lia) Hval)
    as [-> ->].
  rewrite Hr in Hspec.
  destruct (Z.leb_spec (dig p - 53) 971); [ | lia ].
  split.
  - exists mz, (dig p - 53). split; assumption.
  - unfold sc. rewrite Hspec. unfold scaled. rewrite Hal.
    rewrite <- Z.mul_assoc, <- Z.pow_add_r by lia. f_equal. f_equal. lia.
Qed.

Lemma num_of_nat_0 : num_of_nat 0 = 0%float.
Proof. reflexivity. Qed.

Lemma add_0_l (x : float) : posnormal x -> (0 + x)%float = x.
Proof.
  intros (m & e & Hx & _).
  assert (H : Prim2SF (0 + x) = Prim2SF x)
    by (rewrite FloatAxioms.add_spec, Hx; reflexivity).
  rewrite <- (SF2Prim_Prim2SF (0 + x)), H. apply SF2Prim_Prim2SF.
Qed.

Lemma add_0_r (x : float) : posnormal x -> (x + 0)%float = x.
Proof.
  intros (m & e & Hx & _).
  assert (H : Prim2SF (x + 0) = Prim2SF x)
    by (rewrite FloatAxioms.add_spec, Hx; reflexivity).
  rewrite <- (SF2Prim_Prim2SF (x + 0)), H. apply SF2Prim_Prim2SF.
Qed.

(** Whole numbers add exactly while the sum is below [2^53]. *)
Lemma num_of_nat_add (a b : nat) :
  Z.of_nat (a + b) < 2 ^ 53 ->
  (num_of_nat a + num_of_nat b)%float = num_of_nat (a + b).
Proof.
  intros Hsum.
  destruct a as [| a'].
  { destruct b as [| b']; [ reflexivity | ].
    rewrite num_of_nat_0. apply add_0_l. apply num_of_nat_sc. lia. }
  destruct b as [| b'].
  { rewrite num_of_nat_0, Nat.add_0_r. apply add_0_r. apply num_of_nat_sc. lia. }
  destruct (num_of_nat_sc (S a') ltac:(lia)) as [Pa Sa].
  destruct (num_of_nat_sc (S b') ltac:(lia)) as [Pb Sb].
  destruct (num_of_nat_sc (S a' + S b') ltac:(lia)) as [Ps Ss].
  apply squeezed; [ | exact Ps ].
  apply add_sc; try assumption.
  rewrite Sa, Sb, Ss. lia.
Qed.

End ExactResults.

(** ** The brightness of a frame *)

Lemma fold_left_ext_in {A B : Type} (f g : A -> B -> A) (l : list B) :
  (forall a b, In b l -> f a b = g a b) ->
  forall a, fold_left f l a = fold_left g l a.
Proof.
  induction l as [| b l IH]; intros H a; [ reflexivity | ].
  cbn [fold_left]. rewrite (H a b (or_introl eq_refl)).
  apply IH. intros a' b' Hb'. apply H. now right.
Qed.

(** [averageBrightness] reads the red and the green byte of each pixel and
    nothing else: two pixel arrays of the same length that agree on these
    bytes have the same brightness, whatever their blue and alpha bytes.
    With no pixel at all the brightness is NaN. *)
Theorem averageBrightness_reads_red_and_green :
  (forall pixelData pixelData' : list Byte.byte,
      length pixelData = length pixelData' ->
      (forall i : nat,
          i mod 4 < 2 -> nth_error pixelData i = nth_error pixelData' i) ->
      averageBrightness pixelData = averageBrightness pixelData')
  /\ isNaN (averageBrightness []) = true.
Proof.
  split; [ | reflexivity ].
  intros p p' Hlen Hsame. unfold averageBrightness. rewrite <- Hlen.
  f_equal. f_equal.
  apply fold_left_ext_in. intros sum i Hi.
  apply in_map_iff in Hi. destruct Hi as (k & <- & _).
  unfold pixelAt.
  rewrite (Hsame (4 * k)), (Hsame (4 * k + 1)); [ reflexivity | | ].
  - rewrite Nat.add_comm, Nat.mul_comm, Nat.Div0.mod_add. cbn. lia.
  - rewrite Nat.mul_comm, Nat.Div0.mod_mul. lia.
Qed.

Section BrightnessRange.
Local Open Scope Z_scope.

Lemma byte_bound (b : Byte.byte) : (Byte.to_nat b <= 255)%nat.
Proof. apply Nat.leb_le. destruct b; reflexivity. Qed.

Lemma list_sum_single (x : nat) : list_sum [x] = x.
Proof. cbn. lia. Qed.

Lemma redGreen_partial_bound (p : list Byte.byte) (k : nat) :
  (list_sum
     (map (fun k =>
             Byte.to_nat (nth (4 * k) p Byte.x00)
             + Byte.to_nat (nth (4 * k + 1) p Byte.x00))
        (seq 0 k)) <= 510 * k)%nat.
Proof.
  induction k as [| k IH]; [ cbn; lia | ].
  rewrite seq_S, map_app, list_sum_app. cbn [map Nat.add].
  rewrite list_sum_single.
  pose proof (byte_bound (nth (4 * k) p Byte.x00)).
  pose proof (byte_bound (nth (4 * k + 1) p Byte.x00)). lia.
Qed.

Lemma pixelAt_in_range (p : list Byte.byte) (i : nat) :
  (i < length p)%nat ->
  pixelAt p i = num_of_nat (Byte.to_nat (nth i p Byte.x00)).
Proof.
  intros Hi. unfold pixelAt. now rewrite (nth_error_nth' p Byte.x00 Hi).
Qed.

(** The loop adds whole numbers, so its sum is exact. *)
Lemma brightness_sum_exact (p : list Byte.byte) (n : nat) :
  length p = (4 * n)%nat -> Z.of_nat n < 2 ^ 40 ->
  forall k : nat,
    (k <= n)%nat ->
    fold_left
      (fun sum i => (sum + pixelAt p i + pixelAt p (i + 1))%float)
      (map (fun k => (4 * k)%nat) (seq 0 k)) 0%float
    = num_of_nat
        (list_sum
           (map (fun k =>
                   (Byte.to_nat (nth (4 * k) p Byte.x00)
                    + Byte.to_nat (nth (4 * k + 1) p Byte.x00))%nat)
              (seq 0 k))).
Proof.
  intros Hlen Hn. induction k as [| k IH]; intros Hk; [ reflexivity | ].
  rewrite seq_S, !map_app, fold_left_app, list_sum_app.
  cbn [map fold_left Nat.add]. rewrite list_sum_single, IH by lia.
  pose proof (redGreen_partial_bound p k) as Hb.
  set (S := list_sum _) in *.
  pose proof (byte_bound (nth (4 * k) p Byte.x00)) as Hr.
  pose proof (byte_bound (nth (4 * k + 1) p Byte.x00)) as Hg.
  rewrite !pixelAt_in_range by lia.
  assert (Hsmall : 510 * Z.of_nat (Datatypes.S k) < 2 ^ 53).
  { assert (510 * 2 ^ 40 < 2 ^ 53) by reflexivity. lia. }
  rewrite num_of_nat_add by lia. rewrite num_of_nat_add by lia.
  f_equal. lia.
Qed.

Lemma posnormal_half : posnormal 0.5. Proof. posnormal_literal. Qed.
Lemma posnormal_1 : posnormal 1. Proof. posnormal_literal. Qed.
Lemma posnormal_255 : posnormal 255. Proof. posnormal_literal. Qed.
Lemma posnormal_tiny53 : posnormal 0x1p-53. Proof. posnormal_literal. Qed.
Lemma posnormal_tiny61 : posnormal 0x1p-61. Proof. posnormal_literal. Qed.

Lemma sc_half : sc 0.5 = 2 ^ 1073. Proof. vm_compute. reflexivity. Qed.
Lemma sc_1 : sc 1 = 2 ^ 1074. Proof. vm_compute. reflexivity. Qed.
Lemma sc_255 : sc 255 = 255 * 2 ^ 1074. Proof. vm_compute. reflexivity. Qed.
Lemma sc_tiny53 : sc 0x1p-53 = 2 ^ 1021. Proof. vm_compute. reflexivity. Qed.
Lemma sc_tiny61 : sc 0x1p-61 = 2 ^ 1013. Proof. vm_compute. reflexivity. Qed.

Lemma div_0_l (y : float) : posnormal y -> (0 / y)%float = 0%float.
Proof.
  intros (m & e & Hy & _).
  assert (H : Prim2SF (0 / y) = Prim2SF 0%float)
    by (rewrite FloatAxioms.div_spec, Hy; reflexivity).
  rewrite <- (SF2Prim_Prim2SF (0 / y)), H. reflexivity.
Qed.

(** Half the length of the pixel array. *)
Lemma half_length (n : nat) :
  (0 < n)%nat -> Z.of_nat n < 2 ^ 40 ->
  (num_of_nat (4 * n) * 0.5)%float = num_of_nat (2 * n).
Proof.
  intros Hpos Hn.
  assert (H40 : 4 * 2 ^ 40 < 2 ^ 53) by reflexivity.
  destruct (num_of_nat_sc (4 * n) ltac:(lia)) as [P4 S4].
  destruct (num_of_nat_sc (2 * n) ltac:(lia)) as [P2 S2].
  apply squeezed; [ | exact P2 ].
  assert (H1074 : 0 < 2 ^ 1074) by (apply Z.pow_pos_nonneg; lia).
  assert (Hhalf : 2 ^ 1074 = 2 * 2 ^ 1073) by reflexivity.
  apply mul_sc; try assumption; try exact posnormal_half.
  - rewrite S2. assert (2 ^ 106 <= 2 ^ 1074) by (apply Z.pow_le_mono_r; lia). nia.
  - rewrite S2, S4, sc_half.
    replace (Z.of_nat (4 * n) * 2 ^ 1074 * 2 ^ 1073)
      with (Z.of_nat (2 * n) * 2 ^ 1074 * 2 ^ 1074); [ lia | ].
    rewrite Hhalf at 2. rewrite !Nat2Z.inj_mul. cbn [Z.of_nat Pos.of_succ_nat Pos.succ]. ring.
Qed.

(** For a canvas of at least one pixel the brightness lies between 0 and
    1: it is 0 when every red and green byte is 0, and 1 when every one is
    255. *)
Theorem averageBrightness_between_0_and_1 :
  forall (pixelData : list Byte.byte) (n : nat),
    length pixelData = (4 * n)%nat ->
    (0 < n)%nat ->
    Z.of_nat n < 2 ^ 40 ->
    ((0 <=? averageBrightness pixelData)%float = true
     /\ (averageBrightness pixelData <=? 1)%float = true)
    /\ (redGreenSum pixelData = 0%nat -> averageBrightness pixelData = 0%float)
    /\ (redGreenSum pixelData = (510 * n)%nat ->
        averageBrightness pixelData = 1%float).
Proof.
  intros p n Hlen Hpos Hn.
  assert (Hquads : ((length p + 3) / 4 = n)%nat).
  { rewrite Hlen. replace (4 * n + 3)%nat with (3 + n * 4)%nat by lia.
    rewrite Nat.div_add by lia. reflexivity. }
  assert (Hquads' : (length p / 4 = n)%nat).
  { rewrite Hlen, Nat.mul_comm. apply Nat.div_mul. lia. }
  unfold averageBrightness. rewrite Hquads.
  rewrite (brightness_sum_exact p n Hlen Hn n (le_n n)).
  fold (redGreenSum p) in *. unfold redGreenSum. rewrite Hquads'.
  pose proof (redGreen_partial_bound p n) as Hbound.
  set (S := list_sum _) in *.
  rewrite Hlen, (half_length n Hpos Hn).
  assert (H40 : 4 * 2 ^ 40 < 2 ^ 53) by reflexivity.
  assert (H510 : 510 * 2 ^ 40 < 2 ^ 53) by reflexivity.
  destruct (num_of_nat_sc (2 * n) ltac:(lia)) as [P2 S2].
  assert (H1074 : 0 < 2 ^ 1074) by (apply Z.pow_pos_nonneg; lia).
  destruct (Nat.eq_dec S 0) as [HS0 | HS0].
  { rewrite HS0, num_of_nat_0, (div_0_l _ P2).
    split; [ split; reflexivity | ]. split; [ reflexivity | ].
    intros H. exfalso. lia. }
  destruct (num_of_nat_sc S ltac:(lia)) as [PS SS].
  assert (Havg : posnormal (num_of_nat S / num_of_nat (2 * n))
                 /\ sc 0x1p-53 <= sc (num_of_nat S / num_of_nat (2 * n)) <= sc 255).
  { apply div_sc; try assumption;
      try exact posnormal_tiny53; try exact posnormal_255.
    - rewrite sc_tiny53. apply Z.pow_le_mono_r; lia.
    - rewrite sc_tiny53, sc_255, S2, SS.
      assert (Hp : 2 ^ 1074 = 2 ^ 1021 * 2 ^ 53) by reflexivity.
      split.
      + replace (2 ^ 1021 * (Z.of_nat (2 * n) * 2 ^ 1074))
          with (Z.of_nat (2 * n) * 2 ^ 1021 * 2 ^ 1074) by ring.
        apply Z.mul_le_mono_nonneg_r; [ lia | ].
        rewrite Hp at 1. assert (0 < 2 ^ 1021) by (apply Z.pow_pos_nonneg; lia). nia.
      + replace (255 * 2 ^ 1074 * (Z.of_nat (2 * n) * 2 ^ 1074))
          with (255 * Z.of_nat (2 * n) * 2 ^ 1074 * 2 ^ 1074) by ring.
        apply Z.mul_le_mono_nonneg_r; [ lia | ].
        apply Z.mul_le_mono_nonneg_r; lia. }
  destruct Havg as (Pavg & Lavg & Uavg).
  set (avg := (num_of_nat S / num_of_nat (2 * n))%float) in *.
  assert (Hb : posnormal (avg / 255) /\ sc 0x1p-61 <= sc (avg / 255)%float <= sc 1).
  { apply div_sc; try assumption;
      try exact posnormal_tiny61; try exact posnormal_255; try exact posnormal_1.
    - rewrite sc_tiny61. apply Z.pow_le_mono_r; lia.
    - rewrite sc_tiny61, sc_255, sc_1. rewrite sc_tiny53 in Lavg. rewrite sc_255 in Uavg.
      assert (Hp : 2 ^ 1021 = 2 ^ 1013 * 2 ^ 8) by reflexivity.
      assert (0 < 2 ^ 1013) by (apply Z.pow_pos_nonneg; lia).
      split.
      + replace (2 ^ 1013 * (255 * 2 ^ 1074)) with (255 * 2 ^ 1013 * 2 ^ 1074) by ring.
        apply Z.mul_le_mono_nonneg_r; [ lia | ]. nia.
      + replace (2 ^ 1074 * (255 * 2 ^ 1074)) with (255 * 2 ^ 1074 * 2 ^ 1074) by ring.
        apply Z.mul_le_mono_nonneg_r; lia. }
  destruct Hb as (Pb & Lb & Ub).
  split; [ | split ].
  - destruct (posnormal_truthy _ Pb) as [_ Hnum]. split.
    + rewrite leb_ord by (reflexivity || assumption). apply Z.leb_le.
      change (ord 0%float) with 0.
      destruct (posnormal_rep _ Pb) as (m & e & Hr & _ & _ & Hs & He).
      unfold ord. rewrite Hr. cbn [ordSF cond_Zopp].
      pose proof (scaled_pos m e He). lia.
    + apply leb_sc; [ assumption | exact posnormal_1 | lia ].
  - intros H. contradiction.
  - intros HS. unfold avg.
    assert (E : (num_of_nat S / num_of_nat (2 * n))%float = 255%float).
    { apply squeezed; [ | exact posnormal_255 ].
      apply div_sc; try assumption; try exact posnormal_255.
      - rewrite sc_255. assert (2 ^ 106 <= 2 ^ 1074) by (apply Z.pow_le_mono_r; lia). lia.
      - rewrite sc_255, S2, SS, HS.
        replace (Z.of_nat (510 * n)) with (255 * Z.of_nat (2 * n)) by lia.
        split; apply Z.eq_le_incl; ring. }
    rewrite E. reflexivity.
Qed.

End BrightnessRange.

Lemma averageBrightness_between_0_and_1_witness :
  (0 <=? averageBrightness [Byte.x10; Byte.x20; Byte.x30; Byte.xff])%float = true.
Proof.
  apply (averageBrightness_between_0_and_1
           [Byte.x10; Byte.x20; Byte.x30; Byte.xff] 1);
    [ reflexivity | lia | reflexivity ].
Defined.

Lemma averageBrightness_reads_red_and_green_witness :
  averageBrightness [Byte.x10; Byte.x20; Byte.x30; Byte.xff]
  = averageBrightness [Byte.x10; Byte.x20; Byte.x00; Byte.x00].
Proof.
  apply (proj1 averageBrightness_reads_red_and_green); [ reflexivity | ].
  intros [| [| [| [| i]]]] Hi; try reflexivity; cbn in Hi; lia.
Defined.

(** ** Medians of values in a range *)

Section ClosedRange.
Local Open Scope Z_scope.
Variables lo hi lo2 hi2 : float.
Hypothesis Plo : posnormal lo.
Hypothesis Phi : posnormal hi.
Hypothesis Plo2 : posnormal lo2.
Hypothesis Phi2 : posnormal hi2.
Hypothesis Elo : sc lo2 = 2 * sc lo.
Hypothesis Ehi : sc hi2 = 2 * sc hi.
Hypothesis Hbig : 2 ^ 56 <= sc lo2.

Lemma inRange_sc (x : number) :
  inRange lo hi x = true -> posnormal x /\ sc lo <= sc x <= sc hi.
Proof.
  unfold inRange. rewrite andb_true_iff. intros [Hl Hh].
  now apply between_posnormal.
Qed.

Lemma sc_inRange (x : number) :
  posnormal x -> sc lo <= sc x <= sc hi -> inRange lo hi x = true.
Proof.
  intros Px [Hl Hh]. unfold inRange. apply andb_true_intro.
  split; apply leb_sc; assumption.
Qed.

Lemma mean_inRange (a b : number) :
  inRange lo hi a = true -> inRange lo hi b = true ->
  inRange lo hi ((a + b) / 2)%float = true.
Proof.
  intros Ha Hb. apply inRange_sc in Ha, Hb.
  destruct Ha as (Hpa & Hla & Hha), Hb as (Hpb & Hlb & Hhb).
  destruct (add_sc a b lo2 hi2 Hpa Hpb Plo2 Phi2 ltac:(lia))
    as (Hps & Hls & Hhs).
  destruct (half_sc (a + b)%float lo hi Hps Plo Phi ltac:(lia) ltac:(lia))
    as (Hph & Hlh & Hhh).
  now apply sc_inRange.
Qed.

Lemma calculateMedian_inRange (l : list number) :
  l <> [] ->
  Forall (fun x => inRange lo hi x = true) l ->
  exists m, calculateMedian l = Some m /\ inRange lo hi m = true.
Proof.
  intros Hne Hall.
  rewrite (calculateMedian_sorted l Hne). cbv zeta.
  rewrite filter_all
    by (eapply Forall_impl; [ | exact Hall ];
        intros x Hx; cbv beta;
        now rewrite (proj2 (posnormal_truthy x (proj1 (inRange_sc x Hx))))).
  rewrite sort_numbers_length.
  assert (Hlen : (0 < length l)%nat) by (destruct l; [ contradiction | cbn; lia ]).
  assert (Hnth : forall i, (i < length l)%nat ->
                           inRange lo hi (nth i (sort_numbers l) nan) = true).
  { intros i Hi. rewrite Forall_forall in Hall. apply Hall.
    apply sort_numbers_In. apply nth_In. now rewrite sort_numbers_length. }
  destruct (Nat.eqb_spec (length l) 0) as [H0 | _]; [ lia | ].
  assert (Hhalf : (length l / 2 < length l)%nat) by (apply Nat.div_lt; lia).
  destruct (Nat.even (length l)).
  - eexists. split; [ reflexivity | ]. apply mean_inRange; apply Hnth; lia.
  - eexists. split; [ reflexivity | ]. apply Hnth. lia.
Qed.

End ClosedRange.

(** ** The range of the raw BPM estimate *)

Section EstimateRange.
Local Open Scope Z_scope.

Lemma posnormal_270 : posnormal 270. Proof. posnormal_literal. Qed.
Lemma posnormal_540 : posnormal 540. Proof. posnormal_literal. Qed.
Lemma posnormal_2000 : posnormal 2000. Proof. posnormal_literal. Qed.
Lemma posnormal_4000 : posnormal 4000. Proof. posnormal_literal. Qed.
Lemma posnormal_60000 : posnormal 60000. Proof. posnormal_literal. Qed.
Lemma posnormal_222_25 : posnormal 222.25. Proof. posnormal_literal. Qed.

Lemma sc_540 : sc 540 = 2 * sc 270. Proof. vm_compute. reflexivity. Qed.
Lemma sc_4000 : sc 4000 = 2 * sc 2000. Proof. vm_compute. reflexivity. Qed.
Lemma sc_540_big : 2 ^ 56 <= sc 540. Proof. apply Z.leb_le. vm_compute. reflexivity. Qed.
Lemma sc_30_big : 2 ^ 106 <= sc 30. Proof. apply Z.leb_le. vm_compute. reflexivity. Qed.
Lemma sc_slowest : sc 30 * sc 2000 = sc 60000 * 2 ^ 1074.
Proof. vm_compute. reflexivity. Qed.
Lemma sc_fastest : sc 60000 * 2 ^ 1074 <= sc 222.25 * sc 270.
Proof. apply Z.leb_le. vm_compute. reflexivity. Qed.

(** The median of the plausible intervals lies between 270 and 2000. *)
Lemma plausible_median (crossingSamples : list Sample) :
  plausibleIntervals crossingSamples <> [] ->
  exists m,
    calculateMedian (plausibleIntervals crossingSamples) = Some m
    /\ inRange 270 2000 m = true.
Proof.
  intros Hne.
  apply (calculateMedian_inRange 270 2000 540 4000 posnormal_270 posnormal_2000
           posnormal_540 posnormal_4000 sc_540 sc_4000 sc_540_big); [ exact Hne | ].
  apply Forall_forall. intros dt Hdt. unfold plausibleIntervals in Hdt.
  apply filter_In in Hdt. destruct Hdt as [_ Hdt].
  apply andb_true_iff in Hdt. destruct Hdt as [Hl Hh].
  unfold inRange. apply andb_true_intro. split; now apply ltb_leb.
Qed.

(** An interval between 270 and 2000 gives a BPM between 30 and 222.25. *)
Lemma bpm_of_interval (m : number) :
  inRange 270 2000 m = true -> inRange 30 222.25 (60000 / m)%float = true.
Proof.
  intros Hm.
  apply (inRange_sc 270 2000 posnormal_270 posnormal_2000) in Hm.
  destruct Hm as (Pm & Lm & Um).
  pose proof (posnormal_sc_ge 30 posnormal_30) as H30.
  pose proof (posnormal_sc_ge 222.25 posnormal_222_25) as H222.
  apply (sc_inRange 30 222.25 posnormal_30 posnormal_222_25);
    apply (div_sc 60000 m 30 222.25 posnormal_60000 Pm posnormal_30
             posnormal_222_25 sc_30_big).
  - split.
    + rewrite <- sc_slowest. apply Z.mul_le_mono_nonneg_l; lia.
    + etransitivity; [ exact sc_fastest | ]. apply Z.mul_le_mono_nonneg_l; lia.
  - split.
    + rewrite <- sc_slowest. apply Z.mul_le_mono_nonneg_l; lia.
    + etransitivity; [ exact sc_fastest | ]. apply Z.mul_le_mono_nonneg_l; lia.
Qed.

End EstimateRange.

(** Whatever the crossing events, an estimate that [calculateBpm] returns
    lies between 30 and 222.25 BPM: the intervals it keeps are between 270
    and 2000 ms, and so is their median. The caller's test [rawBpm >= 30]
    is therefore always true, and an estimate is accepted exactly when it
    is at most 220. *)
Theorem calculateBpm_estimate_range :
  forall (crossingSamples : list Sample) (rawBpm : number),
    calculateBpm crossingSamples = Some rawBpm ->
    (30 <=? rawBpm)%float = true
    /\ (rawBpm <=? 222.25)%float = true
    /\ rawBpmAccepted (Some rawBpm) = (rawBpm <=? 220)%float.
Proof.
  intros crossingSamples rawBpm Hsome.
  rewrite calculateBpm_cases in Hsome.
  destruct (Nat.ltb (length crossingSamples) 2); [ discriminate | ].
  destruct (plausibleIntervals crossingSamples) as [| dt rest] eqn:Hp;
    [ discriminate | ].
  destruct (plausible_median crossingSamples) as (m & Hm & Hr);
    [ rewrite Hp; discriminate | ].
  rewrite Hp in Hm. rewrite Hm in Hsome.
  destruct ((m <=? 0) || isNaN m)%float; [ discriminate | ].
  injection Hsome as <-.
  pose proof (bpm_of_interval m Hr) as Hb. unfold inRange in Hb.
  apply andb_true_iff in Hb. destruct Hb as [Hlo Hhi].
  split; [ exact Hlo | ]. split; [ exact Hhi | ].
  cbn [rawBpmAccepted]. now rewrite Hlo.
Qed.

Lemma calculateBpm_estimate_range_witness :
  (30 <=? 60000 / 833)%float = true.
Proof.
  apply (calculateBpm_estimate_range [mkSample 0.6 1000; mkSample 0.6 1833]
           (60000 / 833)%float).
  reflexivity.
Defined.

(** ** The simpler monitor *)

Section MainJsRanges.
Local Open Scope Z_scope.

Lemma posnormal_240 : posnormal 240. Proof. posnormal_literal. Qed.
Lemma posnormal_241 : posnormal 241. Proof. posnormal_literal. Qed.
Lemma posnormal_480 : posnormal 480. Proof. posnormal_literal. Qed.
Lemma posnormal_168_75 : posnormal 168.75. Proof. posnormal_literal. Qed.
Lemma posnormal_72_25 : posnormal 72.25. Proof. posnormal_literal. Qed.

Lemma sc_480 : sc 480 = 2 * sc 240. Proof. vm_compute. reflexivity. Qed.
Lemma sc_241 : sc 241 = 241 * 2 ^ 1074. Proof. vm_compute. reflexivity. Qed.
Lemma sc_240_241 : sc 240 <= sc 241. Proof. apply Z.leb_le. vm_compute. reflexivity. Qed.
Lemma sc_07_hi_241 : sc 241 * sc 0.7 <= sc 168.75 * 2 ^ 1074.
Proof. apply Z.leb_le. vm_compute. reflexivity. Qed.
Lemma sc_03_hi_240 : sc 240 * sc 0.3 <= sc 72.25 * 2 ^ 1074.
Proof. apply Z.leb_le. vm_compute. reflexivity. Qed.
Lemma sc_sum_hi_241 : sc 168.75 + sc 72.25 <= sc 241.
Proof. apply Z.leb_le. vm_compute. reflexivity. Qed.

Lemma rawRange_sc (x : number) :
  inRange 30 240 x = true -> posnormal x /\ sc 30 <= sc x <= sc 240.
Proof. apply inRange_sc; [ exact posnormal_30 | exact posnormal_240 ]. Qed.

Lemma lockRange_sc (x : number) :
  inRange 29 241 x = true -> posnormal x /\ sc 29 <= sc x <= sc 241.
Proof. apply inRange_sc; [ exact posnormal_29 | exact posnormal_241 ]. Qed.

Lemma raw_is_lockRange (m : number) :
  inRange 30 240 m = true -> inRange 29 241 m = true.
Proof.
  intros Hm. apply rawRange_sc in Hm. destruct Hm as (Hp & Hl & Hh).
  pose proof sc_29_30. pose proof sc_240_241.
  apply sc_inRange; auto using posnormal_29, posnormal_241. lia.
Qed.

(** The smoothing step of the simpler monitor keeps the candidate in its
    range. *)
Lemma MainJs_blend (c m : number) :
  inRange 29 241 c = true -> inRange 30 240 m = true ->
  inRange 29 241 (c * 0.7 + m * 0.3)%float = true.
Proof.
  intros Hc Hm. apply lockRange_sc in Hc. apply rawRange_sc in Hm.
  destruct Hc as (Hpc & Hlc & Hhc), Hm as (Hpm & Hlm & Hhm).
  pose proof (posnormal_sc_ge 0.7%float posnormal_07) as H07.
  pose proof (posnormal_sc_ge 0.3%float posnormal_03) as H03.
  assert (Hc7 : sc 20.25 * 2 ^ 1074 <= sc c * sc 0.7 <= sc 168.75 * 2 ^ 1074).
  { split.
    - etransitivity; [ exact sc_07_lo | apply Z.mul_le_mono_nonneg_r; lia ].
    - etransitivity; [ | exact sc_07_hi_241 ]. apply Z.mul_le_mono_nonneg_r; lia. }
  assert (Hm3 : sc 8.75 * 2 ^ 1074 <= sc m * sc 0.3 <= sc 72.25 * 2 ^ 1074).
  { split.
    - etransitivity; [ exact sc_03_lo | apply Z.mul_le_mono_nonneg_r; lia ].
    - etransitivity; [ | exact sc_03_hi_240 ]. apply Z.mul_le_mono_nonneg_r; lia. }
  destruct (mul_sc c 0.7 20.25 168.75 Hpc posnormal_07 posnormal_20_25
              posnormal_168_75 sc_20_25_big Hc7) as (Hp1 & Hl1 & Hh1).
  destruct (mul_sc m 0.3 8.75 72.25 Hpm posnormal_03 posnormal_8_75
              posnormal_72_25 sc_8_75_big Hm3) as (Hp2 & Hl2 & Hh2).
  pose proof sc_sum_lo. pose proof sc_sum_hi_241.
  destruct (add_sc (c * 0.7)%float (m * 0.3)%float 29 241 Hp1 Hp2
              posnormal_29 posnormal_241 ltac:(lia)) as (Hps & Hls & Hhs).
  apply sc_inRange; auto using posnormal_29, posnormal_241.
Qed.

(** Rounding a number between two whole numbers gives a whole number
    between them. *)
Lemma Math_round_between (c : number) (a b : Z) :
  1 <= a -> b < 2 ^ 52 ->
  posnormal c -> a * 2 ^ 1074 <= sc c <= b * 2 ^ 1074 ->
  isWholeBetween a b (Math_round c).
Proof.
  intros Ha Hb Hp [Hl Hh].
  destruct (posnormal_rep c Hp) as (m & e & Hx & _ & Hd & Hs & He).
  rewrite Hs in Hl, Hh. unfold scaled in Hl, Hh.
  pose proof (dig_53_ge m Hd) as Hm.
  assert (Hg : 0 < 2 ^ (e + 1074)) by (apply Z.pow_pos_nonneg; lia).
  assert (H1074 : 0 < 2 ^ 1074) by (apply Z.pow_pos_nonneg; lia).
  assert (Hneg : e < 0).
  { destruct (Z.lt_ge_cases e 0) as [| Hge]; [ assumption | exfalso ].
    assert (Hp2 : 2 ^ 1074 <= 2 ^ (e + 1074)) by (apply Z.pow_le_mono_r; lia).
    assert (2 ^ 52 * 2 ^ 1074 <= Zpos m * 2 ^ (e + 1074))
      by (apply Z.mul_le_mono_nonneg; lia).
    assert (b * 2 ^ 1074 < 2 ^ 52 * 2 ^ 1074)
      by (apply Z.mul_lt_mono_pos_r; assumption).
    lia. }
  set (k := - e). assert (Hk : 0 < k) by (unfold k; lia).
  assert (H2k : 0 < 2 ^ k) by (apply Z.pow_pos_nonneg; lia).
  assert (Hsplit : 2 ^ 1074 = 2 ^ (e + 1074) * 2 ^ k).
  { rewrite <- Z.pow_add_r by lia. f_equal. unfold k. lia. }
  rewrite Hsplit in Hl, Hh.
  assert (Hlo : a * 2 ^ k <= Zpos m).
  { apply (Z.mul_le_mono_pos_r _ _ (2 ^ (e + 1074)) Hg).
    rewrite <- Hl. apply Z.eq_le_incl. ring. }
  assert (Hhi : Zpos m <= b * 2 ^ k).
  { apply (Z.mul_le_mono_pos_r _ _ (2 ^ (e + 1074)) Hg).
    etransitivity; [ exact Hh | ]. apply Z.eq_le_incl. ring. }
  unfold Math_round. rewrite Hx.
  destruct (Z.leb_spec 0 e) as [| _]; [ lia | ].
  cbn [cond_Zopp]. fold k. replace (1 - e) with (k + 1) by (unfold k; lia).
  set (z := (2 * Zpos m + 2 ^ k) / 2 ^ (k + 1)).
  assert (Hpow : 2 ^ (k + 1) = 2 * 2 ^ k) by (apply Z.pow_succ_r; lia).
  assert (Hz : a <= z <= b).
  { unfold z. rewrite Hpow. split.
    - apply Z.div_le_lower_bound; [ lia | ]. nia.
    - assert ((2 * Zpos m + 2 ^ k) / (2 * 2 ^ k) < b + 1); [ | lia ].
      apply Z.div_lt_upper_bound; [ lia | ]. nia. }
  destruct (Z.eqb_spec z 0) as [| _]; [ lia | ].
  exists z. split; [ exact Hz | reflexivity ].
Qed.

Lemma Math_round_lockRange (c : number) :
  inRange 29 241 c = true -> isWholeBetween 29 241 (Math_round c).
Proof.
  intros Hc. apply lockRange_sc in Hc. destruct Hc as (Hp & Hl & Hh).
  apply Math_round_between; try assumption; try lia.
  rewrite <- sc_29, <- sc_241. lia.
Qed.

(** A raw BPM that is not rejected lies between 30 and 240. *)
Lemma notRejected_inRange (r : number) :
  MainJsMonitor.rawBpmRejected (Some r) = false -> inRange 30 240 r = true.
Proof.
  cbn [MainJsMonitor.rawBpmRejected]. intros H.
  apply orb_false_iff in H. destruct H as [H H240].
  apply orb_false_iff in H. destruct H as [Hnan H30].
  destruct (posnormal_truthy 30 posnormal_30) as [_ N30].
  destruct (posnormal_truthy 240 posnormal_240) as [_ N240].
  rewrite ltb_ord in H30, H240 by assumption.
  unfold inRange. rewrite !leb_ord by assumption.
  apply andb_true_intro. split; apply Z.leb_le.
  - apply Z.ltb_ge in H30. exact H30.
  - apply Z.ltb_ge in H240. exact H240.
Qed.

End MainJsRanges.

Lemma MainJs_wf_initialState : MainJs_wf MainJsMonitor.initialState.
Proof.
  split; cbn.
  - lia.
  - constructor.
  - lia.
  - exact I.
  - exact I.
Qed.

Lemma MainJs_wf_reset (clearLastLockedBpm : bool) (s : MainJsMonitor.State) :
  MainJs_wf s -> MainJs_wf (MainJsMonitor.resetBpmStability clearLastLockedBpm s).
Proof.
  intros [H1 H2 H3 H4 H5]. split; cbn.
  - exact H1.
  - constructor.
  - lia.
  - exact I.
  - destruct clearLastLockedBpm; [ exact I | assumption ].
Qed.

Lemma MainJs_shown_lock (s : MainJsMonitor.State) (status : string) :
  MainJs_wf s ->
  In status [ "Analyzing..."; "Low Signal"; "Detecting..."; "Hold Still";
              "Calculating..." ]%string ->
  MainJs_displayAllowed
    match MainJsMonitor.lastDisplayedBpm s with
    | Some l => DNumber (Math_round l)
    | None => DStatus status
    end.
Proof.
  intros [_ _ _ _ H5] Hin.
  destruct (MainJsMonitor.lastDisplayedBpm s) as [l |]; cbn in *.
  - now apply Math_round_lockRange.
  - exact Hin.
Qed.

Lemma MainJs_updateStableCandidate_wf (medianBpm : number) (s : MainJsMonitor.State) :
  MainJs_wf s -> inRange 30 240 medianBpm = true ->
  MainJs_wf (MainJsMonitor.updateStableCandidate medianBpm s)
  /\ exists c,
       MainJsMonitor.stableBpmCandidate
         (MainJsMonitor.updateStableCandidate medianBpm s) = Some c
       /\ inRange 29 241 c = true.
Proof.
  intros [H1 H2 H3 H4 H5] Hm. unfold MainJsMonitor.updateStableCandidate.
  destruct (MainJsMonitor.stableBpmCandidate s) as [c |] eqn:Hc; cbn in H4.
  - destruct (_ <=? _)%float.
    + pose proof (MainJs_blend c medianBpm H4 Hm) as Hb.
      split; [ split; cbn; assumption | eexists; split; [ reflexivity | exact Hb ] ].
    + pose proof (raw_is_lockRange medianBpm Hm) as Hb.
      split; [ split; cbn; assumption | eexists; split; [ reflexivity | exact Hb ] ].
  - pose proof (raw_is_lockRange medianBpm Hm) as Hb.
    split; [ split; cbn; assumption | eexists; split; [ reflexivity | exact Hb ] ].
Qed.

Lemma MainJs_processFrame_spec (s : MainJsMonitor.State) (sample : Sample) :
  MainJs_wf s ->
  MainJs_wf (fst (MainJsMonitor.processFrame s sample))
  /\ MainJs_displayAllowed (snd (MainJsMonitor.processFrame s sample)).
Proof.
  intros Hwf. unfold MainJsMonitor.processFrame.
  set (s0 := MainJsMonitor.mkState _ _ _ _ _).
  assert (Hwf0 : MainJs_wf s0).
  { destruct Hwf as [H1 H2 H3 H4 H5]. split; cbn; try assumption.
    now apply pushBounded_length. }
  clearbody s0. cbv zeta.
  destruct (Nat.ltb _ MainJsMonitor.MIN_SAMPLES_FOR_RELIABLE_BPM).
  { split; [ now apply MainJs_wf_reset | cbn; tauto ]. }
  destruct (_ <? MainJsMonitor.MIN_SIGNAL_RANGE_FOR_CALCULATION)%float.
  { split; [ now apply MainJs_wf_reset | cbn; tauto ]. }
  destruct (Nat.ltb _ MainJsMonitor.MIN_CROSSINGS_FOR_CALCULATION).
  { cbn [fst snd]. split; [ now apply MainJs_wf_reset | ].
    apply MainJs_shown_lock; [ now apply MainJs_wf_reset | cbn; tauto ]. }
  assert (Hbad : MainJs_displayAllowed
                   match MainJsMonitor.lastDisplayedBpm s0 with
                   | Some l => DNumber (Math_round l)
                   | None =>
                       match MainJsMonitor.stableBpmCandidate s0 with
                       | Some c => DNumber (Math_round c)
                       | None => DStatus "Hold Still"
                       end
                   end).
  { destruct Hwf0 as [_ _ _ H4 H5].
    destruct (MainJsMonitor.lastDisplayedBpm s0) as [l |]; cbn in *;
      [ now apply Math_round_lockRange | ].
    destruct (MainJsMonitor.stableBpmCandidate s0) as [c |]; cbn in *;
      [ now apply Math_round_lockRange | tauto ]. }
  destruct (MainJsMonitor.calculateBpm _) as [r |]; [ | split; assumption ].
  destruct (MainJsMonitor.rawBpmRejected (Some r)) eqn:Hrej; [ split; assumption | ].
  apply notRejected_inRange in Hrej.
  set (s1 := MainJsMonitor.mkState _ _ _ _ _).
  assert (Hwf1 : MainJs_wf s1).
  { destruct Hwf0 as [H1 H2 H3 H4 H5]. split; cbn; try assumption.
    - now apply pushBounded_Forall.
    - now apply pushBounded_length. }
  clearbody s1.
  destruct (Nat.ltb_spec (length (MainJsMonitor.rawBpmBuffer s1))
              (MainJsMonitor.RAW_BPM_BUFFER_SIZE / 2)) as [Hfew | Henough].
  { cbn [fst snd]. split; [ exact Hwf1 | ].
    apply MainJs_shown_lock; [ exact Hwf1 | cbn; tauto ]. }
  assert (Hne : MainJsMonitor.rawBpmBuffer s1 <> []).
  { intros E. rewrite E in Henough. cbn in Henough. lia. }
  destruct (calculateMedian_inRange 30 240 60 480 posnormal_30 posnormal_240
              posnormal_60 posnormal_480 sc_60 sc_480 sc_60_big
              (MainJsMonitor.rawBpmBuffer s1) Hne (MainJs_wf_raw s1 Hwf1))
    as (m & Hm & Hr).
  rewrite Hm.
  destruct (MainJs_updateStableCandidate_wf m s1 Hwf1 Hr) as (Hwf2 & c & Hc & Hcr).
  set (s2 := MainJsMonitor.updateStableCandidate m s1) in *.
  destruct (Nat.leb MainJsMonitor.REQUIRED_STABILITY_COUNT
              (MainJsMonitor.stabilityCounter s2)).
  - cbn [fst snd MainJsMonitor.lastDisplayedBpm]. rewrite Hc. cbn [Math_round_opt].
    split; [ | now apply Math_round_lockRange ].
    destruct Hwf2 as [H1 H2 H3 H4 H5]. split; cbn; assumption.
  - destruct (MainJsMonitor.lastDisplayedBpm s2) as [l |] eqn:Hl; cbn [fst snd].
    + split; [ exact Hwf2 | ].
      destruct Hwf2 as [_ _ _ _ H5]. rewrite Hl in H5.
      now apply Math_round_lockRange.
    + split; [ exact Hwf2 | ]. rewrite Hc. cbn [Math_round_opt].
      now apply Math_round_lockRange.
Qed.

Lemma MainJs_reachable_wf (s : MainJsMonitor.State) :
  MainJs_reachable s -> MainJs_wf s.
Proof.
  induction 1 as [| s sample _ IH];
    [ exact MainJs_wf_initialState | now apply MainJs_processFrame_spec ].
Qed.

Lemma MainJs_reachable_run (samples : list Sample) :
  forall s, MainJs_reachable s -> MainJs_reachable (MainJsMonitor.run s samples).
Proof.
  induction samples as [| sample samples IH]; intros s Hs; [ exact Hs | ].
  change (MainJsMonitor.run s (sample :: samples))
    with (MainJsMonitor.run (fst (MainJsMonitor.processFrame s sample)) samples).
  apply IH. now constructor.
Qed.

(** In every state of the simpler monitor the buffers are bounded (300
    samples, 10 raw BPMs), the raw BPMs lie within [30, 240] and the stable
    candidate and the locked BPM within [29, 241]; and every tick displays
    either a whole number between 29 and 241 or one of the status strings
    "Analyzing...", "Low Signal", "Detecting...", "Hold Still" and
    "Calculating...". The string "Error" is never displayed: the median of
    the raw BPM buffer is never [null]. *)
Theorem MainJs_values_and_display :
  forall (s : MainJsMonitor.State) (sample : Sample),
    MainJs_reachable s ->
    (length (MainJsMonitor.SAMPLE_BUFFER s) <= 300
     /\ length (MainJsMonitor.rawBpmBuffer s) <= 10
     /\ Forall (fun r => ((30 <=? r) && (r <=? 240))%float = true)
          (MainJsMonitor.rawBpmBuffer s)
     /\ (forall c, MainJsMonitor.stableBpmCandidate s = Some c ->
                   ((29 <=? c) && (c <=? 241))%float = true)
     /\ (forall l, MainJsMonitor.lastDisplayedBpm s = Some l ->
                   ((29 <=? l) && (l <=? 241))%float = true))
    /\ match snd (MainJsMonitor.processFrame s sample) with
       | DNumber n => exists z : Z, (29 <= z <= 241)%Z /\ n = num_of_Z z
       | DTentative _ => False
       | DStatus str =>
           In str
             [ "Analyzing..."; "Low Signal"; "Detecting..."; "Hold Still";
               "Calculating..." ]%string
       end.
Proof.
  intros s sample Hreach. pose proof (MainJs_reachable_wf s Hreach) as Hwf.
  split.
  - destruct Hwf as [H1 H2 H3 H4 H5].
    split; [ exact H1 | ]. split; [ exact H3 | ]. split; [ exact H2 | ].
    split; intros x Hx; rewrite Hx in *; assumption.
  - exact (proj2 (MainJs_processFrame_spec s sample Hwf)).
Qed.

Lemma MainJs_values_and_display_witness :
  length (MainJsMonitor.rawBpmBuffer MainJsMonitor.initialState) <= 10.
Proof.
  apply (MainJs_values_and_display MainJsMonitor.initialState (mkSample 0.5 1000)).
  constructor.
Defined.

(** ** How early the simpler monitor can lock *)

Lemma MainJs_updateStableCandidate_counter (medianBpm : number)
    (s : MainJsMonitor.State) :
  let s' := MainJsMonitor.updateStableCandidate medianBpm s in
  MainJsMonitor.SAMPLE_BUFFER s' = MainJsMonitor.SAMPLE_BUFFER s
  /\ MainJsMonitor.rawBpmBuffer s' = MainJsMonitor.rawBpmBuffer s
  /\ MainJsMonitor.lastDisplayedBpm s' = MainJsMonitor.lastDisplayedBpm s
  /\ 1 <= MainJsMonitor.stabilityCounter s'
     <= MainJsMonitor.stabilityCounter s + 1.
Proof.
  cbv zeta. unfold MainJsMonitor.updateStableCandidate.
  destruct (MainJsMonitor.stableBpmCandidate s) as [c |];
    [ destruct (_ <=? _)%float | ]; cbn; repeat split; lia.
Qed.

Lemma MainJs_within_initialState : MainJs_within 0 MainJsMonitor.initialState.
Proof. split; cbn; auto; lia. Qed.

Lemma MainJs_within_processFrame (t : nat) (s : MainJsMonitor.State)
    (sample : Sample) :
  MainJs_within t s ->
  MainJs_within (S t) (fst (MainJsMonitor.processFrame s sample)).
Proof.
  intros [Hs Hr Hn Hl]. unfold MainJsMonitor.processFrame.
  set (s0 := MainJsMonitor.mkState _ _ _ _ _).
  assert (H0 : length (MainJsMonitor.SAMPLE_BUFFER s0) <= S t
               /\ length (MainJsMonitor.rawBpmBuffer s0) <= t - 99
               /\ MainJsMonitor.stabilityCounter s0 <= t - 103
               /\ (t < 108 -> MainJsMonitor.lastDisplayedBpm s0 = None)).
  { cbn. repeat split; try assumption.
    etransitivity; [ apply pushBounded_length_le | lia ]. }
  clearbody s0. destruct H0 as (Hs0 & Hr0 & Hn0 & Hl0). cbv zeta.
  assert (Hsame : MainJs_within (S t) s0).
  { split; try lia. intros Ht. apply Hl0. lia. }
  change MainJsMonitor.MIN_SAMPLES_FOR_RELIABLE_BPM with 100.
  destruct (Nat.ltb_spec (length (MainJsMonitor.SAMPLE_BUFFER s0)) 100)
    as [Hshort | Hlong].
  { split; cbn; auto; lia. }
  destruct (_ <? MainJsMonitor.MIN_SIGNAL_RANGE_FOR_CALCULATION)%float.
  { split; cbn; auto; lia. }
  destruct (Nat.ltb _ MainJsMonitor.MIN_CROSSINGS_FOR_CALCULATION).
  { split; cbn; try lia. intros Ht. apply Hl0. lia. }
  destruct (MainJsMonitor.calculateBpm _) as [r |]; [ | exact Hsame ].
  destruct (MainJsMonitor.rawBpmRejected (Some r)); [ exact Hsame | ].
  set (s1 := MainJsMonitor.mkState _ _ _ _ _).
  assert (H1 : length (MainJsMonitor.SAMPLE_BUFFER s1) <= S t
               /\ length (MainJsMonitor.rawBpmBuffer s1) <= S t - 99
               /\ MainJsMonitor.stabilityCounter s1 <= t - 103
               /\ (t < 108 -> MainJsMonitor.lastDisplayedBpm s1 = None)).
  { cbn. repeat split; try assumption.
    etransitivity; [ apply pushBounded_length_le | lia ]. }
  clearbody s1. destruct H1 as (Hs1 & Hr1 & Hn1 & Hl1).
  assert (Hsame1 : MainJs_within (S t) s1).
  { split; try lia. intros Ht. apply Hl1. lia. }
  change (MainJsMonitor.RAW_BPM_BUFFER_SIZE / 2) with 5.
  destruct (Nat.ltb_spec (length (MainJsMonitor.rawBpmBuffer s1)) 5)
    as [Hfew | Henough]; [ exact Hsame1 | ].
  destruct (calculateMedian _) as [m |]; [ | exact Hsame1 ].
  destruct (MainJs_updateStableCandidate_counter m s1) as (E1 & E2 & E3 & Hc).
  set (s2 := MainJsMonitor.updateStableCandidate m s1) in *. clearbody s2.
  change MainJsMonitor.REQUIRED_STABILITY_COUNT with 5.
  destruct (Nat.leb_spec 5 (MainJsMonitor.stabilityCounter s2)) as [Hlock | Hnot].
  - cbn [fst]. split; cbn; try lia.
    + rewrite E1. exact Hs1.
    + rewrite E2. exact Hr1.
  - match goal with
    | |- MainJs_within _ (fst ?e) =>
        replace (fst e) with s2
          by (destruct (MainJsMonitor.lastDisplayedBpm s2); reflexivity)
    end.
    split; try lia.
    + rewrite E1. exact Hs1.
    + rewrite E2. exact Hr1.
    + rewrite E3. intros Ht. apply Hl1. lia.
Qed.

Lemma MainJs_within_run (samples : list Sample) : forall t s,
  MainJs_within t s ->
  MainJs_within (t + length samples) (MainJsMonitor.run s samples).
Proof.
  induction samples as [| sample samples IH]; intros t s H.
  - now rewrite Nat.add_0_r.
  - change (MainJsMonitor.run s (sample :: samples))
      with (MainJsMonitor.run (fst (MainJsMonitor.processFrame s sample)) samples).
    cbn [length]. rewrite <- Nat.add_succ_comm. apply IH.
    now apply MainJs_within_processFrame.
Qed.

(** From the start of the monitoring, the simpler monitor locks no BPM
    during the first 107 ticks, whatever the samples: a raw BPM needs 100
    samples, a median four more raw BPMs, and the lock four more
    confirmations. The bound is reached: a clean pulse of about 208 BPM is
    locked by the 108th tick. *)
Theorem MainJs_no_lock_before_tick_108 :
  (forall samples : list Sample,
      length samples < 108 ->
      MainJsMonitor.lastDisplayedBpm
        (MainJsMonitor.run MainJsMonitor.initialState samples) = None)
  /\ MainJsMonitor.lastDisplayedBpm
       (MainJsMonitor.run MainJsMonitor.initialState
          (map quickSample (seq 0 108))) <> None.
Proof.
  split.
  - intros samples Hlen.
    apply (MainJs_within_lock _ _
             (MainJs_within_run samples 0 MainJsMonitor.initialState
                MainJs_within_initialState)).
    exact Hlen.
  - vm_compute. discriminate.
Qed.

(** ** A weak signal and the lock of the simpler monitor *)

Lemma MainJs_processFrame_SAMPLE_BUFFER (s : MainJsMonitor.State)
    (sample : Sample) :
  MainJsMonitor.SAMPLE_BUFFER (fst (MainJsMonitor.processFrame s sample))
  = pushBounded MAX_SAMPLES (MainJsMonitor.SAMPLE_BUFFER s) sample.
Proof.
  unfold MainJsMonitor.processFrame. cbv zeta.
  cbn [MainJsMonitor.SAMPLE_BUFFER].
  destruct (Nat.ltb _ MainJsMonitor.MIN_SAMPLES_FOR_RELIABLE_BPM);
    [ reflexivity | ].
  destruct (_ <? MainJsMonitor.MIN_SIGNAL_RANGE_FOR_CALCULATION)%float;
    [ reflexivity | ].
  destruct (Nat.ltb _ MainJsMonitor.MIN_CROSSINGS_FOR_CALCULATION);
    [ reflexivity | ].
  destruct (MainJsMonitor.calculateBpm _) as [r |]; [ | reflexivity ].
  destruct (MainJsMonitor.rawBpmRejected (Some r)); [ reflexivity | ].
  destruct (Nat.ltb _ (MainJsMonitor.RAW_BPM_BUFFER_SIZE / 2)); [ reflexivity | ].
  destruct (calculateMedian _) as [m |]; [ | reflexivity ].
  set (s1 := MainJsMonitor.mkState _ _ _ _ _).
  destruct (MainJs_updateStableCandidate_counter m s1) as (E1 & _).
  destruct (Nat.leb _ _); [ cbn [fst MainJsMonitor.SAMPLE_BUFFER]; exact E1 | ].
  repeat match goal with
         | |- context [match ?o with Some _ => _ | None => _ end] =>
             destruct o
         end; cbn [fst]; exact E1.
Qed.

(** In the simpler monitor a tick whose buffer holds fewer than 100
    samples, or whose signal range is below 0.001, forgets everything but
    the samples: the raw BPM buffer, the stable candidate, its counter and
    the locked BPM are cleared, and the status is displayed. (The monitor
    with the quality gate keeps its lock on such a tick.) Hence, in every
    state of a session, the simpler monitor holds a raw BPM, a candidate or
    a lock only while its buffer holds at least 100 samples. *)
Theorem MainJs_weak_signal_clears_lock :
  (forall (s : MainJsMonitor.State) (sample : Sample),
      let buffer :=
        pushBounded MAX_SAMPLES (MainJsMonitor.SAMPLE_BUFFER s) sample in
      (length buffer < 100 ->
       MainJsMonitor.processFrame s sample
       = (MainJsMonitor.mkState buffer [] None 0 None, DStatus "Analyzing..."))
      /\ (100 <= length buffer ->
          (range (MainJsMonitor.analyzeData buffer) <? 0.001)%float = true ->
          MainJsMonitor.processFrame s sample
          = (MainJsMonitor.mkState buffer [] None 0 None, DStatus "Low Signal")))
  /\ (forall s : MainJsMonitor.State,
        MainJs_reachable s ->
        length (MainJsMonitor.SAMPLE_BUFFER s) < 100 ->
        MainJsMonitor.rawBpmBuffer s = []
        /\ MainJsMonitor.stableBpmCandidate s = None
        /\ MainJsMonitor.stabilityCounter s = 0
        /\ MainJsMonitor.lastDisplayedBpm s = None).
Proof.
  assert (Heffect :
            forall (s : MainJsMonitor.State) (sample : Sample),
              let buffer :=
                pushBounded MAX_SAMPLES (MainJsMonitor.SAMPLE_BUFFER s) sample in
              (length buffer < 100 ->
               MainJsMonitor.processFrame s sample
               = (MainJsMonitor.mkState buffer [] None 0 None,
                  DStatus "Analyzing..."))
              /\ (100 <= length buffer ->
                  (range (MainJsMonitor.analyzeData buffer) <? 0.001)%float = true ->
                  MainJsMonitor.processFrame s sample
                  = (MainJsMonitor.mkState buffer [] None 0 None,
                     DStatus "Low Signal"))).
  { intros s sample buffer. unfold MainJsMonitor.processFrame.
    cbn [MainJsMonitor.SAMPLE_BUFFER]. fold buffer.
    change MainJsMonitor.MIN_SAMPLES_FOR_RELIABLE_BPM with 100.
    change MainJsMonitor.MIN_SIGNAL_RANGE_FOR_CALCULATION with 0.001%float.
    split.
    - intros Hshort.
      destruct (Nat.ltb_spec (length buffer) 100); [ reflexivity | lia ].
    - intros Hlong Hlow.
      destruct (Nat.ltb_spec (length buffer) 100); [ lia | ].
      rewrite Hlow. reflexivity. }
  split; [ exact Heffect | ].
  intros s Hreach. destruct Hreach as [| s sample _].
  - intros _. repeat split.
  - rewrite MainJs_processFrame_SAMPLE_BUFFER. intros Hshort.
    rewrite (proj1 (Heffect s sample) Hshort). repeat split.
Qed.

(** ** Equally spaced events *)

Section EqualSpacing.
Local Open Scope Z_scope.

(** The difference of a number with itself is zero. *)
Lemma sub_self (d : float) : posnormal d -> (d - d)%float = 0%float.
Proof.
  intros Hd. destruct (posnormal_rep d Hd) as (m & e & Hr & _ & _ & _ & He).
  assert (H : Prim2SF (d - d) = Prim2SF 0%float).
  { rewrite FloatAxioms.sub_spec, Hr. unfold SF64sub, SFsub.
    rewrite Z.min_id, shl_align_ge by lia. cbn [fst cond_Zopp].
    rewrite Z.sub_diag. reflexivity. }
  rewrite <- (SF2Prim_Prim2SF (d - d)), H. reflexivity.
Qed.

(** The double of a number that is not in the last binade. *)
Lemma double_exists (d : float) :
  posnormal d -> sc d < 2 ^ 2000 ->
  exists d2 : float, posnormal d2 /\ sc d2 = 2 * sc d.
Proof.
  intros Hd Hsmall.
  destruct (posnormal_rep d Hd) as (m & e & Hr & _ & Hdig & Hs & He).
  assert (He' : e + 1 <= 971).
  { destruct (Z.le_gt_cases (e + 1) 971) as [| Hgt]; [ assumption | exfalso ].
    rewrite Hs in Hsmall. unfold scaled in Hsmall.
    pose proof (dig_53_ge m Hdig).
    assert (2 ^ 2000 <= 2 ^ (e + 1074)) by (apply Z.pow_le_mono_r; lia).
    assert (0 < 2 ^ 2000) by (apply Z.pow_pos_nonneg; lia). nia. }
  assert (Hv : valid_binary (S754_finite false m (e + 1)) = true)
    by (apply valid_intro; lia).
  exists (SF2Prim (S754_finite false m (e + 1))).
  pose proof (Prim2SF_SF2Prim _ Hv) as Hp.
  split.
  - exists m, (e + 1). split; assumption.
  - unfold sc at 1. rewrite Hp, Hs. unfold scaled.
    replace (e + 1 + 1074) with (1 + (e + 1074)) by lia.
    rewrite (Z.pow_add_r 2 1 (e + 1074)) by lia. change (2 ^ 1) with 2. ring.
Qed.

(** The mean of a number with itself is the number. *)
Lemma mean_self (d : float) :
  posnormal d -> 2 ^ 55 <= sc d < 2 ^ 2000 -> ((d + d) / 2)%float = d.
Proof.
  intros Hd [Hlo Hhi].
  destruct (double_exists d Hd Hhi) as (d2 & Hd2 & Hs2).
  assert (Hsum : (d + d)%float = d2).
  { apply squeezed; [ | exact Hd2 ]. apply add_sc; try assumption. lia. }
  rewrite Hsum. apply squeezed; [ | exact Hd ].
  apply half_sc; try assumption; lia.
Qed.

Lemma posnormal_two53 : posnormal 9007199254740992. Proof. posnormal_literal. Qed.
Lemma sc_one : sc 1 = 2 ^ 1074. Proof. vm_compute. reflexivity. Qed.
Lemma sc_two53 : sc 9007199254740992 = 2 ^ 1127. Proof. vm_compute. reflexivity. Qed.
Lemma posnormal_one : posnormal 1. Proof. posnormal_literal. Qed.

(** What the medians need of a spacing between 1 and [2^53]. *)
Lemma spacing_facts (d : number) :
  inRange 1 9007199254740992 d = true ->
  isNaN d = false
  /\ (0 <? d - d)%float = false
  /\ ((d + d) / 2)%float = d
  /\ (d =? 0)%float = false
  /\ (d <=? 0)%float = false.
Proof.
  intros Hd.
  apply (inRange_sc 1 9007199254740992 posnormal_one posnormal_two53) in Hd.
  destruct Hd as (Pd & Ld & Ud). rewrite sc_one in Ld. rewrite sc_two53 in Ud.
  destruct (posnormal_truthy d Pd) as [Ht Hn].
  split; [ exact Hn | ].
  split; [ rewrite (sub_self d Pd); reflexivity | ].
  split.
  { apply mean_self; [ exact Pd | ]. split.
    - etransitivity; [ | exact Ld ]. apply Z.pow_le_mono_r; lia.
    - eapply Z.le_lt_trans; [ exact Ud | ]. apply Z.pow_lt_mono_r; lia. }
  assert (Hpos : 0 < ord d).
  { destruct (posnormal_rep d Pd) as (m & e & Hr & _ & _ & _ & He).
    unfold ord. rewrite Hr. cbn [ordSF cond_Zopp]. now apply scaled_pos. }
  split.
  - rewrite eqb_ord by (assumption || reflexivity).
    change (ord 0%float) with 0. apply Z.eqb_neq. lia.
  - rewrite leb_ord by (assumption || reflexivity).
    change (ord 0%float) with 0. apply Z.leb_gt. lia.
Qed.

End EqualSpacing.

(** On events spaced [d] milliseconds apart, [d] between 1 and [2^53], the
    [calculateBpm] of the simpler monitor answers [60000 / d] whatever [d]:
    it filters no interval out. The [calculateBpm] of the monitor with the
    quality gate answers [60000 / d] only when [270 < d < 2000], and [null]
    otherwise. *)
Theorem MainJs_calculateBpm_keeps_every_interval :
  forall (events : list Sample) (d : number),
    2 <= length events ->
    ((1 <=? d) && (d <=? 9007199254740992))%float = true ->
    Forall (fun dt => dt = d) (timeDifferences events) ->
    MainJsMonitor.calculateBpm events = Some (60000 / d)%float
    /\ calculateBpm events
       = if ((270 <? d) && (d <? 2000))%float then Some (60000 / d)%float
         else None.
Proof.
  intros events d Hlen Hd Hall.
  destruct (spacing_facts d Hd) as (Hnum & Hties & Hmean & Hnz & Hpos).
  apply Forall_eq_repeat in Hall. rewrite timeDifferences_length in Hall.
  split.
  - unfold MainJsMonitor.calculateBpm.
    destruct (Nat.ltb_spec (length events) 2) as [| _]; [ lia | ].
    rewrite Hall, (sort_numbers_repeat d Hties), repeat_length.
    destruct (Nat.eqb_spec (length events - 1) 0) as [| _]; [ lia | ].
    set (n := length events - 1) in *.
    assert (Hhalf : n / 2 < n) by (apply Nat.div_lt; lia).
    assert (Hmedian :
              (if Nat.eqb (n mod 2) 0
               then ((nth (n / 2 - 1) (repeat d n) nan
                      + nth (n / 2) (repeat d n) nan) / 2)%float
               else nth (n / 2) (repeat d n) nan) = d).
    { destruct (Nat.eqb (n mod 2) 0);
        rewrite !nth_repeat_lt by lia; [ exact Hmean | reflexivity ]. }
    cbv zeta. rewrite Hmedian, Hnz, Hnum. reflexivity.
  - rewrite calculateBpm_cases.
    destruct (Nat.ltb_spec (length events) 2) as [| _]; [ lia | ].
    unfold plausibleIntervals. rewrite Hall.
    replace (length events - 1) with (S (length events - 2)) by lia.
    destruct ((270 <? d) && (d <? 2000))%float eqn:Hp.
    + rewrite filter_repeat by exact Hp. cbn [repeat].
      change (d :: repeat d (length events - 2))
        with (repeat d (S (length events - 2))).
      rewrite (calculateMedian_repeat d Hnum Hties Hmean), Hpos, Hnum.
      reflexivity.
    + assert (Hnone : filter (fun dt => ((270 <? dt) && (dt <? 2000))%float)
                        (repeat d (S (length events - 2))) = []).
      { apply filter_nil_Forall. apply Forall_forall. intros x Hx.
        apply repeat_spec in Hx. now subst x. }
      rewrite Hnone. reflexivity.
Qed.

Lemma MainJs_calculateBpm_keeps_every_interval_witness :
  MainJsMonitor.calculateBpm [mkSample 0.4 1000; mkSample 0.4 1100]
  = Some (60000 / 100)%float
  /\ calculateBpm [mkSample 0.4 1000; mkSample 0.4 1100] = None.
Proof.
  apply (MainJs_calculateBpm_keeps_every_interval
           [mkSample 0.4 1000; mkSample 0.4 1100] 100%float);
    [ cbn; lia | reflexivity | repeat constructor ].
Defined.

(** ** Choosing the camera *)

Lemma find_first {A : Type} (p : A -> bool) (l : list A) (x : A) :
  find p l = Some x ->
  exists before after,
    l = before ++ x :: after
    /\ p x = true
    /\ Forall (fun y => p y = false) before.
Proof.
  induction l as [| a l IH]; [ discriminate | ].
  cbn [find]. destruct (p a) eqn:Ha.
  - intros [= ->]. exists [], l. repeat split; [ exact Ha | constructor ].
  - intros H. destruct (IH H) as (before & after & -> & Hx & Hb).
    exists (a :: before), after. repeat split; [ exact Hx | now constructor ].
Qed.

Lemma find_none_Forall {A : Type} (p : A -> bool) (l : list A) :
  find p l = None -> Forall (fun y => p y = false) l.
Proof.
  intros H. apply Forall_forall. intros y Hy. exact (find_none p l H y Hy).
Qed.

(** The guard [camera.label &&] of the newer [getCamera] changes nothing:
    an empty label does not contain "back". *)
Lemma guarded_mentionsBack (camera : Camera.MediaDeviceInfo) :
  negb (String.eqb (Camera.label camera) EmptyString)
  && Camera.includes (Camera.toLowerCase (Camera.label camera)) "back"
  = mentionsBack camera.
Proof.
  unfold mentionsBack. destruct (Camera.label camera); reflexivity.
Qed.

(** [getCamera] answers [null] when the devices cannot be listed or hold
    no camera. Otherwise it answers a camera of the list: the first one
    whose label mentions "back" in any case of the letters, and when no
    label does, the first camera. *)
Theorem getCamera_prefers_back_camera :
  Camera.getCamera Camera.EnumerateUnsupported = None
  /\ Camera.getCamera Camera.EnumerateRejected = None
  /\ forall devices : list Camera.MediaDeviceInfo,
       let cameras := filter isCamera devices in
       (Camera.getCamera (Camera.Enumerated devices) = None <-> cameras = [])
       /\ (forall camera : Camera.MediaDeviceInfo,
             Camera.getCamera (Camera.Enumerated devices) = Some camera ->
             In camera devices
             /\ Camera.kind camera = "videoinput"%string
             /\ exists before after : list Camera.MediaDeviceInfo,
                  cameras = before ++ camera :: after
                  /\ Forall (fun c => mentionsBack c = false) before
                  /\ (mentionsBack camera = true
                      \/ (before = []
                          /\ Forall (fun c => mentionsBack c = false) after))).
Proof.
  split; [ reflexivity | ]. split; [ reflexivity | ].
  intros devices cameras. unfold Camera.getCamera.
  fold isCamera. fold cameras.
  assert (Hfind : find (fun camera =>
                          negb (String.eqb (Camera.label camera) EmptyString)
                          && Camera.includes
                               (Camera.toLowerCase (Camera.label camera)) "back")
                    cameras
                  = find mentionsBack cameras).
  { clear. induction cameras as [| c l IH]; [ reflexivity | ].
    cbn [find]. rewrite guarded_mentionsBack, IH. reflexivity. }
  rewrite Hfind.
  assert (Hcam : forall c, In c cameras ->
                   In c devices /\ Camera.kind c = "videoinput"%string).
  { intros c Hc. apply filter_In in Hc. destruct Hc as [H1 H2].
    split; [ exact H1 | ]. now apply String.eqb_eq. }
  destruct cameras as [| c0 rest] eqn:Hc; cbn [length Nat.eqb].
  { split; [ tauto | discriminate ]. }
  destruct (find mentionsBack (c0 :: rest)) as [b |] eqn:Hb.
  - split; [ split; discriminate | ].
    intros camera [= <-].
    destruct (find_first _ _ _ Hb) as (before & after & E & Hx & Hbefore).
    assert (Hin : In b (c0 :: rest)) by (rewrite E; apply in_elt).
    destruct (Hcam b Hin) as [H1 H2].
    split; [ exact H1 | ]. split; [ exact H2 | ].
    exists before, after. split; [ exact E | ]. split; [ exact Hbefore | now left ].
  - cbn [nth_error]. split; [ split; discriminate | ].
    intros camera [= <-].
    destruct (Hcam c0 (or_introl eq_refl)) as [H1 H2].
    split; [ exact H1 | ]. split; [ exact H2 | ].
    exists [], rest. split; [ reflexivity | ]. split; [ constructor | ].
    right. split; [ reflexivity | ].
    pose proof (find_none_Forall _ _ Hb) as Hall. now inversion Hall.
Qed.

(** The older [getCamera] also prefers the first camera whose label
    mentions "back", but when no label does it answers the last camera of
    the list, not the first. *)
Theorem MainJs_getCamera_falls_back_to_last :
  forall devices : list Camera.MediaDeviceInfo,
    let cameras := filter isCamera devices in
    (MainJsMonitor.getCamera devices = None <-> cameras = [])
    /\ (forall camera : Camera.MediaDeviceInfo,
          MainJsMonitor.getCamera devices = Some camera ->
          In camera devices
          /\ Camera.kind camera = "videoinput"%string
          /\ exists before after : list Camera.MediaDeviceInfo,
               cameras = before ++ camera :: after
               /\ ((mentionsBack camera = true
                    /\ Forall (fun c => mentionsBack c = false) before)
                   \/ (after = []
                       /\ Forall (fun c => mentionsBack c = false) before))).
Proof.
  intros devices cameras. unfold MainJsMonitor.getCamera.
  fold isCamera. fold cameras. fold mentionsBack.
  change (fun camera => Camera.includes
                          (Camera.toLowerCase (Camera.label camera)) "back")
    with mentionsBack.
  assert (Hcam : forall c, In c cameras ->
                   In c devices /\ Camera.kind c = "videoinput"%string).
  { intros c Hc. apply filter_In in Hc. destruct Hc as [H1 H2].
    split; [ exact H1 | ]. now apply String.eqb_eq. }
  clearbody cameras.
  destruct (find mentionsBack cameras) as [b |] eqn:Hb.
  - destruct (find_first _ _ _ Hb) as (before & after & E & Hx & Hbefore).
    split; [ split; [ discriminate | intros ->; destruct before; discriminate ] | ].
    intros camera [= <-].
    assert (Hin : In b cameras) by (rewrite E; apply in_elt).
    destruct (Hcam b Hin) as [H1 H2].
    split; [ exact H1 | ]. split; [ exact H2 | ].
    exists before, after. split; [ exact E | ]. left. now split.
  - pose proof (find_none_Forall _ _ Hb) as Hall.
    destruct cameras as [| c rest].
    { split; [ tauto | discriminate ]. }
    destruct (exists_last (l := c :: rest) ltac:(discriminate))
      as (before & last & E).
    rewrite E in *.
    assert (Hnth : nth_error (before ++ [last]) (length (before ++ [last]) - 1)
                   = Some last).
    { rewrite length_app. cbn [length].
      replace (length before + 1 - 1) with (length before) by lia.
      rewrite nth_error_app2 by lia. rewrite Nat.sub_diag. reflexivity. }
    rewrite Hnth.
    split; [ split; [ discriminate | intros H; destruct before; discriminate ] | ].
    intros camera [= <-].
    assert (Hin : In last (before ++ [last])) by apply in_elt.
    destruct (Hcam last Hin) as [H1 H2].
    split; [ exact H1 | ]. split; [ exact H2 | ].
    exists before, []. split; [ reflexivity | ]. right.
    split; [ reflexivity | ]. apply Forall_app in Hall. tauto.
Qed.

Lemma getCamera_prefers_back_camera_example :
  Camera.getCamera
    (Camera.Enumerated
       [ Camera.mkDevice "m1" "audioinput" "Microphone";
         Camera.mkDevice "c1" "videoinput" "Front Camera";
         Camera.mkDevice "c2" "videoinput" "BACK Camera";
         Camera.mkDevice "c3" "videoinput" "Wide camera" ])
  = Some (Camera.mkDevice "c2" "videoinput" "BACK Camera")
  /\ MainJsMonitor.getCamera
       [ Camera.mkDevice "c1" "videoinput" "Front Camera";
         Camera.mkDevice "c3" "videoinput" "Wide camera" ]
     = Some (Camera.mkDevice "c3" "videoinput" "Wide camera")
  /\ Camera.getCamera
       (Camera.Enumerated
          [ Camera.mkDevice "c1" "videoinput" "Front Camera";
            Camera.mkDevice "c3" "videoinput" "Wide camera" ])
     = Some (Camera.mkDevice "c1" "videoinput" "Front Camera").
Proof. repeat split. Qed.

(** ** Opening the camera *)

Section CameraStream.
Variable MediaStream : Type.
Variable tryGetUserMedia : Camera.Constraints -> MediaStream + Camera.MediaError.

(** [startCameraStream] answers the stream of the first attempt that
    succeeds, the attempts being tried in order: the exact device (only
    when a camera with a device id is given), the facing mode with the
    ideal size, any video. It fails only when every attempt fails, and the
    alert then reports the error of the last attempt, [{ video: true }]. *)
Theorem startCameraStream_first_success :
  forall camera : option Camera.MediaDeviceInfo,
    Camera.startCameraStream MediaStream tryGetUserMedia camera
    = match firstStream tryGetUserMedia (attempts camera) None with
      | inl stream => inl stream
      | inr (Some lastError) => inr (Camera.alertMessage lastError)
      | inr None => inr EmptyString
      end
    /\ (forall text : string,
          Camera.startCameraStream MediaStream tryGetUserMedia camera = inr text ->
          Forall (fun k => exists error, tryGetUserMedia k = inr error)
            (attempts camera)
          /\ exists lastError,
               tryGetUserMedia Camera.AnyVideo = inr lastError
               /\ text = Camera.alertMessage lastError).
Proof.
  intros camera.
  assert (Hshape :
            Camera.startCameraStream MediaStream tryGetUserMedia camera
            = match firstStream tryGetUserMedia (attempts camera) None with
              | inl stream => inl stream
              | inr (Some lastError) => inr (Camera.alertMessage lastError)
              | inr None => inr EmptyString
              end).
  { unfold Camera.startCameraStream, attempts.
    destruct camera as [c |]; cbn zeta;
      [ destruct (String.eqb (Camera.deviceId c) EmptyString);
        cbn [negb app firstStream];
        [ | destruct (tryGetUserMedia (Camera.ExactDevice (Camera.deviceId c)));
            [ reflexivity | ] ]
      | cbn [app firstStream] ];
      (destruct (tryGetUserMedia Camera.FacingModeIdeal); [ reflexivity | ]);
      destruct (tryGetUserMedia Camera.AnyVideo); reflexivity. }
  split; [ exact Hshape | ].
  intros text. unfold Camera.startCameraStream, attempts.
  destruct camera as [c |]; cbn zeta.
  - destruct (String.eqb (Camera.deviceId c) EmptyString); cbn [negb app].
    + destruct (tryGetUserMedia Camera.FacingModeIdeal) as [| e1] eqn:E1;
        [ discriminate | ].
      destruct (tryGetUserMedia Camera.AnyVideo) as [| e2] eqn:E2;
        [ discriminate | ].
      intros [= <-]. split; [ | eauto ].
      repeat constructor; eauto.
    + destruct (tryGetUserMedia (Camera.ExactDevice (Camera.deviceId c)))
        as [| e0] eqn:E0; [ discriminate | ].
      destruct (tryGetUserMedia Camera.FacingModeIdeal) as [| e1] eqn:E1;
        [ discriminate | ].
      destruct (tryGetUserMedia Camera.AnyVideo) as [| e2] eqn:E2;
        [ discriminate | ].
      intros [= <-]. split; [ | eauto ].
      repeat constructor; eauto.
  - cbn [app].
    destruct (tryGetUserMedia Camera.FacingModeIdeal) as [| e1] eqn:E1;
      [ discriminate | ].
    destruct (tryGetUserMedia Camera.AnyVideo) as [| e2] eqn:E2;
      [ discriminate | ].
    intros [= <-]. split; [ | eauto ].
    repeat constructor; eauto.
Qed.

End CameraStream.

(** ** The graph stays inside the canvas *)

Section Clamp.
Local Open Scope Z_scope.

Lemma min2_ord (a b : number) :
  isNaN a = false -> isNaN b = false ->
  isNaN (min2 a b) = false /\ ord (min2 a b) = Z.min (ord a) (ord b).
Proof.
  intros Ha Hb. unfold min2. rewrite Ha, Hb. cbn [orb].
  rewrite (ltb_ord b a Hb Ha), (eqb_ord a b Ha Hb).
  destruct (Z.ltb_spec (ord b) (ord a)); [ split; [ assumption | lia ] | ].
  destruct (Z.eqb_spec (ord a) (ord b)); cbn [andb];
    [ | split; [ assumption | lia ] ].
  destruct (PrimFloat.is_zero b && get_sign b)%bool;
    split; try assumption; lia.
Qed.

Lemma max2_ord (a b : number) :
  isNaN a = false -> isNaN b = false ->
  isNaN (max2 a b) = false /\ ord (max2 a b) = Z.max (ord a) (ord b).
Proof.
  intros Ha Hb. unfold max2. rewrite Ha, Hb. cbn [orb].
  rewrite (ltb_ord a b Ha Hb), (eqb_ord a b Ha Hb).
  destruct (Z.ltb_spec (ord a) (ord b)); [ split; [ assumption | lia ] | ].
  destruct (Z.eqb_spec (ord a) (ord b)); cbn [andb];
    [ | split; [ assumption | lia ] ].
  destruct (PrimFloat.is_zero b && negb (get_sign b))%bool;
    split; try assumption; lia.
Qed.

Lemma min2_nan_l (b : number) : isNaN (min2 nan b) = true.
Proof. reflexivity. Qed.

Lemma isNaN_true (x : number) : isNaN x = true -> x = nan.
Proof.
  intros H. unfold isNaN, is_nan in H. rewrite FloatAxioms.eqb_spec in H.
  rewrite <- (SF2Prim_Prim2SF x).
  pose proof (Prim2SF_valid x) as Hv.
  destruct (Prim2SF x) as [s | s | | s m e] eqn:E; try reflexivity.
  - discriminate.
  - destruct s; discriminate.
  - exfalso. assert (Hn : Prim2SF x <> S754_nan) by (rewrite E; discriminate).
    apply isNaN_spec in Hn. unfold isNaN, is_nan in Hn.
    rewrite FloatAxioms.eqb_spec, E in Hn. rewrite Hn in H. discriminate.
Qed.

(** [Math.max(lo, Math.min(y, hi))]: NaN when [y] is, and otherwise between
    [lo] and [hi]. *)
Lemma clamp_spec (lo hi y : number) :
  isNaN lo = false -> isNaN hi = false -> (lo <=? hi)%float = true ->
  let r := Math_max [lo; Math_min [y; hi]] in
  isNaN r = true
  \/ ((lo <=? r)%float = true /\ (r <=? hi)%float = true).
Proof.
  intros Hlo Hhi Hle. cbv zeta. unfold Math_max, Math_min. cbn [fold_left].
  apply leb_true_ord in Hle.
  assert (Hinf : isNaN infinity = false) by reflexivity.
  assert (Hninf : isNaN neg_infinity = false) by reflexivity.
  destruct (isNaN y) eqn:Hy.
  - left. apply isNaN_true in Hy. subst y.
    destruct (max2_ord neg_infinity lo Hninf Hlo) as [H1 _].
    unfold max2 at 1. rewrite H1.
    replace (isNaN (min2 (min2 infinity nan) hi)) with true by reflexivity.
    reflexivity.
  - right.
    destruct (min2_ord infinity y Hinf Hy) as [N1 O1].
    destruct (min2_ord _ hi N1 Hhi) as [N2 O2].
    destruct (max2_ord neg_infinity lo Hninf Hlo) as [N3 O3].
    destruct (max2_ord _ _ N3 N2) as [N4 O4].
    rewrite !leb_ord by assumption. rewrite O4, O3, O2, O1.
    assert (Hneg : ord neg_infinity < ord lo \/ ord lo = ord neg_infinity).
    { change (ord neg_infinity) with (- 2 ^ 2200).
      pose proof (Prim2SF_valid lo) as Hv. apply isNaN_spec in Hlo.
      unfold ord.
      destruct (Prim2SF lo) as [s | s | | s m e]; cbn [ordSF];
        try contradiction.
      - left. assert (0 < 2 ^ 2200) by (apply Z.pow_pos_nonneg; lia). lia.
      - destruct s; cbn [cond_Zopp]; [ now right | left ].
        assert (0 < 2 ^ 2200) by (apply Z.pow_pos_nonneg; lia). lia.
      - left.
        change (valid_binary (S754_finite false m e) = true) in Hv.
        apply valid_inv in Hv. destruct Hv as (He & Hd & _).
        pose proof (scaled_pos m e ltac:(lia)).
        pose proof (scaled_bound m e Hd He).
        destruct s; cbn [cond_Zopp]; lia. }
    split; apply Z.leb_le; lia.
Qed.

End Clamp.

Lemma map_all_true {A : Type} (p : A -> bool) (l : list A) :
  Forall (fun x => p x = true) l -> map p l = repeat true (length l).
Proof.
  induction 1 as [| x l Hx _ IH]; [ reflexivity | ].
  cbn [map length repeat]. now rewrite Hx, IH.
Qed.

Lemma combine_seq_length {A : Type} (l : list A) (n : nat) :
  length (combine (seq n (length l)) l) = length l.
Proof. rewrite length_combine, length_seq. apply Nat.min_id. Qed.

(** For two samples or more, [drawGraph] issues one path command per
    sample, a [moveTo] followed by [lineTo]s; every ordinate that is a
    number lies between the line width and the height less the line width,
    so the curve stays inside the canvas; and when the range of the signal
    is not above [1e-9] all the ordinates are equal, a flat line. For fewer
    than two samples nothing is drawn. *)
Theorem drawGraph_stays_inside :
  forall (canvas : Canvas) (lineWidth : number) (samples : list Sample)
         (dataStats : DataStats),
    isNaN lineWidth = false ->
    isNaN (height canvas - lineWidth)%float = false ->
    (lineWidth <=? height canvas - lineWidth)%float = true ->
    let path := drawGraph canvas lineWidth samples dataStats in
    length path = (if Nat.ltb (length samples) 2 then 0 else length samples)
    /\ Forall
         (fun c =>
            isNaN (ordinate c) = true
            \/ ((lineWidth <=? ordinate c)%float = true
                /\ (ordinate c <=? height canvas - lineWidth)%float = true))
         path
    /\ map isLineTo path
       = match path with
         | [] => []
         | _ :: rest => false :: repeat true (length rest)
         end
    /\ ((1e-9 <? range dataStats)%float = false ->
        Forall
          (fun c =>
             ordinate c
             = Math_max
                 [lineWidth;
                  Math_min [(height canvas / 2)%float;
                            (height canvas - lineWidth)%float]])
          path).
Proof.
  intros canvas lw samples stats Hlw Hhi Hle path. subst path.
  unfold drawGraph. cbv zeta.
  destruct (Nat.ltb_spec (length samples) 2) as [Hfew | Hmany].
  { repeat split; constructor. }
  split; [ rewrite length_map; apply combine_seq_length | ].
  split.
  { apply Forall_forall. intros c Hc. apply in_map_iff in Hc.
    destruct Hc as ([i sample] & <- & _).
    destruct (Nat.eqb i 0); cbn [ordinate]; now apply clamp_spec. }
  split.
  { destruct samples as [| s0 rest]; [ cbn in Hmany; lia | ].
    cbn [length seq combine map Nat.eqb isLineTo]. f_equal.
    rewrite map_map, length_map. apply map_all_true.
    apply Forall_forall. intros [i sample] Hin.
    apply in_combine_l, in_seq in Hin.
    destruct i as [| i]; [ lia | reflexivity ]. }
  intros Hflat. apply Forall_forall. intros c Hc. apply in_map_iff in Hc.
  destruct Hc as ([i sample] & <- & _). rewrite Hflat.
  destruct (Nat.eqb i 0); reflexivity.
Qed.

Lemma drawGraph_stays_inside_witness :
  length
    (drawGraph (mkCanvas 600 200) 2
       [mkSample 0.5 0; mkSample 0.75 16; mkSample 0.25 32]
       (analyzeData [mkSample 0.5 0; mkSample 0.75 16; mkSample 0.25 32]))
  = 3.
Proof.
  apply (drawGraph_stays_inside (mkCanvas 600 200) 2
           [mkSample 0.5 0; mkSample 0.75 16; mkSample 0.25 32]
           (analyzeData [mkSample 0.5 0; mkSample 0.75 16; mkSample 0.25 32]));
    reflexivity.
Defined.

(** ** Monitoring sessions *)

Lemma run_snoc (s : State) (frames : list Frame) (f : Frame) :
  run s (frames ++ [f]) = fst (processFrame (run s frames) f).
Proof. unfold run. now rewrite fold_left_app. Qed.

Lemma start_resets (s : State) :
  resetMeasurementState true (resetBuffer s) = initialState.
Proof. reflexivity. Qed.

Lemma session_invariant (events : list Event) :
  match session events with
  | Some frames =>
      MONITORING (runEvents events) = true
      /\ engine (runEvents events) = run initialState frames
  | None =>
      MONITORING (runEvents events) = false
      /\ cleared (engine (runEvents events))
  end.
Proof.
  induction events as [| ev events IH] using rev_ind.
  { cbn. repeat split. }
  unfold session, runEvents in *. rewrite !fold_left_app. cbn [fold_left].
  set (m := fold_left step events loaded) in *.
  destruct (fold_left sessionStep events None) as [frames |].
  - destruct IH as [Hmon Heng].
    destruct ev as [outcome | f]; cbn [sessionStep step].
    + unfold toggleMonitoring. rewrite Hmon. cbn. repeat split.
    + unfold monitorLoop. rewrite Hmon. cbn [negb].
      rewrite run_snoc, <- Heng.
      destruct (processFrame (engine m) f) as [s shown]. cbn. now split.
  - destruct IH as [Hmon Hclear].
    destruct ev as [outcome | f]; cbn [sessionStep step].
    + unfold toggleMonitoring. rewrite Hmon.
      destruct outcome; cbn; repeat split; exact Hmon.
    + unfold monitorLoop. rewrite Hmon. cbn. now split.
Qed.

(** Monitoring sessions are independent of each other. While the module is
    monitoring, its state is the one reached from the initial state by the
    frames that arrived since the monitoring was started, whatever happened
    before; so it is a reachable state. While it is not monitoring, frames
    change nothing and the measurement state is cleared; in particular a
    BPM is locked only while monitoring. *)
Theorem sessions_start_afresh :
  forall events : list Event,
    let m := runEvents events in
    (MONITORING m = true ->
     exists frames : list Frame,
       session events = Some frames
       /\ engine m = run initialState frames
       /\ reachable (engine m))
    /\ (MONITORING m = false ->
        session events = None
        /\ cleared (engine m)
        /\ forall f : Frame, step m (AnimationFrame f) = m)
    /\ (lockedBpm (engine m) <> None -> MONITORING m = true).
Proof.
  intros events m. subst m.
  pose proof (session_invariant events) as H.
  destruct (session events) as [frames |].
  - destruct H as [Hmon Heng]. rewrite Hmon.
    split; [ | split; [ discriminate | reflexivity ] ].
    intros _. exists frames. split; [ reflexivity | ].
    split; [ exact Heng | ]. rewrite Heng. apply reachable_run.
  - destruct H as [Hmon Hclear]. rewrite Hmon.
    split; [ discriminate | ].
    split.
    + intros _. split; [ reflexivity | ]. split; [ exact Hclear | ].
      intros f. cbn [step]. unfold monitorLoop. rewrite Hmon. reflexivity.
    + intros Hlock. exfalso. apply Hlock. apply Hclear.
Qed.

Lemma sessions_start_afresh_example :
  session
    [ Toggle Started; AnimationFrame (mkFrame true 0.5 1000); Toggle Started;
      AnimationFrame (mkFrame true 0.5 2000); Toggle CameraFailed;
      Toggle Started; AnimationFrame (mkFrame true 0.5 3000) ]%float
  = Some [mkFrame true 0.5 3000]%float.
Proof. reflexivity. Qed.
